(** * The Jacobi eigen-decomposition of mathjs: [src/function/matrix/eigs.js]

    A shallow embedding of [eigs], [checkAndSubmit], [isSymmetric], [diag],
    [diagBig], [getTheta], [getThetaBig], [x1], [x1Big], [Sij1], [Sij1Big],
    [getAij], [getAijBig] and [sorting], and the properties the specification
    states about them.

    Native JavaScript numbers are Rocq's primitive binary64 floats, so [-], [*],
    [/], [<], [>=] and [Math.abs] have their IEEE 754 meaning, NaN and signed
    zeros included.  What the file under study receives from elsewhere stays a
    parameter: the functions that the factory injects ([abs], [subtract],
    [equal], ...), the transcendental functions of [Math], and the [valueOf]
    methods of the BigNumber and Fraction objects. *)

From Stdlib Require Import ZArith List Ascii String DecimalString Floats Lia Uint63.
From stdpp Require Import base list sorting gmap strings.

Set Warnings "-inexact-float".
Local Open Scope float_scope.

(** ** JavaScript values *)

(** The values that reach the code: native numbers, strings (what a BigNumber
    turns into under [valueOf]), [undefined] (also what reading a hole or an
    index past the end of an array yields), and the two kinds of number object
    of mathjs. *)
Inductive value (Big Frac : Type) : Type :=
  | VNum (f : float)
  | VStr (s : string)
  | VUndef
  | VBig (b : Big)
  | VFrac (q : Frac).
Arguments VNum {Big Frac} f.
Arguments VStr {Big Frac} s.
Arguments VUndef {Big Frac}.
Arguments VBig {Big Frac} b.
Arguments VFrac {Big Frac} q.

(** Errors are objects with a [name] and a [message]. *)
Record exn : Type := Exn { exn_name : string; exn_message : string }.

Definition RangeError (msg : string) : exn := Exn "RangeError" msg.
Definition TypeError (msg : string) : exn := Exn "TypeError" msg.

(** Reading a property of [undefined], as in [a[i][j]] when [a[i]] does not
    exist, throws a [TypeError]; its text depends on the engine. *)
Definition undefined_read : exn :=
  TypeError "Cannot read properties of undefined".

(** A computation either returns or throws. *)
Inductive result (A : Type) : Type :=
  | Ok (a : A)
  | Throw (e : exn).
Arguments Ok {A} a.
Arguments Throw {A} e.

#[export] Instance result_ret : MRet result := fun A a => Ok a.
#[export] Instance result_bind : MBind result := fun A B f m =>
  match m with
  | Ok a => f a
  | Throw e => Throw e
  end.

(** [for (let k = 0; k < n; k++) body], threading the variables the body
    assigns. *)
Definition for_range {St : Type} (n : nat) (body : nat → St → result St)
    (s : St) : result St :=
  foldl (fun acc k => acc ≫= body k) (Ok s) (seq 0 n).

(** [for (let k = lo; k < hi; k++) body]. *)
Definition for_from {St : Type} (lo hi : nat) (body : nat → St → result St)
    (s : St) : result St :=
  foldl (fun acc k => acc ≫= body k) (Ok s) (seq lo (hi - lo)).

(** [while (cond) body]: JavaScript puts no bound on the number of rounds, so
    the model counts them down from [fuel]; [None] means the fuel ran out with
    the condition still true. *)
Fixpoint while_loop {St : Type} (fuel : nat) (cond : St → bool)
    (body : St → result St) (s : St) : option (result St) :=
  match fuel with
  | O => None
  | S fuel' =>
      if cond s then
        match body s with
        | Ok s' => while_loop fuel' cond body s'
        | Throw e => Some (Throw e)
        end
      else Some (Ok s)
  end.

(** ** The parameters of the file *)

(** What the ECMAScript library and the number objects supply. *)
Class Runtime (Big Frac : Type) : Type := {
  Math_cos : float → float;
  Math_sin : float → float;
  Math_atan : float → float;
  (** [Decimal.prototype.valueOf]: a string. *)
  big_valueOf : Big → string;
  (** [Fraction.prototype.valueOf]: a number. *)
  frac_valueOf : Frac → float;
  (** The conversion of a string to a number ([ToNumber] on strings). *)
  StringToNumber : string → float
}.

(** The functions the factory receives in its third argument,
    [{ typed, matrix, addScalar, subtract, equal, abs, atan, cos, sin,
       multiplyScalar, inv, bignumber, multiply, add }], as far as the numeric
    code uses them.  They are taken as total on values. *)
Class MathJS (Big Frac : Type) : Type := {
  addScalar : value Big Frac → value Big Frac → value Big Frac;
  subtract : value Big Frac → value Big Frac → value Big Frac;
  equal : value Big Frac → value Big Frac → bool;
  abs : value Big Frac → value Big Frac;
  atan : value Big Frac → value Big Frac;
  cos : value Big Frac → value Big Frac;
  sin : value Big Frac → value Big Frac;
  multiplyScalar : value Big Frac → value Big Frac → value Big Frac;
  inv : value Big Frac → value Big Frac;
  bignumber : value Big Frac → value Big Frac;
  (** [multiply] and [add] on two arguments. *)
  multiply : value Big Frac → value Big Frac → value Big Frac;
  add : value Big Frac → value Big Frac → value Big Frac
}.

(** [Math.PI], the binary64 number nearest to pi. *)
Definition Math_PI : float := 0x1.921fb54442d18p+1.

(** The length of an array as a number.  A length is below [2^32], so the
    conversion is exact. *)
Definition length_number (n : nat) : float :=
  PrimFloat.of_uint63 (Uint63.of_Z (Z.of_nat n)).

Section JS.
Context {Big Frac : Type} `{!Runtime Big Frac}.
#[local] Abbreviation val := (value Big Frac).

(** [ToPrimitive] with hint number: an object answers with its [valueOf]. *)
Definition ToPrimitive (v : val) : val :=
  match v with
  | VBig b => VStr (big_valueOf b)
  | VFrac q => VNum (frac_valueOf q)
  | _ => v
  end.

(** [ToNumber]. *)
Definition ToNumber (v : val) : float :=
  match ToPrimitive v with
  | VNum f => f
  | VStr s => StringToNumber s
  | _ => PrimFloat.nan
  end.

(** [a < b]: two strings are compared as strings, anything else as
    numbers. *)
Definition js_lt (a b : val) : bool :=
  match ToPrimitive a, ToPrimitive b with
  | VStr s, VStr t => String.ltb s t
  | _, _ => PrimFloat.ltb (ToNumber a) (ToNumber b)
  end.

(** [a <= b]: false when [b < a] is true or undefined. *)
Definition js_le (a b : val) : bool :=
  match ToPrimitive a, ToPrimitive b with
  | VStr s, VStr t => negb (String.ltb t s)
  | _, _ => PrimFloat.leb (ToNumber a) (ToNumber b)
  end.

(** [a >= b]: false when [a < b] is true or undefined. *)
Definition js_ge (a b : val) : bool :=
  match ToPrimitive a, ToPrimitive b with
  | VStr s, VStr t => negb (String.ltb s t)
  | _, _ => PrimFloat.leb (ToNumber b) (ToNumber a)
  end.

(** [v.valueOf()]. *)
Definition valueOf (v : val) : result val :=
  match v with
  | VUndef => Throw undefined_read
  | _ => Ok (ToPrimitive v)
  end.

(** *** Arrays *)

(** [a[k]]: [undefined] past the end. *)
Definition arr_get (a : list val) (k : nat) : val :=
  default VUndef (a !! k).

(** [a[k] = v]: past the end the array grows, the holes reading as
    [undefined]. *)
Definition arr_set (a : list val) (k : nat) (v : val) : list val :=
  if decide (k < length a)%nat then <[k := v]> a
  else a ++ replicate (k - length a) VUndef ++ [v].

(** [m[i][j]]: throws when row [i] does not exist. *)
Definition mat_get (m : list (list val)) (i j : nat) : result val :=
  match m !! i with
  | Some r => Ok (arr_get r j)
  | None => Throw undefined_read
  end.

(** [m[i][j] = v]: throws when row [i] does not exist. *)
Definition mat_set (m : list (list val)) (i j : nat) (v : val)
    : result (list (list val)) :=
  match m !! i with
  | Some r => Ok (<[i := arr_set r j v]> m)
  | None => Throw undefined_read
  end.

(** [m[i][j]] where [i] is below [m.length], so that the row exists. *)
Definition entry (m : list (list val)) (i j : nat) : val :=
  match m !! i with
  | Some r => arr_get r j
  | None => VUndef
  end.

End JS.

(** ** The numeric code *)

Section Engine.
Context {Big Frac : Type} `{!Runtime Big Frac} `{!MathJS Big Frac}.
#[local] Abbreviation val := (value Big Frac).
#[local] Abbreviation matrix := (list (list (value Big Frac))).

(** [a = new Array(n).fill(0); for (let k = 0; k < n; k++) a[k] = f(k)]. *)
Definition build {A : Type} (n : nat) (f : nat → A) : list A :=
  f <$> seq 0 n.

(** [k !== i && k !== j]. *)
Definition neither (k i j : nat) : bool :=
  negb (k =? i)%nat && negb (k =? j)%nat.

(** *** [getAij] and [getAijBig]: the largest entry above the diagonal *)

(** The body of the inner loop of [getAij]. *)
Definition getAij_step (Mij : matrix) (i : nat)
    (acc : (nat * nat) * float) (j : nat) : (nat * nat) * float :=
  let '(maxIJ, maxMij) := acc in
  if (PrimFloat.abs maxMij <? PrimFloat.abs (ToNumber (entry Mij i j)))
  then ((i, j), PrimFloat.abs (ToNumber (entry Mij i j)))
  else (maxIJ, maxMij).

Definition getAij (Mij : matrix) : (nat * nat) * float :=
  let N := length Mij in
  foldl (fun acc i => foldl (getAij_step Mij i) acc (seq (i + 1) (N - (i + 1))))
        ((0%nat, 1%nat), 0.0) (seq 0 N).

(** The body of the inner loop of [getAijBig]: [abs] is the injected one and
    [<] the operator of the language. *)
Definition getAijBig_step (Mij : matrix) (i : nat)
    (acc : (nat * nat) * val) (j : nat) : (nat * nat) * val :=
  let '(maxIJ, maxMij) := acc in
  if js_lt (abs maxMij) (abs (entry Mij i j))
  then ((i, j), abs (entry Mij i j))
  else (maxIJ, maxMij).

Definition getAijBig (Mij : matrix) : (nat * nat) * val :=
  let N := length Mij in
  foldl (fun acc i => foldl (getAijBig_step Mij i) acc (seq (i + 1) (N - (i + 1))))
        ((0%nat, 1%nat), VNum 0.0) (seq 0 N).

(** *** [getTheta] and [getThetaBig]: the angle *)

Definition getTheta (aii ajj aij : val) : float :=
  let denom := ToNumber ajj - ToNumber aii in
  if (PrimFloat.abs denom <=? 1e-14)
  then Math_PI / 4.0
  else 0.5 * Math_atan (2.0 * ToNumber aij / (ToNumber ajj - ToNumber aii)).

(** [multiply(2.0, aij, inv(denom))]: mathjs folds the arguments of
    [multiply] and of [add] from the left. *)
Definition getThetaBig (aii ajj aij : val) : val :=
  let denom := subtract ajj aii in
  if js_le (abs denom) (VNum 1e-14)
  then VNum (Math_PI / 4.0)
  else multiplyScalar (VNum 0.5)
         (atan (multiply (multiply (VNum 2.0) aij) (inv denom))).

(** *** [Sij1] and [Sij1Big]: the transform *)

(** The second loop of [Sij1] and of [Sij1Big]. *)
Definition Sij1_write (Sij : matrix) (Ski Skj : list val) (i j : nat)
    : result matrix :=
  for_range (length Sij) (fun k Sij =>
    Sij ← mat_set Sij k i (arr_get Ski k);
    mat_set Sij k j (arr_get Skj k)) Sij.

Definition Sij1 (Sij : matrix) (theta : float) (i j : nat) : result matrix :=
  let N := length Sij in
  let c := Math_cos theta in
  let s := Math_sin theta in
  let Ski := build N (fun k =>
    VNum (c * ToNumber (entry Sij k i) - s * ToNumber (entry Sij k j))) in
  let Skj := build N (fun k =>
    VNum (s * ToNumber (entry Sij k i) + c * ToNumber (entry Sij k j))) in
  Sij1_write Sij Ski Skj i j.

Definition Sij1Big (Sij : matrix) (theta : val) (i j : nat) : result matrix :=
  let N := length Sij in
  let c := cos theta in
  let s := sin theta in
  let Ski := build N (fun k =>
    subtract (multiplyScalar c (entry Sij k i))
             (multiplyScalar s (entry Sij k j))) in
  let Skj := build N (fun k =>
    addScalar (multiplyScalar s (entry Sij k i))
              (multiplyScalar c (entry Sij k j))) in
  Sij1_write Sij Ski Skj i j.

(** *** [x1] and [x1Big]: one rotation of the working matrix *)

(** The part of [x1] and of [x1Big] under [// Modify Hij], the same text in
    both: the four assignments and the loop that follows them. *)
Definition modify_Hij (Hij : matrix) (Aii Ajj : val) (Aki Akj : list val)
    (i j : nat) : result matrix :=
  let N := length Hij in
  Hij ← mat_set Hij i i Aii;
  Hij ← mat_set Hij j j Ajj;
  Hij ← mat_set Hij i j (VNum 0);
  Hij ← mat_set Hij j i (VNum 0);
  for_range N (fun k Hij =>
    if neither k i j then
      Hij ← mat_set Hij i k (arr_get Aki k);
      Hij ← mat_set Hij k i (arr_get Aki k);
      Hij ← mat_set Hij j k (arr_get Akj k);
      mat_set Hij k j (arr_get Akj k)
    else Ok Hij) Hij.

Definition x1 (Hij : matrix) (theta : float) (i j : nat) : result matrix :=
  let N := length Hij in
  let c := Math_cos theta in
  let s := Math_sin theta in
  let c2 := c * c in
  let s2 := s * s in
  hii ← mat_get Hij i i;
  hij ← mat_get Hij i j;
  hjj ← mat_get Hij j j;
  let Aii := c2 * ToNumber hii - 2 * c * s * ToNumber hij + s2 * ToNumber hjj in
  let Ajj := s2 * ToNumber hii + 2 * c * s * ToNumber hij + c2 * ToNumber hjj in
  '(Aki, Akj) ← for_range N (fun k '(Aki, Akj) =>
    hik ← mat_get Hij i k; hjk ← mat_get Hij j k;
    Ok (arr_set Aki k (VNum (c * ToNumber hik - s * ToNumber hjk)),
        arr_set Akj k (VNum (s * ToNumber hik + c * ToNumber hjk))))
    (replicate N (VNum 0), replicate N (VNum 0));
  modify_Hij Hij (VNum Aii) (VNum Ajj) Aki Akj i j.

Definition x1Big (Hij : matrix) (theta : val) (i j : nat) : result matrix :=
  let N := length Hij in
  let c := bignumber (cos theta) in
  let s := bignumber (sin theta) in
  let c2 := multiplyScalar c c in
  let s2 := multiplyScalar s s in
  hij ← mat_get Hij i j;
  let csHij := multiply (multiply (multiply (VNum 2) c) s) hij in
  hii ← mat_get Hij i i;
  hjj ← mat_get Hij j j;
  let Aii := addScalar (subtract (multiplyScalar c2 hii) csHij)
                       (multiplyScalar s2 hjj) in
  let Ajj := add (add (multiplyScalar s2 hii) csHij) (multiplyScalar c2 hjj) in
  '(Aki, Akj) ← for_range N (fun k '(Aki, Akj) =>
    hik ← mat_get Hij i k; hjk ← mat_get Hij j k;
    Ok (arr_set Aki k (subtract (multiplyScalar c hik) (multiplyScalar s hjk)),
        arr_set Akj k (addScalar (multiplyScalar s hik) (multiplyScalar c hjk))))
    (replicate N (VNum 0), replicate N (VNum 0));
  modify_Hij Hij Aii Ajj Aki Akj i j.

(** *** [sorting]: the values in order, the columns along with them *)

(** The inner loop of [sorting]: the index of the least element of [E]. *)
Definition sorting_min (E : list val) : nat :=
  fst (foldl (fun '(minID, minE) j =>
                if js_lt (arr_get E j) minE then (j, arr_get E j)
                else (minID, minE))
             (0%nat, arr_get E 0) (seq 0 (length E))).

(** [S[k].splice(c, 1)]. *)
Definition mat_splice (Sv : matrix) (k c : nat) : result matrix :=
  match Sv !! k with
  | Some r => Ok (<[k := delete c r]> Sv)
  | None => Throw undefined_read
  end.

(** One round of the outer loop of [sorting], on [E], [S], [Ef] and [Sf]. *)
Definition sorting_round (N : nat) (i : nat)
    (st : list val * matrix * list val * matrix)
    : result (list val * matrix * list val * matrix) :=
  let '(E, Sv, Ef, Sf) := st in
  let minID := sorting_min E in
  let Ef := arr_set Ef i (arr_get E minID) in
  let E := delete minID E in
  '(Sv, Sf) ← for_range N (fun k '(Sv, Sf) =>
    v ← mat_get Sv k minID;
    Sf ← mat_set Sf k i v;
    Sv ← mat_splice Sv k minID;
    Ok (Sv, Sf)) (Sv, Sf);
  Ok (E, Sv, Ef, Sf).

(** [Array(N)] has [N] holes, and a hole reads as [undefined]; [clone] copies
    its argument. *)
Definition sorting (E : list val) (Sv : matrix) : result (list val * matrix) :=
  let N := length E in
  let Ef := replicate N VUndef in
  let Sf := replicate N (replicate N VUndef) in
  '(_, _, Ef, Sf) ← for_range N (sorting_round N) (E, Sv, Ef, Sf);
  Ok (Ef, Sf).

(** *** [diag] and [diagBig]: the loop *)

(** [Sij[i] = Array(N).fill(0); Sij[i][i] = 1.0] for every [i] below [N]. *)
Definition identity (N : nat) : matrix :=
  build N (fun i => arr_set (replicate N (VNum 0)) i (VNum 1.0)).

(** [Ei[i] = x[i][i]] for every [i] below [N]. *)
Definition diagonal (N : nat) (x : matrix) : list val :=
  build N (fun i => entry x i i).

(** The variables of the loop: [x], [Sij] and [Vab]. *)
Definition diag_state : Type := matrix * matrix * ((nat * nat) * float).

(** [Math.abs(Vab[1]) >= Math.abs(e0)]. *)
Definition diag_cond (e0 : float) (st : diag_state) : bool :=
  PrimFloat.abs e0 <=? PrimFloat.abs (snd (snd st)).

Definition diag_body (st : diag_state) : result diag_state :=
  let '(x, Sij, Vab) := st in
  let i := fst (fst Vab) in
  let j := snd (fst Vab) in
  xii ← mat_get x i i;
  xjj ← mat_get x j j;
  xij ← mat_get x i j;
  let psi := getTheta xii xjj xij in
  x ← x1 x psi i j;
  Sij ← Sij1 Sij psi i j;
  Ok (x, Sij, getAij x).

Definition default_precision : float := 1e-12.

Definition diag (fuel : nat) (x : matrix) (precision : float)
    : option (result (list val * matrix)) :=
  let N := length x in
  let e0 := PrimFloat.abs (precision / length_number N) in
  let Sij := identity N in
  let Vab := getAij x in
  match while_loop fuel (diag_cond e0) diag_body (x, Sij, Vab) with
  | None => None
  | Some (Throw e) => Some (Throw e)
  | Some (Ok (x, Sij, _)) => Some (sorting (diagonal N x) Sij)
  end.

Definition diagBig_state : Type := matrix * matrix * ((nat * nat) * val).

(** [abs(Vab[1]) >= abs(e0)]. *)
Definition diagBig_cond (e0 : val) (st : diagBig_state) : bool :=
  js_ge (abs (snd (snd st))) (abs e0).

Definition diagBig_body (st : diagBig_state) : result diagBig_state :=
  let '(x, Sij, Vab) := st in
  let i := fst (fst Vab) in
  let j := snd (fst Vab) in
  xii ← mat_get x i i;
  xjj ← mat_get x j j;
  xij ← mat_get x i j;
  let psi := getThetaBig xii xjj xij in
  x ← x1Big x psi i j;
  Sij ← Sij1Big Sij psi i j;
  Ok (x, Sij, getAijBig x).

Definition diagBig (fuel : nat) (x : matrix) (precision : float)
    : option (result (list val * matrix)) :=
  let N := length x in
  let e0 := abs (VNum (precision / length_number N)) in
  let Sij := identity N in
  let Vab := getAijBig x in
  match while_loop fuel (diagBig_cond e0) diagBig_body (x, Sij, Vab) with
  | None => None
  | Some (Throw e) => Some (Throw e)
  | Some (Ok (x, Sij, _)) => Some (sorting (diagonal N x) Sij)
  end.

(** *** [isSymmetric] *)

(** The pairs [(i, j)] with [i <= j < n], in the order the two loops of
    [isSymmetric] visit them. *)
Definition symmetric_pairs (n : nat) : list (nat * nat) :=
  i ← seq 0 n; (fun j => (i, j)) <$> seq i (n - i).

(** The first pair, in that order, at which the test [!equal(x[i][j], x[j][i])]
    is true and the function throws; [Throw] stands for a row that does not
    exist. *)
Fixpoint isSymmetric_scan (x : matrix) (ps : list (nat * nat))
    : result (option (nat * nat)) :=
  match ps with
  | [] => Ok None
  | (i, j) :: ps' =>
      a ← mat_get x i j;
      b ← mat_get x j i;
      if negb (equal a b) then Ok (Some (i, j)) else isSymmetric_scan x ps'
  end.

Definition isSymmetric (x : matrix) (n : nat) : result unit :=
  r ← isSymmetric_scan x (symmetric_pairs n);
  match r with
  | Some _ => Throw (TypeError "Input matrix is not symmetric")
  | None => Ok tt
  end.

End Engine.

(** ** Matrices, and the functions that receive one *)

(** Arrays are objects: an array of values lives in the store, and a
    two-dimensional array is the list of the places of its rows.  The code
    below never assigns a row of a two-dimensional array, only the elements of
    the rows, so the outer array is kept by value. *)
Abbreviation loc := nat.
Abbreviation store Big Frac := (gmap nat (list (value Big Frac))).

(** A matrix object, by what its methods answer: [_data], [size()],
    [datatype()] ([None] for [undefined]) and [getDataType()]. *)
Record Matrix : Type := {
  m_data : list loc;
  m_size : list nat;
  m_datatype : option string;
  m_getDataType : string
}.

(** What [eigs] returns as [vectors]: the array [ans[1]], or [matrix(ans[1])]. *)
Inductive vectors_of (A : Type) : Type :=
  | AsArray (a : A)
  | AsMatrix (a : A).
Arguments AsArray {A} a.
Arguments AsMatrix {A} a.

(** The other collaborators: [format] of [utils/string], and the injected
    [matrix] on the array that [eigs] receives. *)
Class Collaborators (Big Frac Arr : Type) : Type := {
  format : list nat → string;
  matrix_of_array : Arr → store Big Frac → result (Matrix * store Big Frac)
}.

Section Validator.
Context {Big Frac Arr : Type} `{!Runtime Big Frac} `{!MathJS Big Frac}
        `{!Collaborators Big Frac Arr}.
#[local] Abbreviation val := (value Big Frac).
#[local] Abbreviation matrix := (list (list (value Big Frac))).
#[local] Abbreviation heap := (store Big Frac).

(** A new array holding [r]. *)
Definition alloc (h : heap) (r : list val) : loc * heap :=
  let l := fresh (dom h) in (l, <[l := r]> h).

(** The rows of a two-dimensional array, read from the store. *)
Definition snapshot (h : heap) (a : list loc) : matrix :=
  (fun l => default [] (h !! l)) <$> a.

(** Modelled from the spec: [toArray] of the matrix class, which is not in the
    sources; it supplies a mutable two-dimensional buffer of the elements (a
    copy of [_data], row by row, in new arrays). *)
Definition toArray (x : Matrix) (h : heap) : list loc * heap :=
  foldl (fun '(a, h) l =>
           let '(l', h') := alloc h (default [] (h !! l)) in (a ++ [l'], h'))
        ([], h) (m_data x).

(** [a[i][j]] and [a[i][j] = v] on an array in the store. *)
Definition h_get (h : heap) (a : list loc) (i j : nat) : result val :=
  match a !! i ≫= (h !!.) with
  | Some r => Ok (arr_get r j)
  | None => Throw undefined_read
  end.

Definition h_set (h : heap) (a : list loc) (i j : nat) (v : val)
    : result heap :=
  match a !! i with
  | Some l =>
      match h !! l with
      | Some r => Ok (<[l := arr_set r j v]> h)
      | None => Throw undefined_read
      end
  | None => Throw undefined_read
  end.

(** The loop of [checkAndSubmit] under [// convert fraction to numbers]. *)
Definition convert_fractions (xArr : list loc) (n : nat) (h : heap)
    : result heap :=
  for_range n (fun i h =>
    for_from i n (fun j h =>
      v ← h_get h xArr i j;
      v ← valueOf v;
      h ← h_set h xArr i j v;
      w ← h_get h xArr i j;
      h_set h xArr j i w) h) h.

(** [checkAndSubmit]; the result comes with the store it leaves. *)
Definition checkAndSubmit (fuel : nat) (x : Matrix) (n : nat) (h : heap)
    : option (result (list val * matrix)) * heap :=
  let type := match m_datatype x with
              | Some t => t
              | None => m_getDataType x
              end in
  if negb (String.eqb type "number") && negb (String.eqb type "BigNumber")
     && negb (String.eqb type "Fraction") then
    if String.eqb type "mixed" then
      (Some (Throw (TypeError "Mixed matrix element type is not supported")), h)
    else
      (Some (Throw (TypeError
         ("Matrix element type not supported (" ++ type ++ ")"))), h)
  else
    let '(a, h) := toArray x h in
    match isSymmetric (snapshot h a) n with
    | Throw e => (Some (Throw e), h)
    | Ok _ =>
        if String.eqb type "number" then
          let '(a, h) := toArray x h in
          (diag fuel (snapshot h a) default_precision, h)
        else if String.eqb type "Fraction" then
          let '(xArr, h) := toArray x h in
          match convert_fractions xArr n h with
          | Throw e => (Some (Throw e), h)
          | Ok h =>
              let '(a, h) := toArray x h in
              (diag fuel (snapshot h a) default_precision, h)
          end
        else
          let '(a, h) := toArray x h in
          (diagBig fuel (snapshot h a) default_precision, h)
    end.

(** [size.length !== 2 || size[0] !== size[1]]. *)
Definition not_square (size : list nat) : bool :=
  match size with
  | [r; c] => negb (r =? c)%nat
  | _ => true
  end.

Definition must_be_square (size : list nat) : exn :=
  RangeError ("Matrix must be square " ++ "(size: " ++ format size ++ ")").

(** What [eigs] returns: [{ values, vectors }]. *)
Record decomposition : Type := {
  values : list val;
  vectors : vectors_of matrix
}.

(** The signature [Matrix] of [eigs]. *)
Definition eigs_Matrix (fuel : nat) (x : Matrix) (h : heap)
    : option (result decomposition) * heap :=
  let size := m_size x in
  if not_square size then (Some (Throw (must_be_square size)), h)
  else
    match checkAndSubmit fuel x (default 0%nat (size !! 0%nat)) h with
    | (None, h) => (None, h)
    | (Some (Throw e), h) => (Some (Throw e), h)
    | (Some (Ok ans), h) =>
        (Some (Ok {| values := fst ans; vectors := AsMatrix (snd ans) |}), h)
    end.

(** The signature [Array] of [eigs]. *)
Definition eigs_Array (fuel : nat) (x : Arr) (h : heap)
    : option (result decomposition) * heap :=
  match matrix_of_array x h with
  | Throw e => (Some (Throw e), h)
  | Ok (mat, h) =>
      let size := m_size mat in
      if not_square size then (Some (Throw (must_be_square size)), h)
      else
        match checkAndSubmit fuel mat (default 0%nat (size !! 0%nat)) h with
        | (None, h) => (None, h)
        | (Some (Throw e), h) => (Some (Throw e), h)
        | (Some (Ok ans), h) =>
            (Some (Ok {| values := fst ans; vectors := AsArray (snd ans) |}), h)
        end
  end.

End Validator.

(** ** A provider to run the code on *)

(** The theorems below hold for every [Runtime] and every [MathJS].  To run
    the definitions on inputs, this module supplies one of each: polynomial
    approximations for the transcendental functions, integers for the
    BigNumbers (an integer prints as its decimal digits, operations that leave
    the integers truncate), and pairs of integers for the fractions. *)
Module Reference.

Definition Big : Type := Z.
Definition Frac : Type := Z * Z.
Definition val : Type := value Big Frac.

Definition float_of_Z (z : Z) : float :=
  if (z <? 0)%Z then - PrimFloat.of_uint63 (Uint63.of_Z (- z))
  else PrimFloat.of_uint63 (Uint63.of_Z z).

Definition Z_of_float (f : float) : Z :=
  match Prim2SF f with
  | S754_finite s m e =>
      let v := if (0 <=? e)%Z then (Z.pos m * 2 ^ e)%Z
               else (Z.pos m / 2 ^ (- e))%Z in
      if s then (- v)%Z else v
  | _ => 0%Z
  end.

(** The sum [x - x^3/3! + x^5/5! - ...], [n] terms after the first. *)
Fixpoint sin_series (n : nat) (x term : float) (k : float) : float :=
  match n with
  | O => term
  | S n' => term + sin_series n' x (- term * x * x / ((k + 1) * (k + 2))) (k + 2)
  end.

Definition ref_sin (x : float) : float := sin_series 12 x x 1.
Definition ref_cos (x : float) : float := sin_series 12 x 1 0.

(** The sum [x - x^3/3 + x^5/5 - ...], for small [x]. *)
Fixpoint atan_series (n : nat) (x power : float) (k : float) : float :=
  match n with
  | O => power / k
  | S n' => power / k + atan_series n' x (- power * x * x) (k + 2)
  end.

Definition atan_half (x : float) : float := x / (1 + PrimFloat.sqrt (1 + x * x)).

Definition ref_atan (x : float) : float :=
  if (PrimFloat.abs x <=? 1) then
    4 * atan_series 14 (atan_half (atan_half x)) (atan_half (atan_half x)) 1
  else if (x <? 0) then
    - (Math_PI / 2) - 4 * atan_series 14 (atan_half (atan_half (1 / x)))
                                         (atan_half (atan_half (1 / x))) 1
  else
    Math_PI / 2 - 4 * atan_series 14 (atan_half (atan_half (1 / x)))
                                     (atan_half (atan_half (1 / x))) 1.

(** An integer to its decimal digits, and back: a sign, then digits. *)
Definition decimal (z : Z) : string := NilZero.string_of_int (Z.to_int z).

Definition digit_of (c : ascii) : Z := (Z.of_nat (nat_of_ascii c) - 48)%Z.

Fixpoint digits_value (s : string) (acc : Z) : Z :=
  match s with
  | EmptyString => acc
  | String c s' => digits_value s' (10 * acc + digit_of c)%Z
  end.

Definition ref_StringToNumber (s : string) : float :=
  match s with
  | String "-"%char s' => float_of_Z (- digits_value s' 0)
  | _ => float_of_Z (digits_value s 0)
  end.

#[global] Instance runtime : Runtime Big Frac := {|
  Math_cos := ref_cos;
  Math_sin := ref_sin;
  Math_atan := ref_atan;
  big_valueOf := decimal;
  frac_valueOf := fun q => float_of_Z (fst q) / float_of_Z (snd q);
  StringToNumber := ref_StringToNumber
|}.

(** A value as an integer, for the operations on BigNumbers. *)
Definition to_Z (v : val) : Z :=
  match v with
  | VBig z => z
  | VFrac q => (fst q / snd q)%Z
  | _ => Z_of_float (ToNumber v)
  end.

(** Numbers among themselves stay numbers; with a BigNumber the result is a
    BigNumber. *)
Definition lift2 (fn : float → float → float) (fz : Z → Z → Z) (a b : val)
    : val :=
  match a, b with
  | VNum x, VNum y => VNum (fn x y)
  | _, _ => VBig (fz (to_Z a) (to_Z b))
  end.

Definition lift1 (fn : float → float) (a : val) : val :=
  match a with
  | VNum x => VNum (fn x)
  | _ => VBig (Z_of_float (fn (float_of_Z (to_Z a))))
  end.

#[global] Instance mathjs : MathJS Big Frac := {|
  addScalar := lift2 PrimFloat.add Z.add;
  subtract := lift2 PrimFloat.sub Z.sub;
  equal := fun a b =>
    match a, b with
    | VNum x, VNum y => PrimFloat.eqb x y
    | _, _ => (to_Z a =? to_Z b)%Z
    end;
  abs := fun a =>
    match a with
    | VNum x => VNum (PrimFloat.abs x)
    | _ => VBig (Z.abs (to_Z a))
    end;
  atan := lift1 ref_atan;
  cos := lift1 ref_cos;
  sin := lift1 ref_sin;
  multiplyScalar := lift2 PrimFloat.mul Z.mul;
  inv := fun a =>
    match a with
    | VNum x => VNum (1 / x)
    | _ => VBig (1 / to_Z a)%Z
    end;
  bignumber := fun a => VBig (to_Z a);
  multiply := lift2 PrimFloat.mul Z.mul;
  add := lift2 PrimFloat.add Z.add
|}.

#[global] Instance collaborators : Collaborators Big Frac (list (list val)) := {|
  format := fun size =>
    ("[" +:+ String.concat ", " ((decimal ∘ Z.of_nat) <$> size) +:+ "]")%string;
  matrix_of_array := fun a h =>
    let '(rows, h) :=
      foldl (fun '(rows, h) r => let '(l, h) := alloc h r in (rows ++ [l], h))
            ([], h) a in
    Ok ({| m_data := rows;
           m_size := [length a; default 0%nat (length <$> a !! 0%nat)];
           m_datatype := None;
           m_getDataType :=
             if forallb (forallb (fun v => match v with VNum _ => true | _ => false end)) a
             then "number"
             else if forallb (forallb (fun v => match v with VBig _ => true | _ => false end)) a
             then "BigNumber"
             else if forallb (forallb (fun v => match v with VFrac _ => true | _ => false end)) a
             then "Fraction"
             else "mixed" |}, h)
|}.

End Reference.

(** ** The vocabulary of the properties *)

(** A native number other than NaN. *)
Definition is_number {Big Frac : Type} (v : value Big Frac) : Prop :=
  ∃ f, v = VNum f ∧ PrimFloat.is_nan f = false.

(** [a[i]] for the [i] of [idx], in their order. *)
Definition pick {Big Frac : Type} (a : list (value Big Frac)) (idx : list nat)
    : list (value Big Frac) :=
  arr_get a <$> idx.

(** The indices [pi] were taken one after the other from [0 .. N-1], each
    time the first least of those that remained, [idx] being what remains:
    an element taken earlier is not above one taken later or left, and of two
    that neither is below the other the one with the smaller index went
    first. *)
Definition selected {Big Frac : Type} `{!Runtime Big Frac}
    (E : list (value Big Frac)) (pi idx : list nat) : Prop :=
  (∀ a b pa pb, (a < b)%nat → pi !! a = Some pa → pi !! b = Some pb →
     js_lt (arr_get E pb) (arr_get E pa) = false ∧
     (js_lt (arr_get E pa) (arr_get E pb) = false → (pa < pb)%nat)) ∧
  (∀ a pa r, pi !! a = Some pa → r ∈ idx →
     js_lt (arr_get E r) (arr_get E pa) = false ∧
     (js_lt (arr_get E pa) (arr_get E r) = false → (pa < r)%nat)).

(** The state of [sorting] after [i] rounds on [E0] and [S0]. *)
Definition sorting_inv {Big Frac : Type} `{!Runtime Big Frac}
    (E0 : list (value Big Frac)) (S0 : list (list (value Big Frac)))
    (N i : nat)
    (st : list (value Big Frac) * list (list (value Big Frac))
          * list (value Big Frac) * list (list (value Big Frac))) : Prop :=
  ∃ pi idx : list nat,
    length pi = i ∧ pi ++ idx ≡ₚ seq 0 N ∧ StronglySorted lt idx ∧
    st = (pick E0 idx, (fun r => pick r idx) <$> S0,
          pick E0 pi ++ replicate (N - i) VUndef,
          (fun r => pick r pi ++ replicate (N - i) VUndef) <$> S0) ∧
    selected E0 pi idx.

(** The rows of [a] are in the store, [n] elements each, none undefined. *)
Definition rows_defined {Big Frac : Type} (n : nat) (a : list loc)
    (h : store Big Frac) : Prop :=
  length a = n ∧
  ∀ l, l ∈ a → ∃ r, h !! l = Some r ∧ length r = n ∧ Forall (fun v => v ≠ VUndef) r.

Section Vocabulary.
Context {Big Frac : Type} `{!Runtime Big Frac} `{!MathJS Big Frac}.
#[local] Abbreviation val := (value Big Frac).
#[local] Abbreviation matrix := (list (list (value Big Frac))).

(** A matrix of [N] rows of [N] elements. *)
Definition square (N : nat) (m : matrix) : Prop :=
  length m = N ∧ Forall (fun r => length r = N) m.

(** [x[p][q]] and [x[q][p]] are the same value, for all [p] and [q]. *)
Definition symmetric (N : nat) (m : matrix) : Prop :=
  ∀ p q, (p < N)%nat → (q < N)%nat → entry m p q = entry m q p.

(** The entry at [(p, q)] once [modify_Hij] has run through the indices below
    [t], pivot [(i, j)]. *)
Definition modified_entry (Hij : matrix) (Aii Ajj : val) (Aki Akj : list val)
    (i j t p q : nat) : val :=
  if decide (p = i ∧ q = i) then Aii
  else if decide (p = j ∧ q = j) then Ajj
  else if decide ((p = i ∧ q = j) ∨ (p = j ∧ q = i)) then VNum 0
  else if decide (p = i ∧ q < t)%nat then arr_get Aki q
  else if decide (q = i ∧ p < t)%nat then arr_get Aki p
  else if decide (p = j ∧ q < t)%nat then arr_get Akj q
  else if decide (q = j ∧ p < t)%nat then arr_get Akj p
  else entry Hij p q.

(** *** Orders *)

(** [lt] is irreflexive and transitive on the elements of [l], and so is its
    complement: a strict weak order.  The comparison of numbers is one on any
    list without NaN. *)
Definition swo_on {M : Type} (lt : M → M → bool) (l : list M) : Prop :=
  (∀ a, a ∈ l → lt a a = false) ∧
  (∀ a b c, a ∈ l → b ∈ l → c ∈ l →
     lt a b = true → lt b c = true → lt a c = true) ∧
  (∀ a b c, a ∈ l → b ∈ l → c ∈ l →
     lt a b = false → lt b c = false → lt a c = false).




(** The order in which the two loops of [getAij] visit the pairs. *)
Definition row_major (a b : nat * nat) : Prop :=
  (fst a < fst b)%nat ∨ (fst a = fst b ∧ snd a < snd b)%nat.



(** [body] applied [n] times, as long as it does not throw. *)
Fixpoint iterate {St : Type} (body : St → result St) (n : nat) (s : St)
    : result St :=
  match n with
  | O => Ok s
  | S n' => body s ≫= iterate body n'
  end.

End Vocabulary.


(** *** What [eigs] is given and what it answers *)

(** Every element of the first [N] rows and columns is a native number. *)
Definition all_numbers {Big Frac : Type} (N : nat) (m : list (list (value Big Frac)))
    : Prop :=
  ∀ r c, (r < N)%nat → (c < N)%nat → ∃ f, entry m r c = VNum f.

(** The type that [checkAndSubmit] goes by: [datatype()], or [getDataType()]
    when that is undefined. *)
Definition element_type (x : Matrix) : string :=
  match m_datatype x with
  | Some t => t
  | None => m_getDataType x
  end.

(** What [eigs] makes of the answer of [checkAndSubmit]:
    [{ values: ans[0], vectors: ans[1] }], the vectors as they are or under
    [matrix]. *)
Definition answer {Big Frac : Type}
    (wrap : list (list (value Big Frac)) → vectors_of (list (list (value Big Frac))))
    (r : option (result (list (value Big Frac) * list (list (value Big Frac)))))
    : option (result (decomposition (Big := Big) (Frac := Frac))) :=
  match r with
  | None => None
  | Some (Throw e) => Some (Throw e)
  | Some (Ok ans) => Some (Ok {| values := fst ans; vectors := wrap (snd ans) |})
  end.

(** ** The file as it was before

    An earlier [eigs.js]: [getTheta], [x1] and [getAij] are as above, letter
    for letter; [Sij1] takes the cosine and the sine from [Rot], and [diag]
    returns [[Ei, Sij]] as the rounds leave them, there being no [sorting]
    yet. *)

Module Earlier.
Section Engine.
Context {Big Frac : Type} `{!Runtime Big Frac}.
#[local] Abbreviation val := (value Big Frac).
#[local] Abbreviation matrix := (list (list (value Big Frac))).

(** [Rot]: [[c, s], [-s, c]]. *)
Definition Rot (theta : float) : list (list float) :=
  let s := Math_sin theta in
  let c := Math_cos theta in
  [[c; s]; [- s; c]].

(** [m[i][j]] on an array of arrays of numbers. *)
Definition at2 (m : list (list float)) (i j : nat) : float :=
  default PrimFloat.nan (m !! i ≫= fun r => r !! j).

Definition Sij1 (Sij : matrix) (theta : float) (i j : nat) : result matrix :=
  let N := length Sij in
  let c := at2 (Rot theta) 0 0 in
  let s := at2 (Rot theta) 0 1 in
  let Ski := build N (fun k =>
    VNum (c * ToNumber (entry Sij k i) - s * ToNumber (entry Sij k j))) in
  let Skj := build N (fun k =>
    VNum (s * ToNumber (entry Sij k i) + c * ToNumber (entry Sij k j))) in
  Sij1_write Sij Ski Skj i j.

Definition diag_body (st : diag_state) : result diag_state :=
  let '(x, Sij, Vab) := st in
  let i := fst (fst Vab) in
  let j := snd (fst Vab) in
  xii ← mat_get x i i;
  xjj ← mat_get x j j;
  xij ← mat_get x i j;
  let psi := getTheta xii xjj xij in
  x ← x1 x psi i j;
  Sij ← Sij1 Sij psi i j;
  Ok (x, Sij, getAij x).

Definition diag (fuel : nat) (x : matrix) (precision : float)
    : option (result (list val * matrix)) :=
  let N := length x in
  let e0 := PrimFloat.abs (precision / length_number N) in
  let Sij := identity N in
  let Vab := getAij x in
  match while_loop fuel (diag_cond e0) diag_body (x, Sij, Vab) with
  | None => None
  | Some (Throw e) => Some (Throw e)
  | Some (Ok (x, Sij, _)) => Some (Ok (diagonal N x, Sij))
  end.

End Engine.
End Earlier.

(** ** The helpers for nested arrays, [utils/array.js] *)

Set Warnings "-register-all".

Module ArrayJS.

(** A value as [Array.isArray] sees it: an array of such values, or anything
    else. *)
Inductive nested (Big Frac : Type) : Type :=
  | Leaf (v : value Big Frac)
  | Arr (l : list (nested Big Frac)).
Arguments Leaf {Big Frac} v.
Arguments Arr {Big Frac} l.

(** The errors of the file: [new DimensionError(actual, expected, relation)],
    an argument that is left out or undefined being [None], and the
    [TypeError]s of the language that the code can meet: for a property of
    [undefined], for a number or a string where [apply] wants the list of the
    arguments, and for an assignment to a character of a string (the file is
    in strict mode). *)
Inductive array_error : Type :=
  | DimensionError (actual expected : option nat) (relation : option string)
  | PropertyOfUndefined
  | ArgumentsOfPrimitive
  | ElementOfString.

Inductive outcome (A : Type) : Type :=
  | Done (a : A)
  | Raise (e : array_error).
Arguments Done {A} a.
Arguments Raise {A} e.

#[export] Instance outcome_ret : MRet outcome := fun A a => Done a.
#[export] Instance outcome_bind : MBind outcome := fun A B f m =>
  match m with
  | Done a => f a
  | Raise e => Raise e
  end.

Section ArrayUtils.
Context {Big Frac : Type}.
#[local] Abbreviation data := (nested Big Frac).

Definition isArray (x : data) : bool :=
  match x with
  | Arr _ => true
  | Leaf _ => false
  end.

(** [x.length]: the length of an array or of a string, [undefined] on a number
    and on a number object, an error on [undefined]. *)
Definition prop_length (x : data) : outcome (option nat) :=
  match x with
  | Arr l => Done (Some (length l))
  | Leaf (VStr s) => Done (Some (String.length s))
  | Leaf VUndef => Raise PropertyOfUndefined
  | Leaf _ => Done None
  end.

(** [x[0]], [x[1]], ... below [x.length]: the elements of an array, the
    characters of a string. *)
Definition elements (x : data) : list data :=
  match x with
  | Arr l => l
  | Leaf (VStr s) =>
      (fun c => Leaf (VStr (String c EmptyString))) <$> list_ascii_of_string s
  | Leaf _ => []
  end.

(** [_size]: [x[0]] of an empty array is [undefined], which is no array. *)
Fixpoint _size (x : data) : list nat :=
  match x with
  | Arr l =>
      length l :: match l with
                  | y :: _ => _size y
                  | [] => []
                  end
  | Leaf _ => []
  end.

(** [_validate].  [len != size[dim]] holds unless both are the same number or
    both are undefined.  In the first loop a child that is no array throws, so
    that the call inside it receives arrays only. *)
Fixpoint _validate (array : data) (size : list nat) (dim : nat) {struct array}
    : outcome unit :=
  len ← prop_length array;
  if decide (len ≠ size !! dim) then Raise (DimensionError len (size !! dim) None)
  else if decide (dim < length size - 1)%nat then
    match array with
    | Arr l =>
        (fix children (l : list data) : outcome unit :=
           match l with
           | [] => Done tt
           | child :: l' =>
               match child with
               | Arr _ => _ ← _validate child size (dim + 1); children l'
               | Leaf _ =>
                   Raise (DimensionError (Some (length size - 1)%nat)
                            (Some (length size)) (Some "<"%string))
               end
           end) l
    | Leaf _ =>
        match elements array with
        | [] => Done tt
        | _ :: _ =>
            Raise (DimensionError (Some (length size - 1)%nat)
                     (Some (length size)) (Some "<"%string))
        end
    end
  else
    if existsb isArray (elements array)
    then Raise (DimensionError (Some (length size + 1)%nat)
                  (Some (length size)) (Some ">"%string))
    else Done tt.

(** The first loop of [_validate], on the elements of an array. *)
Definition validate_children (size : list nat) (dim : nat)
    : list data → outcome unit :=
  fix children (l : list data) : outcome unit :=
    match l with
    | [] => Done tt
    | child :: l' =>
        match child with
        | Arr _ => _ ← _validate child size (dim + 1); children l'
        | Leaf _ =>
            Raise (DimensionError (Some (length size - 1)%nat)
                     (Some (length size)) (Some "<"%string))
        end
    end.

(** [exports.validate]. *)
Definition validate (array : data) (size : list nat) : outcome unit :=
  match size with
  | [] =>
      match array with
      | Arr l => Raise (DimensionError (Some (length l)) (Some 0%nat) None)
      | Leaf _ => Done tt
      end
  | _ :: _ => _validate array size 0
  end.

(** [exports.size]. *)
Definition size (x : data) : outcome (list nat) :=
  let s := _size x in
  _ ← validate x s;
  Done s.

(** An argument of [concat] that is an array stands for its elements. *)
Definition spread (e : data) : list data :=
  match e with
  | Arr k => k
  | Leaf _ => [e]
  end.

(** [next.concat.apply(next, arg)]: the elements of [arg] are the arguments
    of [concat].  [undefined] stands for no arguments, and so does an object
    without a [length]; a number or a string is refused with a [TypeError]. *)
Definition concat_apply (next : list data) (arg : data) : outcome (list data) :=
  match arg with
  | Arr m => Done (next ++ (m ≫= spread))
  | Leaf (VNum _) | Leaf (VStr _) => Raise ArgumentsOfPrimitive
  | Leaf _ => Done next
  end.

(** The [for] loop of [flatten]. *)
Fixpoint flatten_pass (next : list data) (l : list data) : outcome (list data) :=
  match l with
  | [] => Done next
  | e :: l' => next' ← concat_apply next e; flatten_pass next' l'
  end.

(** [exports.flatten]: the [while] loop runs as long as [flat[0]] is an
    array; [None] when the fuel runs out. *)
Fixpoint flatten (fuel : nat) (flat : data) : option (outcome data) :=
  match fuel with
  | O => None
  | S fuel' =>
      match flat with
      | Leaf VUndef => Some (Raise PropertyOfUndefined)
      | Leaf _ => Some (Done flat)
      | Arr ((Arr _ :: _) as l) =>
          match flatten_pass [] l with
          | Done next => flatten fuel' (Arr next)
          | Raise err => Some (Raise err)
          end
      | Arr _ => Some (Done flat)
      end
  end.

(** *** [squeeze] and [unsqueeze] *)

(** [while (isArray(array)) array = array[0]]. *)
Fixpoint innermost (array : data) : data :=
  match array with
  | Arr l =>
      match l with
      | y :: _ => innermost y
      | [] => Leaf VUndef
      end
  | Leaf _ => array
  end.

(** [_squeeze].  The elements of an array are replaced one after the other;
    the result is given here as a new array.  On a string that is not empty
    the assignment to an element throws, the file being in strict mode. *)
Fixpoint _squeeze (array : data) (dims dim : nat) {struct array} : outcome data :=
  if decide (dim < dims)%nat then
    match array with
    | Arr l =>
        l' ← (fix each (l : list data) : outcome (list data) :=
                match l with
                | [] => Done []
                | c :: l0 =>
                    c' ← _squeeze c dims (dim + 1);
                    l0' ← each l0;
                    Done (c' :: l0')
                end) l;
        Done (Arr l')
    | Leaf (VStr (String _ _)) => Raise ElementOfString
    | Leaf VUndef => Raise PropertyOfUndefined
    | Leaf _ => Done array
    end
  else Done (innermost array).

(** The loop of [_squeeze] over the elements. *)
Definition squeeze_each (dims dim : nat) : list data → outcome (list data) :=
  fix each (l : list data) : outcome (list data) :=
    match l with
    | [] => Done []
    | c :: l0 =>
        c' ← _squeeze c dims (dim + 1);
        l0' ← each l0;
        Done (c' :: l0')
    end.

(** The first loop of [squeeze], on [array] and [s]: [s.shift()] takes the
    first element away, if there is one. *)
Fixpoint squeeze_outer (array : data) (s : list nat) : data * list nat :=
  match array with
  | Arr [y] => squeeze_outer y (tail s)
  | _ => (array, s)
  end.

(** [var dims = s.length; while (s[dims - 1] === 1) dims--], from [dims]
    on. *)
Fixpoint squeeze_dims (s : list nat) (dims : nat) : nat :=
  match dims with
  | O => O
  | S d => if decide (s !! d = Some 1%nat) then squeeze_dims s d else dims
  end.

(** [exports.squeeze]: what it returns, and what it leaves in [s]. *)
Definition squeeze (array : data) (size_given : option (list nat))
    : outcome (data * list nat) :=
  s ← match size_given with
      | Some s => Done s
      | None => size array
      end;
  let '(array, s) := squeeze_outer array s in
  let dims := squeeze_dims s (length s) in
  if decide (dims < length s)%nat then
    array ← _squeeze array dims 0;
    Done (array, take dims s)
  else Done (array, s).

(** [for (var d = dim; d < dims; d++) array = [array]], [k] times. *)
Fixpoint wrapped (k : nat) (array : data) : data :=
  match k with
  | O => array
  | S k' => wrapped k' (Arr [array])
  end.

(** [_unsqueeze]; the elements of an array are replaced one after the other,
    and the result is given here as a new array. *)
Fixpoint _unsqueeze (array : data) (dims dim : nat) {struct array} : data :=
  match array with
  | Arr l => Arr ((fun c => _unsqueeze c dims (dim + 1)) <$> l)
  | Leaf _ => wrapped (dims - dim) array
  end.

(** The first loop of [unsqueeze], on [array] and [s]: [rest] is what
    [desired] holds from [dim] on, [desired[dim]] being undefined when it is
    empty, and [total] is [desired.length]. *)
Fixpoint unsqueeze_outer (rest : list nat) (total : nat) (array : data)
    (s : list nat) (dim : nat) : data * list nat :=
  match rest with
  | [] => (array, s)
  | d :: rest' =>
      if decide (d = 1%nat ∧ length s < total)%nat then
        if decide (s !! dim ≠ Some 1%nat)
        then unsqueeze_outer rest' total (Arr [array]) (1%nat :: s) (dim + 1)
        else unsqueeze_outer rest' total array s (dim + 1)
      else (array, s)
  end.

(** [exports.unsqueeze]: what it returns, and what it leaves in [s]. *)
Definition unsqueeze (array : data) (desired : list nat)
    (size_given : option (list nat)) : outcome (data * list nat) :=
  s ← match size_given with
      | Some s => Done s
      | None => size array
      end;
  let '(array, s) := unsqueeze_outer desired (length desired) array s 0 in
  let array := _unsqueeze array (length desired) 0 in
  Done (array, s ++ replicate (length desired - length s) 1%nat).

(** *** The vocabulary for nested arrays *)

(** [x] has the shape [size]: arrays of the lengths of [size] one inside the
    other, and at the bottom values that are no arrays. *)
Fixpoint shaped (size : list nat) (x : data) : Prop :=
  match size with
  | [] => isArray x = false
  | n :: s => ∃ l, x = Arr l ∧ length l = n ∧ Forall (shaped s) l
  end.

(** The values of [x] that are no arrays, from left to right. *)
Fixpoint leaves (x : data) : list data :=
  match x with
  | Leaf _ => [x]
  | Arr l => l ≫= leaves
  end.

(** Every value of [x] that is no array lies [d] arrays deep. *)
Fixpoint level (d : nat) (x : data) : Prop :=
  match d with
  | O => isArray x = false
  | S d' => ∃ l, x = Arr l ∧ Forall (level d') l
  end.

End ArrayUtils.

End ArrayJS.
(** * Properties *)

(** ** The order of the native numbers

    From the specification of the primitive floats: away from NaN, [<] is
    irreflexive and transitive, and so is its complement. *)

Section FloatOrder.

Lemma Prim2SF_inj x y : Prim2SF x = Prim2SF y → x = y.
Proof.
  intros E. rewrite <- (SF2Prim_Prim2SF x), <- (SF2Prim_Prim2SF y). by rewrite E.
Qed.

Lemma SFcompare_refl s : s ≠ S754_nan → SFcompare s s = Some Eq.
Proof.
  destruct s as [[]|[]| |[] m e]; simpl; try congruence; intros _;
    rewrite Z.compare_refl, ?Pos.compare_cont_refl; reflexivity.
Qed.

Lemma is_nan_spec x : PrimFloat.is_nan x = false ↔ Prim2SF x ≠ S754_nan.
Proof.
  unfold PrimFloat.is_nan. rewrite FloatAxioms.eqb_spec. unfold SFeqb. split.
  - intros H E. rewrite E in H. discriminate.
  - intros H. by rewrite SFcompare_refl.
Qed.

Lemma abs_idem x : PrimFloat.abs (PrimFloat.abs x) = PrimFloat.abs x.
Proof.
  apply Prim2SF_inj. rewrite !abs_spec. by destruct (Prim2SF x).
Qed.


Lemma SFltb_irrefl s : SFltb s s = false.
Proof.
  unfold SFltb. destruct s as [[]|[]| |[] m e]; simpl; try done;
    by rewrite Z.compare_refl, Pos.compare_cont_refl.
Qed.

Lemma SFltb_trans x y z :
  SFltb x y = true → SFltb y z = true → SFltb x z = true.
Proof.
  unfold SFltb, SFcompare.
  destruct x as [[]|[]| |[] mx ex], y as [[]|[]| |[] my ey], z as [[]|[]| |[] mz ez];
    simpl; try congruence;
    rewrite <- ?Pos.compare_cont_spec;
    fold (Pos.compare mx my) (Pos.compare my mz) (Pos.compare mx mz).
  all: destruct (Z.compare_spec ex ey), (Z.compare_spec ey ez), (Z.compare_spec ex ez);
    try lia; try congruence;
    destruct (Pos.compare_spec mx my), (Pos.compare_spec my mz), (Pos.compare_spec mx mz);
    simpl; try lia; try congruence.
Qed.

Lemma SFltb_negtrans x y z :
  x ≠ S754_nan → y ≠ S754_nan → z ≠ S754_nan →
  SFltb x y = false → SFltb y z = false → SFltb x z = false.
Proof.
  unfold SFltb, SFcompare.
  destruct x as [[]|[]| |[] mx ex], y as [[]|[]| |[] my ey], z as [[]|[]| |[] mz ez];
    simpl; try congruence; intros _ _ _;
    rewrite <- ?Pos.compare_cont_spec;
    fold (Pos.compare mx my) (Pos.compare my mz) (Pos.compare mx mz).
  all: destruct (Z.compare_spec ex ey), (Z.compare_spec ey ez), (Z.compare_spec ex ez);
    try lia; try congruence;
    destruct (Pos.compare_spec mx my), (Pos.compare_spec my mz), (Pos.compare_spec mx mz);
    simpl; try lia; try congruence.
Qed.

Lemma ltb_irrefl x : (x <? x) = false.
Proof. rewrite FloatAxioms.ltb_spec. apply SFltb_irrefl. Qed.

Lemma ltb_trans x y z : (x <? y) = true → (y <? z) = true → (x <? z) = true.
Proof. rewrite !FloatAxioms.ltb_spec. apply SFltb_trans. Qed.

Lemma ltb_negtrans x y z :
  PrimFloat.is_nan x = false → PrimFloat.is_nan y = false → PrimFloat.is_nan z = false →
  (x <? y) = false → (y <? z) = false → (x <? z) = false.
Proof. rewrite !is_nan_spec, !FloatAxioms.ltb_spec. apply SFltb_negtrans. Qed.




End FloatOrder.

(** ** Loops *)

Lemma bind_Ok {A B : Type} (a : A) (f : A → result B) : Ok a ≫= f = f a.
Proof. done. Qed.


Section Loops.
Context {St : Type}.

Lemma for_range_S n (body : nat → St → result St) s :
  for_range (S n) body s = for_range n body s ≫= body n.
Proof. unfold for_range. by rewrite seq_S, foldl_app. Qed.

Lemma for_range_0 (body : nat → St → result St) s : for_range 0 body s = Ok s.
Proof. done. Qed.

Lemma for_from_S lo n (body : nat → St → result St) s :
  for_from lo (lo + S n) body s = for_from lo (lo + n) body s ≫= body (lo + n)%nat.
Proof.
  unfold for_from.
  replace (lo + S n - lo)%nat with (S n) by lia.
  replace (lo + n - lo)%nat with n by lia.
  by rewrite seq_S, foldl_app.
Qed.

Lemma for_from_ge lo hi (body : nat → St → result St) s :
  (hi ≤ lo)%nat → for_from lo hi body s = Ok s.
Proof. intros. unfold for_from. by replace (hi - lo)%nat with 0%nat by lia. Qed.

(** An invariant of a loop whose body does not throw under it. *)
Lemma for_range_invariant (P : nat → St → Prop) n
    (body : nat → St → result St) s :
  P 0%nat s →
  (∀ k s, (k < n)%nat → P k s → ∃ s', body k s = Ok s' ∧ P (S k) s') →
  ∃ s', for_range n body s = Ok s' ∧ P n s'.
Proof.
  intros H0 Hstep.
  assert (∀ t, (t ≤ n)%nat → ∃ s', for_range t body s = Ok s' ∧ P t s') as H.
  { induction t as [|t IH]; intros Ht.
    - exists s. by rewrite for_range_0.
    - destruct IH as (s1 & E1 & P1); [lia|].
      destruct (Hstep t s1) as (s2 & E2 & P2); [lia|done|].
      exists s2. by rewrite for_range_S, E1. }
  by apply H.
Qed.

Lemma for_from_invariant (P : nat → St → Prop) lo hi
    (body : nat → St → result St) s :
  (lo ≤ hi)%nat →
  P lo s →
  (∀ k s, (lo ≤ k < hi)%nat → P k s → ∃ s', body k s = Ok s' ∧ P (S k) s') →
  ∃ s', for_from lo hi body s = Ok s' ∧ P hi s'.
Proof.
  intros Hle H0 Hstep.
  assert (∀ t, (lo + t ≤ hi)%nat →
            ∃ s', for_from lo (lo + t) body s = Ok s' ∧ P (lo + t)%nat s') as H.
  { induction t as [|t IH]; intros Ht.
    - exists s. rewrite Nat.add_0_r. split; [|done]. apply for_from_ge. lia.
    - destruct IH as (s1 & E1 & P1); [lia|].
      destruct (Hstep (lo + t)%nat s1) as (s2 & E2 & P2); [lia|done|].
      exists s2. rewrite for_from_S, E1. split; [done|].
      by replace (lo + S t)%nat with (S (lo + t)) by lia. }
  destruct (H (hi - lo)%nat) as (s' & E & Hp); [lia|].
  replace (lo + (hi - lo))%nat with hi in * by lia. eauto.
Qed.

(** An invariant of a pure loop over [lo .. lo + n - 1]. *)
Lemma foldl_seq_invariant {A : Type} (P : nat → A → Prop) (f : A → nat → A)
    lo n a :
  P lo a →
  (∀ k a, (lo ≤ k < lo + n)%nat → P k a → P (S k) (f a k)) →
  P (lo + n)%nat (foldl f a (seq lo n)).
Proof.
  revert lo a. induction n as [|n IH]; intros lo a H0 Hstep; simpl.
  - by rewrite Nat.add_0_r.
  - replace (lo + S n)%nat with (S lo + n)%nat by lia.
    apply IH; [apply Hstep; [lia|done]|].
    intros k a' Hk. apply Hstep. lia.
Qed.

End Loops.

(** ** Arrays *)

Section Arrays.
Context {Big Frac : Type}.
#[local] Abbreviation val := (value Big Frac).
#[local] Abbreviation matrix := (list (list (value Big Frac))).

Lemma arr_get_lookup (a : list val) k v : a !! k = Some v → arr_get a k = v.
Proof. unfold arr_get. by intros ->. Qed.

Lemma arr_get_ge (a : list val) k : (length a ≤ k)%nat → arr_get a k = VUndef.
Proof. intros. unfold arr_get. by rewrite lookup_ge_None_2. Qed.

Lemma arr_set_length (a : list val) k v :
  (k < length a)%nat → length (arr_set a k v) = length a.
Proof. intros. unfold arr_set. rewrite decide_True by done. apply length_insert. Qed.

Lemma arr_get_set (a : list val) k v q :
  arr_get (arr_set a k v) q = if decide (q = k) then v else arr_get a q.
Proof.
  unfold arr_set, arr_get. destruct (decide (k < length a)%nat) as [Hk|Hk].
  - destruct (decide (q = k)) as [->|Hq].
    + by rewrite list_lookup_insert_eq.
    + by rewrite list_lookup_insert_ne.
  - destruct (decide (q < length a)%nat) as [Hq|Hq].
    + rewrite lookup_app_l by done. rewrite decide_False by lia. done.
    + rewrite lookup_app_r by lia.
      rewrite (lookup_ge_None_2 a q) by lia.
      destruct (decide (q = k)) as [->|Hne].
      * rewrite lookup_app_r; rewrite length_replicate; [|lia].
        by rewrite Nat.sub_diag.
      * destruct (decide (q < k)%nat).
        -- rewrite lookup_app_l by (rewrite length_replicate; lia).
           rewrite lookup_replicate_2 by lia. done.
        -- rewrite lookup_ge_None_2; [done|].
           rewrite length_app, length_replicate. simpl. lia.
Qed.

Lemma arr_get_build (n : nat) (f : nat → val) k :
  (k < n)%nat → arr_get (build n f) k = f k.
Proof.
  intros. unfold arr_get, build. rewrite list_lookup_fmap, lookup_seq_lt by done.
  done.
Qed.

Lemma square_row N (m : matrix) i :
  square N m → (i < N)%nat → ∃ r, m !! i = Some r ∧ length r = N.
Proof.
  intros [Hl Hr] Hi. destruct (lookup_lt_is_Some_2 m i) as [r E]; [lia|].
  exists r. split; [done|]. by eapply (Forall_lookup_1 _ _ _ _ Hr).
Qed.

Lemma mat_get_entry N (m : matrix) i j :
  square N m → (i < N)%nat → mat_get m i j = Ok (entry m i j).
Proof.
  intros Hs Hi. destruct (square_row N m i) as (r & E & _); [done..|].
  unfold mat_get, entry. by rewrite E.
Qed.

Lemma mat_set_spec N (m : matrix) i j v :
  square N m → (i < N)%nat → (j < N)%nat →
  ∃ m', mat_set m i j v = Ok m' ∧ square N m' ∧
        ∀ p q, entry m' p q = if decide (p = i ∧ q = j) then v else entry m p q.
Proof.
  intros Hs Hi Hj. destruct (square_row N m i) as (r & E & Hr); [done..|].
  exists (<[i := arr_set r j v]> m). unfold mat_set. rewrite E.
  split; [done|]. destruct Hs as [Hl Hrows]. split.
  - split; [by rewrite length_insert|].
    apply Forall_insert; [done|]. rewrite arr_set_length; lia.
  - intros p q. unfold entry. destruct (decide (p = i)) as [->|Hp].
    + rewrite list_lookup_insert_eq by lia. rewrite E, arr_get_set.
      destruct (decide (q = j)); [by rewrite decide_True|].
      by rewrite decide_False by (intros [_ ?]; done).
    + rewrite list_lookup_insert_ne by done.
      by rewrite decide_False by (intros [? _]; done).
Qed.

End Arrays.

(** ** One rotation *)

Section Rotation.
Context {Big Frac : Type} `{!Runtime Big Frac} `{!MathJS Big Frac}.
#[local] Abbreviation val := (value Big Frac).
#[local] Abbreviation matrix := (list (list (value Big Frac))).

(** The first loop of [x1] and of [x1Big] fills [Aki] and [Akj] from rows [i]
    and [j]. *)
Lemma fill_Aki_Akj N (Hij : matrix) i j (f g : val → val → val) :
  square N Hij → (i < N)%nat → (j < N)%nat →
  for_range N (fun k '(Aki, Akj) =>
      hik ← mat_get Hij i k; hjk ← mat_get Hij j k;
      Ok (arr_set Aki k (f hik hjk), arr_set Akj k (g hik hjk)))
    (replicate N (VNum 0), replicate N (VNum 0))
  = Ok (build N (fun k => f (entry Hij i k) (entry Hij j k)),
        build N (fun k => g (entry Hij i k) (entry Hij j k))).
Proof.
  intros Hs Hi Hj.
  set (F := fun k => f (entry Hij i k) (entry Hij j k)).
  set (G := fun k => g (entry Hij i k) (entry Hij j k)).
  destruct (for_range_invariant
    (fun t (st : list val * list val) =>
       st = (build t F ++ replicate (N - t) (VNum 0),
             build t G ++ replicate (N - t) (VNum 0))) N
    (fun k '(Aki, Akj) =>
      hik ← mat_get Hij i k; hjk ← mat_get Hij j k;
      Ok (arr_set Aki k (f hik hjk), arr_set Akj k (g hik hjk)))
    (replicate N (VNum 0), replicate N (VNum 0))) as (st & E & Hst).
  - by rewrite Nat.sub_0_r.
  - intros k st Hk ->. rewrite !(mat_get_entry N), !bind_Ok by done.
    eexists; split; [reflexivity|].
    assert (∀ (h : nat → val) v,
      arr_set (build k h ++ replicate (N - k) (VNum 0)) k v
      = (build k h ++ [v]) ++ replicate (N - S k) (VNum 0)) as Hset.
    { intros h v. unfold arr_set, build.
      rewrite decide_True
        by (rewrite length_app, length_fmap, length_seq, length_replicate; lia).
      replace (N - k)%nat with (S (N - S k)) by lia. simpl.
      rewrite <- (Nat.add_0_r k) at 2.
      rewrite insert_app_r_alt; rewrite length_fmap, length_seq; [|lia].
      rewrite Nat.add_0_r, Nat.sub_diag. simpl. by rewrite <- app_assoc. }
    rewrite !Hset. unfold build. by rewrite !seq_S, !fmap_app.
  - rewrite E, Hst, Nat.sub_diag. simpl. by rewrite !app_nil_r.
Qed.

(** Settles the tests of a goal once the indices have been compared. *)
Ltac settle_tests :=
  repeat first [ rewrite decide_True by (intuition lia)
               | rewrite decide_False by (intuition lia) ];
  try reflexivity.

Ltac compare_indices p q i j k :=
  destruct (decide (p = i)); destruct (decide (p = j));
  destruct (decide (q = i)); destruct (decide (q = j));
  destruct (decide (p = k)); destruct (decide (q = k));
  subst; try lia; settle_tests;
  repeat case_decide; first [ reflexivity | exfalso; intuition lia ].

(** What [modify_Hij] leaves in the matrix. *)
Lemma modify_Hij_spec N (Hij : matrix) (Aii Ajj : val) (Aki Akj : list val) i j :
  square N Hij → (i < N)%nat → (j < N)%nat → i ≠ j →
  ∃ H', modify_Hij Hij Aii Ajj Aki Akj i j = Ok H' ∧ square N H' ∧
        ∀ p q, entry H' p q = modified_entry Hij Aii Ajj Aki Akj i j N p q.
Proof.
  intros Hs Hi Hj Hij_ne. unfold modify_Hij.
  destruct (mat_set_spec N Hij i i Aii) as (H1 & -> & Hs1 & E1); [done..|].
  destruct (mat_set_spec N H1 j j Ajj) as (H2 & E & Hs2 & E2); [done..|].
  simpl. rewrite E. clear E.
  destruct (mat_set_spec N H2 i j (VNum 0)) as (H3 & E & Hs3 & E3); [done..|].
  simpl. rewrite E. clear E.
  destruct (mat_set_spec N H3 j i (VNum 0)) as (H4 & E & Hs4 & E4); [done..|].
  simpl. rewrite E. clear E.
  replace (length Hij) with N by (by destruct Hs).
  apply (for_range_invariant
    (fun t (H' : matrix) => square N H' ∧
       ∀ p q, entry H' p q = modified_entry Hij Aii Ajj Aki Akj i j t p q)).
  - split; [done|]. intros p q. rewrite E4, E3, E2, E1. unfold modified_entry.
    compare_indices p q i j 0%nat.
  - intros k Hk Hlt [Hsk Ek]. unfold neither.
    destruct (Nat.eqb_spec k i) as [->|Hki]; simpl.
    { eexists; split; [reflexivity|]. split; [done|].
      intros p q. rewrite Ek. unfold modified_entry.
      compare_indices p q i j 0%nat. }
    destruct (Nat.eqb_spec k j) as [->|Hkj]; simpl.
    { eexists; split; [reflexivity|]. split; [done|].
      intros p q. rewrite Ek. unfold modified_entry.
      compare_indices p q i j 0%nat. }
    destruct (mat_set_spec N Hk i k (arr_get Aki k)) as (K1 & -> & Hk1 & F1); [done..|].
    destruct (mat_set_spec N K1 k i (arr_get Aki k)) as (K2 & E & Hk2 & F2); [done..|].
    simpl. rewrite E. clear E.
    destruct (mat_set_spec N K2 j k (arr_get Akj k)) as (K3 & E & Hk3 & F3); [done..|].
    simpl. rewrite E. clear E.
    destruct (mat_set_spec N K3 k j (arr_get Akj k)) as (K4 & E & Hk4 & F4); [done..|].
    simpl. rewrite E. clear E.
    eexists; split; [reflexivity|]. split; [done|].
    intros p q. rewrite F4, F3, F2, F1, Ek. unfold modified_entry.
    compare_indices p q i j k.
Qed.

(** What [x1] leaves in the matrix. *)
Lemma x1_spec N (Hij : matrix) theta i j :
  square N Hij → (i < N)%nat → (j < N)%nat → i ≠ j →
  ∃ (Aii Ajj : val) (Aki Akj : list val) H',
    x1 Hij theta i j = Ok H' ∧ square N H' ∧
    ∀ p q, entry H' p q = modified_entry Hij Aii Ajj Aki Akj i j N p q.
Proof.
  intros Hs Hi Hj Hne. unfold x1.
  rewrite !(mat_get_entry N), !bind_Ok by done.
  replace (length Hij) with N by (by destruct Hs).
  rewrite (fill_Aki_Akj N Hij i j
    (fun hik hjk => VNum (Math_cos theta * ToNumber hik - Math_sin theta * ToNumber hjk))
    (fun hik hjk => VNum (Math_sin theta * ToNumber hik + Math_cos theta * ToNumber hjk)))
    by done.
  rewrite bind_Ok.
  edestruct modify_Hij_spec as (H' & E & Hs' & He); [exact Hs|exact Hi|exact Hj|exact Hne|].
  do 4 eexists. exists H'. split; [exact E|]. split; [exact Hs'|exact He].
Qed.

(** What [x1Big] leaves in the matrix. *)
Lemma x1Big_spec N (Hij : matrix) theta i j :
  square N Hij → (i < N)%nat → (j < N)%nat → i ≠ j →
  ∃ (Aii Ajj : val) (Aki Akj : list val) H',
    x1Big Hij theta i j = Ok H' ∧ square N H' ∧
    ∀ p q, entry H' p q = modified_entry Hij Aii Ajj Aki Akj i j N p q.
Proof.
  intros Hs Hi Hj Hne. unfold x1Big.
  rewrite !(mat_get_entry N), !bind_Ok by done.
  replace (length Hij) with N by (by destruct Hs).
  rewrite (fill_Aki_Akj N Hij i j
    (fun hik hjk => subtract (multiplyScalar (bignumber (cos theta)) hik)
                             (multiplyScalar (bignumber (sin theta)) hjk))
    (fun hik hjk => addScalar (multiplyScalar (bignumber (sin theta)) hik)
                              (multiplyScalar (bignumber (cos theta)) hjk)))
    by done.
  rewrite bind_Ok.
  edestruct modify_Hij_spec as (H' & E & Hs' & He); [exact Hs|exact Hi|exact Hj|exact Hne|].
  do 4 eexists. exists H'. split; [exact E|]. split; [exact Hs'|exact He].
Qed.

(** The entries that [modify_Hij] writes mirror each other. *)
Lemma modified_symmetric N (Hij : matrix) Aii Ajj Aki Akj i j :
  symmetric N Hij → (i < N)%nat → (j < N)%nat → i ≠ j →
  ∀ p q, (p < N)%nat → (q < N)%nat →
    modified_entry Hij Aii Ajj Aki Akj i j N p q
    = modified_entry Hij Aii Ajj Aki Akj i j N q p.
Proof.
  intros Hsym Hi Hj Hne p q Hp Hq. unfold modified_entry.
  destruct (decide (p = i)); destruct (decide (p = j));
    destruct (decide (q = i)); destruct (decide (q = j));
    subst; try lia; settle_tests.
  by apply Hsym.
Qed.

Lemma modified_pivot N (Hij : matrix) Aii Ajj Aki Akj i j :
  i ≠ j →
  modified_entry Hij Aii Ajj Aki Akj i j N i j = VNum 0 ∧
  modified_entry Hij Aii Ajj Aki Akj i j N j i = VNum 0.
Proof. intros Hne. unfold modified_entry. split; settle_tests. Qed.

End Rotation.

(** ** Keeping the first greatest element *)

Section Scan.
Context {K M : Type} (lt : M → M → bool) (norm : M → M) (mag : K → M).
Context (Dom : M → Prop) (k0 : K) (m0 : M) (before : K → K → Prop).
Hypothesis lt_irrefl : ∀ a, Dom a → lt a a = false.
Hypothesis lt_trans : ∀ a b c, Dom a → Dom b → Dom c →
  lt a b = true → lt b c = true → lt a c = true.
Hypothesis lt_negtrans : ∀ a b c, Dom a → Dom b → Dom c →
  lt a b = false → lt b c = false → lt a c = false.
Hypothesis norm_id : ∀ a, Dom a → norm a = a.




End Scan.

(** The two nested loops of [getAij] and [getAijBig], over the pairs above the
    diagonal. *)
Section ScanPairs.
Context {M : Type} (lt : M → M → bool) (norm : M → M) (mag : nat * nat → M).
Context (Dom : M → Prop) (k0 : nat * nat) (m0 : M) (N : nat).
Hypothesis lt_irrefl : ∀ a, Dom a → lt a a = false.
Hypothesis lt_trans : ∀ a b c, Dom a → Dom b → Dom c →
  lt a b = true → lt b c = true → lt a c = true.
Hypothesis lt_negtrans : ∀ a b c, Dom a → Dom b → Dom c →
  lt a b = false → lt b c = false → lt a c = false.
Hypothesis norm_id : ∀ a, Dom a → norm a = a.
Hypothesis Dom_m0 : Dom m0.
Hypothesis Dom_mag : ∀ p q, (p < q < N)%nat → Dom (mag (p, q)).


End ScanPairs.



(** ** The pivot *)

Section Pivot.
Context {Big Frac : Type} `{!Runtime Big Frac} `{!MathJS Big Frac}.
#[local] Abbreviation val := (value Big Frac).
#[local] Abbreviation matrix := (list (list (value Big Frac))).






End Pivot.

(** ** Sorting *)

Section Sorting.
Context {Big Frac : Type} `{!Runtime Big Frac}.
#[local] Abbreviation val := (value Big Frac).
#[local] Abbreviation matrix := (list (list (value Big Frac))).

Lemma fmap_delete {A B : Type} (f : A → B) (l : list A) i :
  f <$> delete i l = delete i (f <$> l).
Proof. by rewrite !delete_take_drop, fmap_app, fmap_take, fmap_drop. Qed.

Lemma arr_get_pick (a : list val) idx k i :
  idx !! k = Some i → arr_get (pick a idx) k = arr_get a i.
Proof. intros E. unfold pick, arr_get at 1. by rewrite list_lookup_fmap, E. Qed.

Lemma pick_seq (a : list val) : pick a (seq 0 (length a)) = a.
Proof.
  apply list_eq. intros k. unfold pick. rewrite list_lookup_fmap.
  destruct (decide (k < length a)%nat) as [Hk|Hk].
  - rewrite lookup_seq_lt by done. simpl.
    destruct (lookup_lt_is_Some_2 a k Hk) as [v E]. by rewrite (arr_get_lookup _ _ _ E).
  - rewrite lookup_seq_ge, lookup_ge_None_2 by lia. done.
Qed.



(** Writing at the first free place of an array filled up to there. *)
Lemma arr_set_next (l : list val) n i v :
  i = length l →
  arr_set (l ++ replicate (S n) VUndef) i v
  = (l ++ [v]) ++ replicate n VUndef.
Proof.
  intros ->. unfold arr_set. rewrite decide_True by (rewrite length_app, length_replicate; lia).
  simpl. rewrite <- (Nat.add_0_r (length l)).
  rewrite insert_app_r. simpl. by rewrite <- app_assoc.
Qed.

(** The loop over the rows in one round of [sorting]. *)
Lemma sorting_rows (S0 : matrix) (f g : list val → list val) m i :
  for_range (length S0) (fun k '(Sv, Sf) =>
      v ← mat_get Sv k m;
      Sf ← mat_set Sf k i v;
      Sv ← mat_splice Sv k m;
      Ok (Sv, Sf)) (f <$> S0, g <$> S0)
  = Ok ((fun r => delete m (f r)) <$> S0,
        (fun r => arr_set (g r) i (arr_get (f r) m)) <$> S0).
Proof.
  set (f' := fun r => delete m (f r)).
  set (g' := fun r => arr_set (g r) i (arr_get (f r) m)).
  destruct (for_range_invariant
    (fun k (st : matrix * matrix) =>
       st = ((f' <$> take k S0) ++ (f <$> drop k S0),
             (g' <$> take k S0) ++ (g <$> drop k S0))) (length S0)
    (fun k '(Sv, Sf) =>
      v ← mat_get Sv k m;
      Sf ← mat_set Sf k i v;
      Sv ← mat_splice Sv k m;
      Ok (Sv, Sf)) (f <$> S0, g <$> S0)) as (st & E & Hst).
  - by rewrite take_0, drop_0.
  - intros k st Hk ->.
    destruct (lookup_lt_is_Some_2 S0 k Hk) as [r Er].
    assert (length (take k S0) = k) as Hlen by (rewrite length_take; lia).
    assert (∀ (h h' : list val → list val),
      ((h' <$> take k S0) ++ (h <$> drop k S0)) !! k = Some (h r)) as Hlook.
    { intros h h'. rewrite lookup_app_r; rewrite length_fmap, Hlen; [|lia].
      rewrite Nat.sub_diag, list_lookup_fmap, lookup_drop, Nat.add_0_r, Er. done. }
    assert (∀ (h h' : list val → list val),
      <[k := h' r]> ((h' <$> take k S0) ++ (h <$> drop k S0))
      = (h' <$> take (S k) S0) ++ (h <$> drop (S k) S0)) as Hins.
    { intros h h'. rewrite (take_S_r _ _ _ Er), (drop_S _ _ _ Er), !fmap_app, fmap_cons.
      rewrite <- (Nat.add_0_r k) at 1.
      replace (k + 0)%nat with (length (h' <$> take k S0) + 0)%nat
        by (by rewrite length_fmap, Hlen).
      rewrite insert_app_r. simpl. by rewrite <- app_assoc. }
    unfold mat_get, mat_set, mat_splice. rewrite !Hlook, !bind_Ok.
    eexists. split; [reflexivity|]. f_equal.
    + apply (Hins f f').
    + apply (Hins g g').
  - rewrite E, Hst, take_ge, drop_ge by done. simpl. by rewrite !app_nil_r.
Qed.



(** Numbers other than NaN are in order under [<], and [<=] is then the
    complement of [>]. *)
Lemma numbers_in_order (E : list val) : Forall is_number E → swo_on js_lt E.
Proof.
  intros HE. split; [|split].
  - intros a Ha. destruct (proj1 (Forall_forall _ _) HE a Ha) as (x & -> & _).
    unfold js_lt. simpl. apply ltb_irrefl.
  - intros a b c Ha Hb Hc.
    destruct (proj1 (Forall_forall _ _) HE a Ha) as (x & -> & _).
    destruct (proj1 (Forall_forall _ _) HE b Hb) as (y & -> & _).
    destruct (proj1 (Forall_forall _ _) HE c Hc) as (z & -> & _).
    unfold js_lt. simpl. apply ltb_trans.
  - intros a b c Ha Hb Hc.
    destruct (proj1 (Forall_forall _ _) HE a Ha) as (x & -> & Hx).
    destruct (proj1 (Forall_forall _ _) HE b Hb) as (y & -> & Hy).
    destruct (proj1 (Forall_forall _ _) HE c Hc) as (z & -> & Hz).
    unfold js_lt. simpl. by apply ltb_negtrans.
Qed.


Lemma StronglySorted_seq lo n : StronglySorted lt (seq lo n).
Proof.
  revert lo. induction n as [|n IH]; intros lo; simpl; [constructor|].
  apply StronglySorted_cons. split; [|apply IH].
  apply Forall_forall. intros x Hx%elem_of_seq. lia.
Qed.

Lemma sorting_inv_init (E : list val) (Sv : matrix) :
  square (length E) Sv →
  sorting_inv E Sv (length E) 0
    (E, Sv, replicate (length E) VUndef,
     replicate (length E) (replicate (length E) VUndef)).
Proof.
  intros [Hlen Hrows]. exists [], (seq 0 (length E)).
  split; [done|]. split; [done|]. split; [apply StronglySorted_seq|].
  split.
  - assert (Sv = (fun r => pick r (seq 0 (length E))) <$> Sv) as HSv.
    { rewrite <- (list_fmap_id Sv) at 1. apply list_fmap_ext.
      intros k r Hr. simpl.
      rewrite <- (Forall_lookup_1 _ _ _ _ Hrows Hr). by rewrite pick_seq. }
    assert (replicate (length E) (replicate (length E) VUndef)
            = (fun r : list val => pick r [] ++ replicate (length E - 0) VUndef) <$> Sv)
      as HSf.
    { rewrite <- Hlen at 1. symmetry. apply const_fmap. intros.
      by rewrite Nat.sub_0_r. }
    rewrite <- HSv, <- HSf, pick_seq, Nat.sub_0_r. done.
  - split.
    + intros a b pa pb _ Ha. by rewrite lookup_nil in Ha.
    + intros a pa r Ha. by rewrite lookup_nil in Ha.
Qed.


End Sorting.

(** ** The loop of [diag] and of [diagBig] *)

Section While.
Context {St : Type} (cond : St → bool) (body : St → result St).

Lemma iterate_S n (s : St) :
  iterate body (S n) s = body s ≫= iterate body n.
Proof. done. Qed.




End While.

(** ** The rounds of [diag] and [diagBig] *)

Section Rounds.
Context {Big Frac : Type} `{!Runtime Big Frac} `{!MathJS Big Frac}.
#[local] Abbreviation val := (value Big Frac).
#[local] Abbreviation matrix := (list (list (value Big Frac))).

(** The pivot is the initial [(0, 1)] or a pair above the diagonal. *)
Lemma getAij_range (Mij : matrix) :
  fst (getAij Mij) = (0%nat, 1%nat) ∨
  (fst (fst (getAij Mij)) < snd (fst (getAij Mij)) < length Mij)%nat.
Proof.
  unfold getAij.
  pose (P := fun acc : nat * nat * float =>
    fst acc = (0%nat, 1%nat) ∨ (fst (fst acc) < snd (fst acc) < length Mij)%nat).
  apply (foldl_seq_invariant (fun _ acc => P acc) _ 0 (length Mij)); [by left|].
  intros i acc Hi Hacc.
  apply (foldl_seq_invariant (fun _ acc => P acc) _ (i + 1) (length Mij - (i + 1)));
    [done|].
  intros j [ij m] Hj Hacc'. unfold getAij_step.
  destruct (_ <? _); [|done]. right. simpl. lia.
Qed.


Lemma pivot_in_range (N : nat) (ij : nat * nat) :
  (2 ≤ N)%nat →
  ij = (0%nat, 1%nat) ∨ (fst ij < snd ij < N)%nat →
  (fst ij < N)%nat ∧ (snd ij < N)%nat ∧ fst ij ≠ snd ij.
Proof. intros HN [->|H]; simpl; lia. Qed.

(** The second loop of [Sij1] and [Sij1Big] does not throw on a square
    transform. *)
Lemma Sij1_write_ok N (Sij : matrix) Ski Skj i j :
  square N Sij → (i < N)%nat → (j < N)%nat →
  ∃ S', Sij1_write Sij Ski Skj i j = Ok S' ∧ square N S'.
Proof.
  intros Hs Hi Hj. unfold Sij1_write.
  replace (length Sij) with N by (by destruct Hs).
  apply (for_range_invariant (fun _ S' => square N S')); [done|].
  intros k S' Hk Hs'.
  destruct (mat_set_spec N S' k i (arr_get Ski k)) as (S1 & -> & Hs1 & _); [done..|].
  rewrite bind_Ok.
  destruct (mat_set_spec N S1 k j (arr_get Skj k)) as (S2 & -> & Hs2 & _); [done..|].
  by exists S2.
Qed.

(** One round of [diag]. *)
Lemma diag_body_ok N (x Sij : matrix) :
  (2 ≤ N)%nat → square N x → square N Sij →
  ∃ x' Sij', diag_body (x, Sij, getAij x) = Ok (x', Sij', getAij x') ∧
             square N x' ∧ square N Sij' ∧
             (symmetric N x → symmetric N x').
Proof.
  intros HN Hx HS. unfold diag_body.
  destruct (pivot_in_range N (fst (getAij x)) HN) as (Hi & Hj & Hne).
  { replace N with (length x) by (by destruct Hx). apply getAij_range. }
  set (i := fst (fst (getAij x))) in *. set (j := snd (fst (getAij x))) in *.
  rewrite !(mat_get_entry N), !bind_Ok by done.
  destruct (x1_spec N x (getTheta (entry x i i) (entry x j j) (entry x i j)) i j)
    as (Aii & Ajj & Aki & Akj & x' & -> & Hx' & Ex'); [done..|].
  rewrite bind_Ok. unfold Sij1.
  destruct (Sij1_write_ok N Sij
    (build (length Sij) (fun k =>
       VNum (Math_cos (getTheta (entry x i i) (entry x j j) (entry x i j))
               * ToNumber (entry Sij k i)
             - Math_sin (getTheta (entry x i i) (entry x j j) (entry x i j))
               * ToNumber (entry Sij k j))))
    (build (length Sij) (fun k =>
       VNum (Math_sin (getTheta (entry x i i) (entry x j j) (entry x i j))
               * ToNumber (entry Sij k i)
             + Math_cos (getTheta (entry x i i) (entry x j j) (entry x i j))
               * ToNumber (entry Sij k j)))) i j)
    as (S' & -> & HS'); [done..|].
  rewrite bind_Ok. exists x', S'. split; [done|]. split; [done|]. split; [done|].
  intros Hsym p q Hp Hq. rewrite !Ex'. by apply modified_symmetric.
Qed.








Lemma identity_square N : square N (identity (Big := Big) (Frac := Frac) N).
Proof.
  unfold identity, build. split; [by rewrite length_fmap, length_seq|].
  apply Forall_fmap, Forall_forall. intros i Hi%elem_of_seq. simpl.
  rewrite arr_set_length; rewrite length_replicate; lia.
Qed.

End Rounds.

(** ** The scan of [isSymmetric] *)

Section Symmetry.
Context {Big Frac : Type} `{!Runtime Big Frac} `{!MathJS Big Frac}.
#[local] Abbreviation val := (value Big Frac).
#[local] Abbreviation matrix := (list (list (value Big Frac))).

Lemma StronglySorted_bind {A B : Type} (Q : relation A) (R : relation B)
    (f : A → list B) (l : list A) :
  StronglySorted Q l →
  (∀ x, x ∈ l → StronglySorted R (f x)) →
  (∀ x y a b, Q x y → a ∈ f x → b ∈ f y → R a b) →
  StronglySorted R (l ≫= f).
Proof.
  intros Hl Hf Hcross. induction Hl as [|x l Hl IH Hx]; [constructor|].
  rewrite bind_cons. apply StronglySorted_app. split; [|split].
  - intros a b Ha (y & Hb & Hy)%list_elem_of_bind.
    apply (Hcross x y); [|done..].
    by apply (proj1 (Forall_forall _ _) Hx).
  - apply Hf. by left.
  - apply IH. intros y Hy. apply Hf. by right.
Qed.

Lemma elem_of_symmetric_pairs n i j :
  (i, j) ∈ symmetric_pairs n ↔ (i ≤ j < n)%nat.
Proof.
  unfold symmetric_pairs. rewrite list_elem_of_bind. split.
  - intros (k & Hj & Hk). apply list_elem_of_fmap in Hj as (j' & [= -> ->] & Hj).
    apply elem_of_seq in Hk, Hj. lia.
  - intros H. exists i. split.
    + apply list_elem_of_fmap. exists j. split; [done|]. apply elem_of_seq. lia.
    + apply elem_of_seq. lia.
Qed.

(** The loops of [isSymmetric] visit the pairs row by row, and a row from
    the diagonal to the right. *)
Lemma symmetric_pairs_sorted n : StronglySorted row_major (symmetric_pairs n).
Proof.
  unfold symmetric_pairs. apply (StronglySorted_bind lt).
  - apply StronglySorted_seq.
  - intros i _. apply (StronglySorted_fmap _ lt); [|apply StronglySorted_seq].
    intros a b Hab. right. simpl. lia.
  - intros x y a b Hxy (ja & -> & _)%list_elem_of_fmap (jb & -> & _)%list_elem_of_fmap.
    left. simpl. lia.
Qed.

(** The scan returns the first pair of the list at which [equal] is false. *)
Lemma isSymmetric_scan_spec N (x : matrix) (ps : list (nat * nat)) :
  square N x →
  (∀ p, p ∈ ps → (fst p < N)%nat ∧ (snd p < N)%nat) →
  ∃ r, isSymmetric_scan x ps = Ok r ∧
    match r with
    | None =>
        ∀ p, p ∈ ps → equal (entry x (fst p) (snd p)) (entry x (snd p) (fst p)) = true
    | Some p =>
        ∃ pre post, ps = pre ++ p :: post ∧
          equal (entry x (fst p) (snd p)) (entry x (snd p) (fst p)) = false ∧
          ∀ p', p' ∈ pre →
            equal (entry x (fst p') (snd p')) (entry x (snd p') (fst p')) = true
    end.
Proof.
  intros Hs. induction ps as [|[i j] ps IH]; intros Hrange.
  - exists None. split; [done|]. intros p Hp. by apply elem_of_nil in Hp.
  - destruct (Hrange (i, j)) as [Hi Hj]; [by left|]. simpl in Hi, Hj.
    simpl. rewrite !(mat_get_entry N), !bind_Ok by done.
    destruct (equal (entry x i j) (entry x j i)) eqn:Heq; simpl.
    + destruct IH as (r & -> & Hr); [intros p Hp; apply Hrange; by right|].
      exists r. split; [done|]. destruct r as [p|].
      * destruct Hr as (pre & post & -> & Hp & Hpre).
        exists ((i, j) :: pre), post. split; [done|]. split; [done|].
        intros p' [->|Hp']%elem_of_cons; [done|by apply Hpre].
      * intros p [->|Hp]%elem_of_cons; [done|by apply Hr].
    + exists (Some (i, j)). split; [done|]. exists [], ps.
      split; [done|]. split; [done|]. intros p' Hp'. by apply elem_of_nil in Hp'.
Qed.

End Symmetry.

(** ** The store *)

Section Store.
Context {Big Frac : Type} `{!Runtime Big Frac}.
#[local] Abbreviation val := (value Big Frac).
#[local] Abbreviation matrix := (list (list (value Big Frac))).
#[local] Abbreviation heap := (store Big Frac).

Lemma for_range_preserves {St : Type} (P : St → Prop) n
    (body : nat → St → result St) s s' :
  (∀ k s s', P s → body k s = Ok s' → P s') →
  P s → for_range n body s = Ok s' → P s'.
Proof.
  intros Hstep H0. revert s'. induction n as [|n IH]; intros s'.
  - rewrite for_range_0. by intros [= <-].
  - rewrite for_range_S. destruct (for_range n body s) as [s1|]; [|done].
    rewrite bind_Ok. intros Hb. apply (Hstep n s1); [by apply IH|done].
Qed.

Lemma for_from_preserves {St : Type} (P : St → Prop) lo hi
    (body : nat → St → result St) s s' :
  (∀ k s s', P s → body k s = Ok s' → P s') →
  P s → for_from lo hi body s = Ok s' → P s'.
Proof.
  intros Hstep H0. unfold for_from. generalize (hi - lo)%nat as n.
  intros n. revert s'. induction n as [|n IH]; intros s'.
  - by intros [= <-].
  - rewrite seq_S, foldl_app. simpl.
    destruct (foldl _ _ _) as [s1|]; [|done].
    rewrite bind_Ok. intros Hb. apply (Hstep (lo + n)%nat s1); [by apply IH|done].
Qed.

(** [toArray] leaves what was in the store, and puts the rows of the matrix
    in places that were free. *)
Lemma toArray_rows (h : heap) (ls : list loc) (a0 : list loc) (h0 : heap) a h' :
  (∀ l, l ∈ dom h → h0 !! l = h !! l) →
  (∀ l, l ∈ ls → l ∈ dom h) →
  foldl (fun '(a, h) l =>
           let '(l', h') := alloc h (default [] (h !! l)) in (a ++ [l'], h'))
        (a0, h0) ls = (a, h') →
  ∃ b, a = a0 ++ b ∧
       (∀ l, l ∈ dom h0 → h' !! l = h0 !! l) ∧
       (∀ l, l ∈ b → l ∉ dom h0) ∧
       Forall2 (fun l' l => h' !! l' = Some (default [] (h !! l))) b ls.
Proof.
  revert a0 h0. induction ls as [|l ls IH]; intros a0 h0 Hext Hdom; simpl.
  - intros [= <- <-]. exists []. rewrite app_nil_r. split; [done|].
    split; [done|]. split; [|done]. intros l Hl. by apply elem_of_nil in Hl.
  - set (r := default [] (h0 !! l)). set (l' := fresh (dom h0)).
    assert (l' ∉ dom h0) as Hfresh by apply is_fresh.
    intros Hfold. apply IH in Hfold as (b & -> & Hkeep & Hnew & Hrows).
    + exists (l' :: b). split; [by rewrite <- app_assoc|]. split; [|split].
      * intros k Hk. rewrite Hkeep by (rewrite dom_insert_L; set_solver).
        rewrite lookup_insert_ne; [done|]. intros ->. done.
      * intros k [->|Hk]%elem_of_cons; [done|].
        specialize (Hnew k Hk). rewrite dom_insert_L in Hnew. set_solver.
      * constructor; [|done].
        rewrite Hkeep by (rewrite dom_insert_L; set_solver).
        rewrite lookup_insert_eq. unfold r.
        rewrite Hext; [done|]. apply Hdom. by left.
    + intros k Hk. rewrite lookup_insert_ne; [by apply Hext|].
      intros ->. apply Hfresh. apply elem_of_dom. rewrite Hext by done.
      by apply elem_of_dom.
    + intros k Hk. apply Hdom. by right.
Qed.

Lemma toArray_spec (x : Matrix) (h : heap) a h' :
  (∀ l, l ∈ m_data x → l ∈ dom h) →
  toArray x h = (a, h') →
  (∀ l, l ∈ dom h → h' !! l = h !! l) ∧
  (∀ l, l ∈ a → l ∉ dom h) ∧
  Forall2 (fun l' l => h' !! l' = Some (default [] (h !! l))) a (m_data x).
Proof.
  intros Hdom Hto. unfold toArray in Hto.
  apply (toArray_rows h) in Hto as (b & -> & Hkeep & Hnew & Hsnap); done.
Qed.

Lemma copy_snapshot (h h' : heap) (a ls : list loc) :
  Forall2 (fun l' l => h' !! l' = Some (default [] (h !! l))) a ls →
  snapshot h' a = snapshot h ls.
Proof.
  induction 1 as [|l' l a ls E _ IH]; [done|]. simpl. by rewrite E, IH.
Qed.

Lemma copy_rows_defined n (h h' : heap) (a ls : list loc) :
  Forall2 (fun l' l => h' !! l' = Some (default [] (h !! l))) a ls →
  rows_defined n ls h → rows_defined n a h'.
Proof.
  intros Hcopy [Hlen Hrows]. split; [by rewrite (Forall2_length _ _ _ Hcopy)|].
  intros l' Hl'. apply list_elem_of_lookup in Hl' as [k Hk].
  destruct (Forall2_lookup_l _ _ _ _ _ Hcopy Hk) as (l & Hl & E).
  destruct (Hrows l) as (r & Er & Hr); [by eapply list_elem_of_lookup_2|].
  exists r. by rewrite E, Er.
Qed.

Lemma snapshot_agree (h h' : heap) (ls : list loc) :
  (∀ l, l ∈ ls → h' !! l = h !! l) → snapshot h' ls = snapshot h ls.
Proof.
  intros H. unfold snapshot. apply list_fmap_ext. intros i l Hl. simpl.
  rewrite H; [done|]. by eapply list_elem_of_lookup_2.
Qed.

Lemma dom_agree (h h' : heap) :
  (∀ l, l ∈ dom h → h' !! l = h !! l) → dom h ⊆ dom h'.
Proof.
  intros H l Hl. apply elem_of_dom. rewrite H by done. by apply elem_of_dom.
Qed.

(** An assignment to an element of [a] leaves the other arrays alone. *)
Lemma h_set_frame (h : heap) (a : list loc) i j v h' :
  h_set h a i j v = Ok h' → ∀ l, l ∉ a → h' !! l = h !! l.
Proof.
  unfold h_set. destruct (a !! i) as [l0|] eqn:Ea; [|done].
  destruct (h !! l0) as [r|]; [|done]. intros [= <-] l Hl.
  rewrite lookup_insert_ne; [done|]. intros ->. apply Hl.
  by eapply list_elem_of_lookup_2.
Qed.

(** The loop that converts the fractions writes in [xArr] only. *)
Lemma convert_fractions_frame (xArr : list loc) n (h h' : heap) :
  convert_fractions xArr n h = Ok h' → ∀ l, l ∉ xArr → h' !! l = h !! l.
Proof.
  intros Hconv l Hl. unfold convert_fractions in Hconv.
  apply (for_range_preserves (fun h1 : heap => h1 !! l = h !! l)) in Hconv; [done| |done].
  intros i h1 h2 H1 Hrow.
  apply (for_from_preserves (fun h1 : heap => h1 !! l = h !! l)) in Hrow; [done| |done].
  intros j h3 h4 H3.
  destruct (h_get h3 xArr i j) as [v|]; [rewrite bind_Ok|done].
  destruct (valueOf v) as [v'|]; [rewrite bind_Ok|done].
  destruct (h_set h3 xArr i j v') as [h5|] eqn:E5; [rewrite bind_Ok|done].
  destruct (h_get h5 xArr i j) as [w|]; [rewrite bind_Ok|done].
  intros E4. rewrite (h_set_frame _ _ _ _ _ _ E4 l Hl).
  by rewrite (h_set_frame _ _ _ _ _ _ E5 l Hl).
Qed.

Lemma rows_defined_get n a (h : heap) i j :
  rows_defined n a h → (i < n)%nat → (j < n)%nat →
  ∃ v, h_get h a i j = Ok v ∧ v ≠ VUndef.
Proof.
  intros [Hlen Hrows] Hi Hj.
  destruct (lookup_lt_is_Some_2 a i) as [l El]; [lia|].
  destruct (Hrows l) as (r & Er & Hr & Hdef); [by eapply list_elem_of_lookup_2|].
  destruct (lookup_lt_is_Some_2 r j) as [v Ev]; [lia|].
  exists v. unfold h_get. rewrite El. simpl. rewrite Er.
  rewrite (arr_get_lookup _ _ _ Ev). split; [done|].
  by apply (Forall_lookup_1 _ _ _ _ Hdef Ev).
Qed.

Lemma rows_defined_set n a (h : heap) i j v :
  rows_defined n a h → (i < n)%nat → (j < n)%nat → v ≠ VUndef →
  ∃ h', h_set h a i j v = Ok h' ∧ rows_defined n a h'.
Proof.
  intros [Hlen Hrows] Hi Hj Hv.
  destruct (lookup_lt_is_Some_2 a i) as [l El]; [lia|].
  destruct (Hrows l) as (r & Er & Hr & Hdef); [by eapply list_elem_of_lookup_2|].
  exists (<[l := arr_set r j v]> h). unfold h_set. rewrite El, Er.
  split; [done|]. split; [done|]. intros l' Hl'.
  destruct (decide (l' = l)) as [->|Hne].
  - exists (arr_set r j v). rewrite lookup_insert_eq. split; [done|].
    split; [rewrite arr_set_length; lia|].
    unfold arr_set. rewrite decide_True by lia. by apply Forall_insert.
  - rewrite lookup_insert_ne by done. by apply Hrows.
Qed.

Lemma valueOf_defined (v : val) :
  v ≠ VUndef → ∃ v', valueOf v = Ok v' ∧ v' ≠ VUndef.
Proof. intros Hv. exists (ToPrimitive v). by destruct v. Qed.

(** On such rows the loop that converts the fractions does not throw. *)
Lemma convert_fractions_ok (xArr : list loc) n (h : heap) :
  rows_defined n xArr h →
  ∃ h', convert_fractions xArr n h = Ok h' ∧ rows_defined n xArr h'.
Proof.
  intros Hrows. unfold convert_fractions.
  destruct (for_range_invariant (fun _ h1 => rows_defined n xArr h1) n
    (fun i h => for_from i n (fun j h =>
       v ← h_get h xArr i j; v ← valueOf v; h ← h_set h xArr i j v;
       w ← h_get h xArr i j; h_set h xArr j i w) h) h) as (h' & E & H');
    [done| |by exists h'].
  intros i h1 Hi H1.
  apply (for_from_invariant (fun _ h2 => rows_defined n xArr h2)); [lia|done|].
  intros j h2 Hj H2.
  destruct (rows_defined_get n xArr h2 i j) as (v & -> & Hv); [done|lia..|].
  rewrite bind_Ok.
  destruct (valueOf_defined v Hv) as (v' & -> & Hv'). rewrite bind_Ok.
  destruct (rows_defined_set n xArr h2 i j v') as (h3 & -> & H3); [done|lia|lia|done|].
  rewrite bind_Ok.
  destruct (rows_defined_get n xArr h3 i j) as (w & -> & Hw); [done|lia..|].
  rewrite bind_Ok.
  destruct (rows_defined_set n xArr h3 j i w) as (h4 & -> & H4); [done|lia|lia|done|].
  by exists h4.
Qed.

End Store.

(** * The claims *)

Section SortingClaim.
Context {Big Frac : Type} `{!Runtime Big Frac}.
#[local] Abbreviation val := (value Big Frac).
#[local] Abbreviation matrix := (list (list (value Big Frac))).


End SortingClaim.


(** The same input, run. *)
Example sorting_run :
  sorting (Big := Reference.Big) (Frac := Reference.Frac)
    [VNum 3; VNum 1; VNum 2; VNum 1]
    [[VNum 0; VNum 1; VNum 2; VNum 3];
     [VNum 10; VNum 11; VNum 12; VNum 13];
     [VNum 20; VNum 21; VNum 22; VNum 23];
     [VNum 30; VNum 31; VNum 32; VNum 33]]
  = Ok ([VNum 1; VNum 1; VNum 2; VNum 3],
        [[VNum 1; VNum 3; VNum 2; VNum 0];
         [VNum 11; VNum 13; VNum 12; VNum 10];
         [VNum 21; VNum 23; VNum 22; VNum 20];
         [VNum 31; VNum 33; VNum 32; VNum 30]]).
Proof. vm_compute. reflexivity. Qed.

Section LoopClaims.
Context {Big Frac : Type} `{!Runtime Big Frac} `{!MathJS Big Frac}.
#[local] Abbreviation val := (value Big Frac).
#[local] Abbreviation matrix := (list (list (value Big Frac))).




(** [[1, 1], [1, 1]] takes one rotation: with fuel for one round the loop is
    still running, with fuel for two it has returned. *)
Example diag_one_rotation :
  diag 1 [[VNum 1; VNum 1]; [VNum 1; VNum 1]] default_precision
    = (None : option (result (list Reference.val * list (list Reference.val)))) ∧
  diag 2 [[VNum 1; VNum 1]; [VNum 1; VNum 1]] default_precision
    = Some (Ok ([VNum 0; VNum 1.9999999999999996],
                [[VNum 0.70710678118654746; VNum 0.70710678118654746];
                 [VNum (-0.70710678118654746); VNum 0.70710678118654746]])
            : result (list Reference.val * list (list Reference.val))).
Proof. split; vm_compute; reflexivity. Qed.

End LoopClaims.


(** Identities and a matrix of one row, run: the values are the diagonal, the
    vectors the identity. *)
Example diag_identity_run :
  diag 1 [[VNum 1; VNum 0]; [VNum 0; VNum 1]] default_precision
    = Some (Ok ([VNum 1; VNum 1], [[VNum 1; VNum 0]; [VNum 0; VNum 1]])
            : result (list Reference.val * list (list Reference.val))) ∧
  diag 1 [[VNum 7]] default_precision
    = Some (Ok ([VNum 7], [[VNum 1]])
            : result (list Reference.val * list (list Reference.val))).
Proof. split; vm_compute; reflexivity. Qed.

Section RotationClaims.
Context {Big Frac : Type} `{!Runtime Big Frac} `{!MathJS Big Frac}.
#[local] Abbreviation val := (value Big Frac).
#[local] Abbreviation matrix := (list (list (value Big Frac))).

(** With a number on one side, [<=] compares numbers, whatever the other side
    is. *)
Lemma js_le_number (v : val) (c : float) :
  js_le v (VNum c) = (ToNumber v <=? c).
Proof. unfold js_le. by destruct (ToPrimitive v). Qed.

(** C4.  In both paths the angle is [Math.PI / 4] when the magnitude of
    [ajj - aii] is [<= 1e-14], and [0.5 * atan(2 * aij / (ajj - aii))]
    otherwise.  In [getTheta] everything is native arithmetic.  In
    [getThetaBig] the difference, its magnitude, the quotient (a product with
    the inverse) and the arc tangent are those of the injected functions, and
    the test alone is native: the magnitude is turned into a number and
    compared, as numbers are, with [1e-14]. *)
Theorem rotation_angle (aii ajj aij : val) :
  getTheta aii ajj aij =
    (if (PrimFloat.abs (ToNumber ajj - ToNumber aii) <=? 1e-14)
     then Math_PI / 4
     else 0.5 * Math_atan (2 * ToNumber aij / (ToNumber ajj - ToNumber aii))) ∧
  getThetaBig aii ajj aij =
    (if (ToNumber (abs (subtract ajj aii)) <=? 1e-14)
     then VNum (Math_PI / 4)
     else multiplyScalar (VNum 0.5)
            (atan (multiply (multiply (VNum 2) aij) (inv (subtract ajj aii))))).
Proof.
  split; [reflexivity|]. unfold getThetaBig. by rewrite js_le_number.
Qed.

(** C6, as the code has it.  After a rotation at a pivot [(i, j)] of a square
    matrix, [i < j], the entries at [(i, j)] and [(j, i)] are the native
    number [0], in [x1] and in [x1Big] alike: [x1Big] too assigns the literal
    [0], not a BigNumber. *)
Theorem rotation_zeroes_pivot_entries (N : nat) (Hij : matrix) (i j : nat) :
  square N Hij → (i < j < N)%nat →
  (∀ theta, ∃ H', x1 Hij theta i j = Ok H' ∧
                  entry H' i j = VNum 0 ∧ entry H' j i = VNum 0) ∧
  (∀ theta, ∃ H', x1Big Hij theta i j = Ok H' ∧
                  entry H' i j = VNum 0 ∧ entry H' j i = VNum 0).
Proof.
  intros Hs Hij_lt. split; intros theta.
  - destruct (x1_spec N Hij theta i j)
      as (Aii & Ajj & Aki & Akj & H' & E & _ & He); [done|lia..|].
    exists H'. split; [done|]. rewrite !He. apply modified_pivot. lia.
  - destruct (x1Big_spec N Hij theta i j)
      as (Aii & Ajj & Aki & Akj & H' & E & _ & He); [done|lia..|].
    exists H'. split; [done|]. rewrite !He. apply modified_pivot. lia.
Qed.


End RotationClaims.

(** The angle, run: equal diagonal entries give [Math.PI / 4], others the arc
    tangent. *)
Example rotation_angle_run :
  getTheta (Big := Reference.Big) (Frac := Reference.Frac)
    (VNum 1) (VNum 1) (VNum 1) = Math_PI / 4 ∧
  getTheta (Big := Reference.Big) (Frac := Reference.Frac)
    (VNum 5) (VNum 1) (VNum 2.3) = -0.42752636856300824 ∧
  getThetaBig (VBig 2%Z : Reference.val) (VBig 2%Z) (VBig 1%Z) = VNum (Math_PI / 4).
Proof. repeat split; vm_compute; reflexivity. Qed.

(** The claim C6 as the specification words it fails on the BigNumber path:
    after [x1Big] on a matrix of BigNumbers the pivot entries are the native
    number [0], and so not a BigNumber. *)
Lemma x1Big_pivot_entry_is_a_native_zero :
  let Hij : list (list Reference.val) :=
    [[VBig 2%Z; VBig 1%Z]; [VBig 1%Z; VBig 3%Z]] in
  let theta := getThetaBig (VBig 2%Z : Reference.val) (VBig 3%Z) (VBig 1%Z) in
  ∃ H', x1Big Hij theta 0 1 = Ok H' ∧
        entry H' 0 1 = VNum 0 ∧ entry H' 1 0 = VNum 0 ∧
        (∀ b, entry H' 0 1 ≠ VBig b) ∧ (∀ b, entry H' 1 0 ≠ VBig b).
Proof.
  intros Hij theta. eexists. split; [vm_compute; reflexivity|].
  repeat split; try reflexivity; intros b; discriminate.
Defined.

(** A rotation of a matrix of three rows at the pivot [(0, 2)]. *)
Lemma rotation_zeroes_pivot_entries_witness :
  let Hij : list (list Reference.val) :=
    [[VNum 4; VNum 1; VNum 2]; [VNum 1; VNum 3; VNum 0]; [VNum 2; VNum 0; VNum 1]] in
  (∀ theta, ∃ H', x1 Hij theta 0 2 = Ok H' ∧
                  entry H' 0 2 = VNum 0 ∧ entry H' 2 0 = VNum 0) ∧
  (∀ theta, ∃ H', x1Big Hij theta 0 2 = Ok H' ∧
                  entry H' 0 2 = VNum 0 ∧ entry H' 2 0 = VNum 0).
Proof.
  intros Hij. apply (rotation_zeroes_pivot_entries 3 Hij 0 2).
  - split; [reflexivity|]. repeat constructor.
  - lia.
Defined.


Section PivotClaim.
Context {Big Frac : Type} `{!Runtime Big Frac} `{!MathJS Big Frac}.
#[local] Abbreviation val := (value Big Frac).
#[local] Abbreviation matrix := (list (list (value Big Frac))).


End PivotClaim.


(** The same matrices, run: the first of the two pairs is returned. *)
Example pivot_run :
  getAij (Big := Reference.Big) (Frac := Reference.Frac)
    [[VNum 0; VNum (-3); VNum 2]; [VNum (-3); VNum 0; VNum 3];
     [VNum 2; VNum 3; VNum 0]] = ((0%nat, 1%nat), 3) ∧
  getAijBig
    [[VBig 0%Z; VBig (-3)%Z; VBig 2%Z]; [VBig (-3)%Z; VBig 0%Z; VBig 3%Z];
     [VBig 2%Z; VBig 3%Z; VBig 0%Z]]
    = ((0%nat, 1%nat), VBig 3%Z : Reference.val).
Proof. split; vm_compute; reflexivity. Qed.

(** The order in C1 and C3 is that of the operator [<], which compares two
    BigNumbers by the strings that [valueOf] returns, and a number with a
    BigNumber as numbers.  With the provider of this file 10 is below 9 in
    that order: of the magnitudes 9 and 10 [getAijBig] keeps 9, and [sorting]
    leaves 10 before 9. *)
Example bignumbers_compared_as_strings :
  js_lt (VBig 10%Z : Reference.val) (VBig 9%Z) = true ∧
  getAijBig
    [[VBig 0%Z; VBig 9%Z; VBig 10%Z]; [VBig 9%Z; VBig 0%Z; VBig 0%Z];
     [VBig 10%Z; VBig 0%Z; VBig 0%Z]]
    = ((0%nat, 1%nat), VBig 9%Z : Reference.val) ∧
  sorting [VBig 10%Z : Reference.val; VBig 9%Z]
          [[VNum 1; VNum 0]; [VNum 0; VNum 1]]
    = Ok ([VBig 10%Z; VBig 9%Z], [[VNum 1; VNum 0]; [VNum 0; VNum 1]]).
Proof. repeat split; vm_compute; reflexivity. Qed.

Section SymmetryClaim.
Context {Big Frac : Type} `{!Runtime Big Frac} `{!MathJS Big Frac}.
#[local] Abbreviation val := (value Big Frac).
#[local] Abbreviation matrix := (list (list (value Big Frac))).

(** C8.  On a square matrix of [n] rows, [isSymmetric] tests
    [equal(x[i][j], x[j][i])], the injected equality, at the pairs
    [0 <= i <= j < n], row by row.  It returns without an error exactly when
    the test holds at every pair; otherwise it throws the [TypeError] "Input
    matrix is not symmetric", and it does so at the first pair at which the
    test fails: every pair before it passed.  The function assigns nothing, so
    the matrix it was given is as it was. *)
Theorem isSymmetric_first_mismatch (x : matrix) (n : nat) :
  square n x →
  (isSymmetric x n = Ok tt ↔
   ∀ i j, (i ≤ j < n)%nat → equal (entry x i j) (entry x j i) = true) ∧
  (isSymmetric x n ≠ Ok tt →
   isSymmetric x n = Throw (TypeError "Input matrix is not symmetric") ∧
   ∃ i j, isSymmetric_scan x (symmetric_pairs n) = Ok (Some (i, j)) ∧
     (i ≤ j < n)%nat ∧
     equal (entry x i j) (entry x j i) = false ∧
     ∀ p q, (p ≤ q < n)%nat → row_major (p, q) (i, j) →
       equal (entry x p q) (entry x q p) = true).
Proof.
  intros Hs.
  destruct (isSymmetric_scan_spec n x (symmetric_pairs n) Hs) as (r & Hscan & Hr).
  { intros [i j] Hp%elem_of_symmetric_pairs. simpl. lia. }
  unfold isSymmetric. rewrite Hscan, bind_Ok. destruct r as [[i j]|].
  - destruct Hr as (pre & post & Hsplit & Hne & Hpre). simpl in Hne.
    assert ((i ≤ j < n)%nat) as Hij.
    { apply elem_of_symmetric_pairs. rewrite Hsplit. set_solver. }
    split.
    + split; [done|]. intros Hall. rewrite Hall in Hne by done. done.
    + intros _. split; [done|]. exists i, j. split; [done|]. split; [done|].
      split; [done|]. intros p q Hpq Hbefore.
      pose proof (symmetric_pairs_sorted n) as Hsorted. rewrite Hsplit in Hsorted.
      apply StronglySorted_app in Hsorted as (Hcross & _ & Hpost).
      apply StronglySorted_cons in Hpost as [Hpost _].
      assert ((p, q) ∈ symmetric_pairs n) as Hin by (by apply elem_of_symmetric_pairs).
      rewrite Hsplit in Hin.
      apply elem_of_app in Hin as [Hin|[[= -> ->]|Hin]%elem_of_cons].
      * by apply (Hpre (p, q)).
      * unfold row_major in Hbefore. simpl in Hbefore. lia.
      * apply (proj1 (Forall_forall _ _) Hpost) in Hin.
        unfold row_major in Hbefore, Hin. simpl in Hbefore, Hin. lia.
  - split; [|done]. split; [|done]. intros _ i j Hij.
    apply (Hr (i, j)). by apply elem_of_symmetric_pairs.
Qed.

End SymmetryClaim.

(** A matrix of three rows with [x[1][2]] and [x[2][1]] apart, and [x[0][2]]
    and [x[2][0]] together. *)
Lemma isSymmetric_first_mismatch_witness :
  let x : list (list Reference.val) :=
    [[VNum 1; VNum 2; VNum 3]; [VNum 2; VNum 4; VNum 5]; [VNum 3; VNum 6; VNum 7]] in
  (isSymmetric x 3 = Ok tt ↔
   ∀ i j, (i ≤ j < 3)%nat → equal (entry x i j) (entry x j i) = true) ∧
  (isSymmetric x 3 ≠ Ok tt →
   isSymmetric x 3 = Throw (TypeError "Input matrix is not symmetric") ∧
   ∃ i j, isSymmetric_scan x (symmetric_pairs 3) = Ok (Some (i, j)) ∧
     (i ≤ j < 3)%nat ∧
     equal (entry x i j) (entry x j i) = false ∧
     ∀ p q, (p ≤ q < 3)%nat → row_major (p, q) (i, j) →
       equal (entry x p q) (entry x q p) = true).
Proof.
  intros x. apply (isSymmetric_first_mismatch x 3).
  split; [reflexivity|]. repeat constructor.
Defined.

(** The scan, run: the throw is at [(1, 2)]; [[1, 2], [3, 4]] throws, and a
    symmetric matrix passes. *)
Example isSymmetric_run :
  isSymmetric_scan (Big := Reference.Big) (Frac := Reference.Frac)
    [[VNum 1; VNum 2; VNum 3]; [VNum 2; VNum 4; VNum 5]; [VNum 3; VNum 6; VNum 7]]
    (symmetric_pairs 3) = Ok (Some (1%nat, 2%nat)) ∧
  isSymmetric (Big := Reference.Big) (Frac := Reference.Frac)
    [[VNum 1; VNum 2]; [VNum 3; VNum 4]] 2
    = Throw (TypeError "Input matrix is not symmetric") ∧
  isSymmetric (Big := Reference.Big) (Frac := Reference.Frac)
    [[VNum 1; VNum 2]; [VNum 2; VNum 4]] 2 = Ok tt.
Proof. repeat split; vm_compute; reflexivity. Qed.

Section ValidatorClaims.
Context {Big Frac Arr : Type} `{!Runtime Big Frac} `{!MathJS Big Frac}
        `{!Collaborators Big Frac Arr}.
#[local] Abbreviation val := (value Big Frac).
#[local] Abbreviation matrix := (list (list (value Big Frac))).
#[local] Abbreviation heap := (store Big Frac).

(** C9.  Take a matrix whose type is ['Fraction'], whose [n] rows are in the
    store with [n] elements each, none undefined, and which passes
    [isSymmetric].  [checkAndSubmit] copies it with [toArray] into [xArr],
    runs the loop that replaces the elements of [xArr] by their [valueOf],
    and then calls [diag] on another array [a], a new copy that [toArray]
    makes: no row of [a] is a row of [xArr], and the rows of [a] hold what the
    matrix held at the start, Fraction objects included.  The result is that
    of [diag] on the elements of the matrix as they were, and the matrix still
    holds them: the loop had no effect on what is decomposed. *)
Theorem fraction_conversion_is_discarded (fuel : nat) (x : Matrix) (n : nat)
    (h : heap) :
  match m_datatype x with Some t => t | None => m_getDataType x end
    = "Fraction" →
  rows_defined n (m_data x) h →
  isSymmetric (snapshot h (m_data x)) n = Ok tt →
  ∃ a1 h1 xArr h2 h3 a h',
    toArray x h = (a1, h1) ∧
    toArray x h1 = (xArr, h2) ∧
    convert_fractions xArr n h2 = Ok h3 ∧
    toArray x h3 = (a, h') ∧
    checkAndSubmit fuel x n h
      = (diag fuel (snapshot h' a) default_precision, h') ∧
    (∀ l, l ∈ a → l ∉ xArr) ∧
    snapshot h' a = snapshot h (m_data x) ∧
    snapshot h' (m_data x) = snapshot h (m_data x).
Proof.
  intros Htype Hrows Hsym.
  assert (∀ l, l ∈ m_data x → l ∈ dom h) as Hdom.
  { intros l Hl. destruct Hrows as [_ Hrows].
    destruct (Hrows l Hl) as (r & Er & _). by apply elem_of_dom. }
  destruct (toArray x h) as [a1 h1] eqn:E1.
  destruct (toArray_spec x h a1 h1 Hdom E1) as (Hkeep1 & Hnew1 & Hcopy1).
  assert (∀ l, l ∈ m_data x → l ∈ dom h1) as Hdom1.
  { intros l Hl. by apply (dom_agree h h1 Hkeep1), Hdom. }
  destruct (toArray x h1) as [xArr h2] eqn:E2.
  destruct (toArray_spec x h1 xArr h2 Hdom1 E2) as (Hkeep2 & Hnew2 & Hcopy2).
  assert (rows_defined n (m_data x) h1) as Hrows1.
  { destruct Hrows as [Hlen Hrows]. split; [done|]. intros l Hl.
    rewrite Hkeep1 by (by apply Hdom). by apply Hrows. }
  pose proof (copy_rows_defined n h1 h2 xArr (m_data x) Hcopy2 Hrows1) as HxArr.
  destruct (convert_fractions_ok xArr n h2 HxArr) as (h3 & E3 & HxArr3).
  assert (∀ l, l ∈ m_data x → h3 !! l = h !! l) as Hframe.
  { intros l Hl.
    rewrite (convert_fractions_frame xArr n h2 h3 E3).
    - rewrite Hkeep2 by (by apply Hdom1). rewrite Hkeep1 by (by apply Hdom). done.
    - intros Hin. by apply (Hnew2 l Hin), Hdom1. }
  assert (∀ l, l ∈ m_data x → l ∈ dom h3) as Hdom3.
  { intros l Hl. apply elem_of_dom. rewrite Hframe by done.
    apply elem_of_dom. by apply Hdom. }
  destruct (toArray x h3) as [a h'] eqn:E4.
  destruct (toArray_spec x h3 a h' Hdom3 E4) as (Hkeep4 & Hnew4 & Hcopy4).
  exists a1, h1, xArr, h2, h3, a, h'.
  split; [done|]. split; [done|]. split; [done|]. split; [done|].
  split; [|split; [|split]].
  - unfold checkAndSubmit. rewrite Htype. simpl.
    rewrite E1, (copy_snapshot h h1 a1 (m_data x) Hcopy1), Hsym.
    rewrite E2, E3, E4. done.
  - intros l Hl Hin. apply (Hnew4 l Hl).
    destruct HxArr3 as [_ HxArr3]. destruct (HxArr3 l Hin) as (r & Er & _).
    by apply elem_of_dom.
  - rewrite (copy_snapshot h3 h' a (m_data x) Hcopy4).
    by apply snapshot_agree.
  - apply snapshot_agree. intros l Hl.
    rewrite Hkeep4 by (by apply Hdom3). by apply Hframe.
Qed.

(** C5, as the code has it.  When the size the matrix answers is not that of
    a square two-dimensional shape, [eigs] throws a [RangeError] whose message
    begins "Matrix must be square", in both signatures.  This comes first:
    whatever the type and the elements of the matrix are, the error is this
    one, and the store is as [eigs] found it (as the injected [matrix] left
    it, in the signature [Array]), no copy of the elements having been
    made. *)
Theorem eigs_not_square (fuel : nat) (x : Matrix) (arr : Arr) (h : heap) :
  (not_square (m_size x) = true →
   eigs_Matrix fuel x h = (Some (Throw (must_be_square (m_size x))), h)) ∧
  (∀ mat h', matrix_of_array arr h = Ok (mat, h') →
     not_square (m_size mat) = true →
     eigs_Array fuel arr h = (Some (Throw (must_be_square (m_size mat))), h')) ∧
  (∀ size, exn_name (must_be_square size) = "RangeError" ∧
           String.prefix "Matrix must be square"
             (exn_message (must_be_square size)) = true) ∧
  (∀ size, not_square size = false ↔ ∃ k, size = [k; k]).
Proof.
  split; [|split; [|split]].
  - intros Hns. unfold eigs_Matrix. by rewrite Hns.
  - intros mat h' Hmat Hns. unfold eigs_Array. by rewrite Hmat, Hns.
  - intros size. split; reflexivity.
  - intros size. split.
    + destruct size as [|r [|c [|d size]]]; try done. simpl.
      destruct (Nat.eqb_spec r c) as [->|]; [|done]. intros _. by exists c.
    + intros [k ->]. simpl. by rewrite Nat.eqb_refl.
Qed.

End ValidatorClaims.

(** A matrix of fractions, [[1/2, 1], [1, 1/3]], its rows at the places 0
    and 1 of the store. *)
Lemma fraction_conversion_is_discarded_witness :
  let h : store Reference.Big Reference.Frac :=
    <[0%nat := [VFrac (1, 2)%Z; VFrac (1, 1)%Z]]>
      (<[1%nat := [VFrac (1, 1)%Z; VFrac (1, 3)%Z]]> ∅) in
  let x := {| m_data := [0%nat; 1%nat]; m_size := [2%nat; 2%nat];
              m_datatype := Some "Fraction"%string;
              m_getDataType := "Fraction"%string |} in
  ∃ a1 h1 xArr h2 h3 a h',
    toArray x h = (a1, h1) ∧
    toArray x h1 = (xArr, h2) ∧
    convert_fractions xArr 2 h2 = Ok h3 ∧
    toArray x h3 = (a, h') ∧
    checkAndSubmit 3 x 2 h
      = (diag 3 (snapshot h' a) default_precision, h') ∧
    (∀ l, l ∈ a → l ∉ xArr) ∧
    snapshot h' a = snapshot h (m_data x) ∧
    snapshot h' (m_data x) = snapshot h (m_data x).
Proof.
  intros h x. apply (fraction_conversion_is_discarded 3 x 2 h).
  - reflexivity.
  - split; [reflexivity|]. intros l Hl.
    apply elem_of_cons in Hl as [->|Hl]; [|apply elem_of_cons in Hl as [->|Hl]].
    + eexists. split; [reflexivity|]. split; [reflexivity|].
      repeat constructor; discriminate.
    + eexists. split; [reflexivity|]. split; [reflexivity|].
      repeat constructor; discriminate.
    + by apply elem_of_nil in Hl.
  - vm_compute. reflexivity.
Defined.

(** The same matrix, run.  In the store that [checkAndSubmit] leaves, the
    places 4 and 5 hold the copy that the loop converted to numbers, the
    places 6 and 7 the copy that [diag] received, still fractions, and the
    places 0 and 1 the matrix as it was. *)
Example fraction_conversion_run :
  let h : store Reference.Big Reference.Frac :=
    <[0%nat := [VFrac (1, 2)%Z; VFrac (1, 1)%Z]]>
      (<[1%nat := [VFrac (1, 1)%Z; VFrac (1, 3)%Z]]> ∅) in
  let x := {| m_data := [0%nat; 1%nat]; m_size := [2%nat; 2%nat];
              m_datatype := Some "Fraction"%string;
              m_getDataType := "Fraction"%string |} in
  let h' := snd (checkAndSubmit 3 x 2 h) in
  snapshot h' [4%nat; 5%nat]
    = [[VNum 0.5; VNum 1]; [VNum 1; VNum 0.33333333333333331]] ∧
  snapshot h' [6%nat; 7%nat]
    = [[VFrac (1, 2)%Z; VFrac (1, 1)%Z]; [VFrac (1, 1)%Z; VFrac (1, 3)%Z]] ∧
  snapshot h' [0%nat; 1%nat]
    = [[VFrac (1, 2)%Z; VFrac (1, 1)%Z]; [VFrac (1, 1)%Z; VFrac (1, 3)%Z]].
Proof. repeat split; vm_compute; reflexivity. Qed.

(** A diagonal matrix of fractions: no rotation is made, and the values that
    [eigs] returns are the Fraction objects of the input, not numbers. *)
Example fraction_values_run :
  fst (eigs_Array 1
         [[VFrac (1, 2)%Z; VFrac (0, 1)%Z]; [VFrac (0, 1)%Z; VFrac (1, 3)%Z]] ∅)
  = Some (Ok {| values := [VFrac (1, 3)%Z; VFrac (1, 2)%Z : Reference.val];
                vectors := AsArray [[VNum 0; VNum 1]; [VNum 1; VNum 0]] |}).
Proof. vm_compute. reflexivity. Qed.

(** The claim C5 as the specification words it fails on the name of the
    error: on a matrix of 2 rows and 3 columns [eigs] throws, and what it
    throws is a [RangeError], not a [ShapeError]. *)
Lemma eigs_not_square_is_a_RangeError :
  ∃ e, fst (eigs_Array 1
              [[VNum 1; VNum 2; VNum 3 : Reference.val];
               [VNum 4; VNum 5; VNum 6]] ∅) = Some (Throw e) ∧
       exn_name e = "RangeError"%string ∧
       exn_name e ≠ "ShapeError"%string ∧
       exn_message e = "Matrix must be square (size: [2, 3])"%string.
Proof.
  eexists. split; [vm_compute; reflexivity|].
  split; [reflexivity|]. split; [discriminate|reflexivity].
Defined.

(** The size comes first: a matrix of 2 rows and 3 columns whose type is
    ['mixed'] gets the error of the size, not the one of the type; with a
    square size it gets the one of the type. *)
Example eigs_size_first :
  fst (eigs_Matrix (Big := Reference.Big) (Frac := Reference.Frac)
         (Arr := list (list Reference.val)) 1
         {| m_data := []; m_size := [2%nat; 3%nat];
            m_datatype := Some "mixed"%string; m_getDataType := "mixed"%string |} ∅)
  = Some (Throw (RangeError "Matrix must be square (size: [2, 3])")) ∧
  fst (eigs_Matrix (Big := Reference.Big) (Frac := Reference.Frac)
         (Arr := list (list Reference.val)) 1
         {| m_data := []; m_size := [2%nat; 2%nat];
            m_datatype := Some "mixed"%string; m_getDataType := "mixed"%string |} ∅)
  = Some (Throw (TypeError "Mixed matrix element type is not supported")).
Proof. split; vm_compute; reflexivity. Qed.
(** * More of the code *)

(** ** One rotation, in full *)

Section KernelLemmas.
Context {Big Frac : Type} `{!Runtime Big Frac} `{!MathJS Big Frac}.
#[local] Abbreviation val := (value Big Frac).
#[local] Abbreviation matrix := (list (list (value Big Frac))).

(** What the second loop of [Sij1] and [Sij1Big] leaves in the transform. *)
Lemma Sij1_write_spec N (Sij : matrix) Ski Skj i j :
  square N Sij → (i < N)%nat → (j < N)%nat →
  ∃ S', Sij1_write Sij Ski Skj i j = Ok S' ∧ square N S' ∧
    ∀ p q, entry S' p q =
      if decide (p < N ∧ q = j)%nat then arr_get Skj p
      else if decide (p < N ∧ q = i)%nat then arr_get Ski p
      else entry Sij p q.
Proof.
  intros Hs Hi Hj. unfold Sij1_write.
  replace (length Sij) with N by (by destruct Hs).
  destruct (for_range_invariant (fun t (S' : matrix) => square N S' ∧
     ∀ p q, entry S' p q =
      if decide (p < t ∧ q = j)%nat then arr_get Skj p
      else if decide (p < t ∧ q = i)%nat then arr_get Ski p
      else entry Sij p q) N
    (fun k Sij => Sij ← mat_set Sij k i (arr_get Ski k);
                  mat_set Sij k j (arr_get Skj k)) Sij) as (S' & E & HS' & HE);
    [| |by exists S'].
  - split; [done|]. intros p q. rewrite !decide_False by lia. done.
  - intros k S' Hk [Hs' E'].
    destruct (mat_set_spec N S' k i (arr_get Ski k)) as (S1 & -> & Hs1 & E1); [done..|].
    rewrite bind_Ok.
    destruct (mat_set_spec N S1 k j (arr_get Skj k)) as (S2 & -> & Hs2 & E2); [done..|].
    exists S2. split; [done|]. split; [done|].
    intros p q. rewrite E2, E1, E'.
    repeat case_decide; destruct_and?; subst;
      first [reflexivity | exfalso; intuition lia].
Qed.

(** What [x1] leaves in the matrix, the values written out. *)
Lemma x1_entries N (Hij : matrix) theta i j :
  square N Hij → (i < N)%nat → (j < N)%nat → i ≠ j →
  let c := Math_cos theta in
  let s := Math_sin theta in
  let h p q := ToNumber (entry Hij p q) in
  ∃ H', x1 Hij theta i j = Ok H' ∧ square N H' ∧
    ∀ p q, entry H' p q =
      modified_entry Hij
        (VNum (c * c * h i i - 2 * c * s * h i j + s * s * h j j))
        (VNum (s * s * h i i + 2 * c * s * h i j + c * c * h j j))
        (build N (fun k => VNum (c * h i k - s * h j k)))
        (build N (fun k => VNum (s * h i k + c * h j k))) i j N p q.
Proof.
  intros Hs Hi Hj Hne c s h. unfold x1.
  rewrite !(mat_get_entry N), !bind_Ok by done.
  replace (length Hij) with N by (by destruct Hs).
  rewrite (fill_Aki_Akj N Hij i j
    (fun hik hjk => VNum (Math_cos theta * ToNumber hik - Math_sin theta * ToNumber hjk))
    (fun hik hjk => VNum (Math_sin theta * ToNumber hik + Math_cos theta * ToNumber hjk)))
    by done.
  rewrite bind_Ok. by apply modify_Hij_spec.
Qed.

Lemma x1Big_entries N (Hij : matrix) theta i j :
  square N Hij → (i < N)%nat → (j < N)%nat → i ≠ j →
  let c := bignumber (cos theta) in
  let s := bignumber (sin theta) in
  let csHij := multiply (multiply (multiply (VNum 2) c) s) (entry Hij i j) in
  ∃ H', x1Big Hij theta i j = Ok H' ∧ square N H' ∧
    ∀ p q, entry H' p q =
      modified_entry Hij
        (addScalar (subtract (multiplyScalar (multiplyScalar c c) (entry Hij i i)) csHij)
                   (multiplyScalar (multiplyScalar s s) (entry Hij j j)))
        (add (add (multiplyScalar (multiplyScalar s s) (entry Hij i i)) csHij)
             (multiplyScalar (multiplyScalar c c) (entry Hij j j)))
        (build N (fun k => subtract (multiplyScalar c (entry Hij i k))
                                    (multiplyScalar s (entry Hij j k))))
        (build N (fun k => addScalar (multiplyScalar s (entry Hij i k))
                                     (multiplyScalar c (entry Hij j k)))) i j N p q.
Proof.
  intros Hs Hi Hj Hne c s csHij. unfold x1Big.
  rewrite !(mat_get_entry N), !bind_Ok by done.
  replace (length Hij) with N by (by destruct Hs).
  rewrite (fill_Aki_Akj N Hij i j
    (fun hik hjk => subtract (multiplyScalar (bignumber (cos theta)) hik)
                             (multiplyScalar (bignumber (sin theta)) hjk))
    (fun hik hjk => addScalar (multiplyScalar (bignumber (sin theta)) hik)
                              (multiplyScalar (bignumber (cos theta)) hjk)))
    by done.
  rewrite bind_Ok. by apply modify_Hij_spec.
Qed.

(** The entries of the matrix that [modify_Hij] leaves, place by place. *)
Lemma modified_entries N (Hij : matrix) Aii Ajj (F G : nat → val) i j :
  (i < N)%nat → (j < N)%nat → i ≠ j →
  let M := modified_entry Hij Aii Ajj (build N F) (build N G) i j N in
  M i i = Aii ∧ M j j = Ajj ∧
  (∀ k, (k < N)%nat → k ≠ i → k ≠ j →
     M i k = F k ∧ M k i = F k ∧ M j k = G k ∧ M k j = G k) ∧
  (∀ p q, p ≠ i → p ≠ j → q ≠ i → q ≠ j → M p q = entry Hij p q).
Proof.
  intros Hi Hj Hne M. unfold M, modified_entry.
  split; [by rewrite decide_True|]. split.
  { rewrite decide_False by (intuition lia). by rewrite decide_True. }
  split.
  - intros k Hk Hki Hkj.
    repeat split; repeat case_decide; destruct_and?; subst;
      first [by rewrite arr_get_build | exfalso; intuition lia].
  - intros p q ? ? ? ?. repeat case_decide; first [reflexivity | exfalso; intuition lia].
Qed.

End KernelLemmas.

Section KernelExtras.
Context {Big Frac : Type} `{!Runtime Big Frac} `{!MathJS Big Frac}.
#[local] Abbreviation val := (value Big Frac).
#[local] Abbreviation matrix := (list (list (value Big Frac))).


(** X2.  What [x1] leaves in a matrix of [N] rows and columns, for a pivot of
    two different indices below [N]: at [(i, i)] and [(j, j)] the two values
    that the code computes from the three entries of the pivot; in the rows
    and columns [i] and [j], away from the pivot, the combinations of the
    rows [i] and [j] of the matrix as it was, the same value at [(i, k)] and
    [(k, i)] and the same at [(j, k)] and [(k, j)], whether or not the matrix
    was symmetric; every entry outside these rows and columns as it was. *)
Theorem x1_entries_after_rotation N (Hij : matrix) theta (i j : nat) :
  square N Hij → (i < N)%nat → (j < N)%nat → i ≠ j →
  let c := Math_cos theta in
  let s := Math_sin theta in
  let h p q := ToNumber (entry Hij p q) in
  ∃ H', x1 Hij theta i j = Ok H' ∧ square N H' ∧
    entry H' i i = VNum (c * c * h i i - 2 * c * s * h i j + s * s * h j j) ∧
    entry H' j j = VNum (s * s * h i i + 2 * c * s * h i j + c * c * h j j) ∧
    (∀ k, (k < N)%nat → k ≠ i → k ≠ j →
       entry H' i k = VNum (c * h i k - s * h j k) ∧
       entry H' k i = VNum (c * h i k - s * h j k) ∧
       entry H' j k = VNum (s * h i k + c * h j k) ∧
       entry H' k j = VNum (s * h i k + c * h j k)) ∧
    (∀ p q, p ≠ i → p ≠ j → q ≠ i → q ≠ j → entry H' p q = entry Hij p q).
Proof.
  intros Hs Hi Hj Hne c s h.
  destruct (x1_entries N Hij theta i j) as (H' & E & Hs' & He); [done..|].
  exists H'. split; [done|]. split; [done|].
  destruct (modified_entries N Hij
    (VNum (c * c * h i i - 2 * c * s * h i j + s * s * h j j))
    (VNum (s * s * h i i + 2 * c * s * h i j + c * c * h j j))
    (fun k => VNum (c * h i k - s * h j k))
    (fun k => VNum (s * h i k + c * h j k)) i j Hi Hj Hne) as (Hii & Hjj & Hk & Hframe).
  rewrite !He. split; [done|]. split; [done|]. split.
  - intros k Hlt Hki Hkj. rewrite !He. by apply Hk.
  - intros p q ? ? ? ?. rewrite He. by apply Hframe.
Qed.

(** X3.  The same for [x1Big], with the injected operations: the two diagonal
    entries of the pivot, the rows and columns [i] and [j] from the rows [i]
    and [j] of the matrix as it was, and every other entry as it was. *)
Theorem x1Big_entries_after_rotation N (Hij : matrix) theta (i j : nat) :
  square N Hij → (i < N)%nat → (j < N)%nat → i ≠ j →
  let c := bignumber (cos theta) in
  let s := bignumber (sin theta) in
  let c2 := multiplyScalar c c in
  let s2 := multiplyScalar s s in
  let csHij := multiply (multiply (multiply (VNum 2) c) s) (entry Hij i j) in
  ∃ H', x1Big Hij theta i j = Ok H' ∧ square N H' ∧
    entry H' i i = addScalar (subtract (multiplyScalar c2 (entry Hij i i)) csHij)
                             (multiplyScalar s2 (entry Hij j j)) ∧
    entry H' j j = add (add (multiplyScalar s2 (entry Hij i i)) csHij)
                       (multiplyScalar c2 (entry Hij j j)) ∧
    (∀ k, (k < N)%nat → k ≠ i → k ≠ j →
       let Aki := subtract (multiplyScalar c (entry Hij i k))
                           (multiplyScalar s (entry Hij j k)) in
       let Akj := addScalar (multiplyScalar s (entry Hij i k))
                            (multiplyScalar c (entry Hij j k)) in
       entry H' i k = Aki ∧ entry H' k i = Aki ∧
       entry H' j k = Akj ∧ entry H' k j = Akj) ∧
    (∀ p q, p ≠ i → p ≠ j → q ≠ i → q ≠ j → entry H' p q = entry Hij p q).
Proof.
  intros Hs Hi Hj Hne c s c2 s2 csHij.
  destruct (x1Big_entries N Hij theta i j) as (H' & E & Hs' & He); [done..|].
  exists H'. split; [done|]. split; [done|].
  destruct (modified_entries N Hij
    (addScalar (subtract (multiplyScalar c2 (entry Hij i i)) csHij)
               (multiplyScalar s2 (entry Hij j j)))
    (add (add (multiplyScalar s2 (entry Hij i i)) csHij)
         (multiplyScalar c2 (entry Hij j j)))
    (fun k => subtract (multiplyScalar c (entry Hij i k))
                       (multiplyScalar s (entry Hij j k)))
    (fun k => addScalar (multiplyScalar s (entry Hij i k))
                        (multiplyScalar c (entry Hij j k))) i j Hi Hj Hne)
    as (Hii & Hjj & Hk & Hframe).
  rewrite !He. split; [done|]. split; [done|]. split.
  - intros k Hlt Hki Hkj. simpl. rewrite !He. by apply Hk.
  - intros p q ? ? ? ?. rewrite He. by apply Hframe.
Qed.


End KernelExtras.


(** A matrix of three rows at the pivot [(0, 2)]: the entry in the middle is
    outside the rows and columns of the pivot. *)
Lemma x1_entries_after_rotation_witness :
  let Hij : list (list Reference.val) :=
    [[VNum 4; VNum 1; VNum 2]; [VNum 1; VNum 3; VNum 0]; [VNum 2; VNum 0; VNum 1]] in
  ∃ H', x1 Hij 0.5 0 2 = Ok H' ∧ square 3 H' ∧ entry H' 1 1 = VNum 3.
Proof.
  intros Hij.
  destruct (x1_entries_after_rotation 3 Hij 0.5 0 2)
    as (H' & E & Hs & _ & _ & _ & Hframe).
  - split; [reflexivity|]. repeat constructor.
  - lia.
  - lia.
  - lia.
  - exists H'. split; [done|]. split; [done|]. by rewrite Hframe by lia.
Defined.

Lemma x1Big_entries_after_rotation_witness :
  let Hij : list (list Reference.val) :=
    [[VBig 4%Z; VBig 1%Z; VBig 2%Z]; [VBig 1%Z; VBig 3%Z; VBig 0%Z];
     [VBig 2%Z; VBig 0%Z; VBig 1%Z]] in
  ∃ H', x1Big Hij (VBig 1%Z) 0 2 = Ok H' ∧ square 3 H' ∧ entry H' 1 1 = VBig 3%Z.
Proof.
  intros Hij.
  destruct (x1Big_entries_after_rotation 3 Hij (VBig 1%Z) 0 2)
    as (H' & E & Hs & _ & _ & _ & Hframe).
  - split; [reflexivity|]. repeat constructor.
  - lia.
  - lia.
  - lia.
  - exists H'. split; [done|]. split; [done|]. by rewrite Hframe by lia.
Defined.


(** ** The pivot, whatever the entries *)

(** A number that is above another is not NaN. *)
Lemma ltb_true_not_nan x y : (x <? y) = true → PrimFloat.is_nan y = false.
Proof.
  rewrite is_nan_spec, FloatAxioms.ltb_spec. unfold SFltb, SFcompare.
  intros H E. rewrite E in H. by destruct (Prim2SF x) as [[]|[]| |[] mx ex].
Qed.

Section PivotExtras.
Context {Big Frac : Type} `{!Runtime Big Frac} `{!MathJS Big Frac}.
#[local] Abbreviation val := (value Big Frac).
#[local] Abbreviation matrix := (list (list (value Big Frac))).

(** X5.  For every matrix, whatever its entries: the magnitude that [getAij]
    returns is a number other than NaN and its own absolute value; no entry
    above the diagonal has a magnitude above it, an entry whose magnitude is
    NaN (a missing one, a string that is no number) never being selected; the
    pair returned is the initial [(0, 1)] with the magnitude [0], or a
    position above the diagonal that holds the magnitude.  From two rows on
    the pair is a position above the diagonal in every case; below two rows
    it is the initial pair, which is no position of the matrix. *)
Theorem getAij_ignores_NaN (Mij : matrix) :
  let N := length Mij in
  let mag p q := PrimFloat.abs (ToNumber (entry Mij p q)) in
  ∃ i j m, getAij Mij = ((i, j), m) ∧
    PrimFloat.is_nan m = false ∧ PrimFloat.abs m = m ∧
    (∀ p q, (p < q < N)%nat → (m <? mag p q) = false) ∧
    ((i = 0%nat ∧ j = 1%nat ∧ m = 0) ∨ ((i < j < N)%nat ∧ m = mag i j)) ∧
    ((2 ≤ N)%nat → (i < j < N)%nat) ∧
    ((N < 2)%nat → i = 0%nat ∧ j = 1%nat ∧ m = 0).
Proof.
  intros N mag.
  pose (Inv := fun (seen : nat → nat → Prop) (acc : nat * nat * float) =>
    PrimFloat.is_nan (snd acc) = false ∧ PrimFloat.abs (snd acc) = snd acc ∧
    (∀ p q, seen p q → (snd acc <? mag p q) = false) ∧
    (acc = ((0%nat, 1%nat), 0) ∨
     ((fst (fst acc) < snd (fst acc) < N)%nat ∧
      snd acc = mag (fst (fst acc)) (snd (fst acc))))).
  assert (∀ (seen seen' : nat → nat → Prop) acc,
            (∀ p q, seen' p q → seen p q) → Inv seen acc → Inv seen' acc) as Hweak.
  { intros seen seen' acc Hsub (H1 & H2 & H3 & H4). repeat split; auto. }
  assert (Inv (fun p q => (p < q < N)%nat ∧ (p < 0 + N)%nat) (getAij Mij)) as Hinv.
  { unfold getAij. fold N.
    apply (foldl_seq_invariant
      (fun t acc => Inv (fun p q => (p < q < N)%nat ∧ (p < t)%nat) acc)).
    { repeat split; [by intros p q [_ ?]; lia|by left]. }
    intros t acc Ht Hacc.
    apply (Hweak (fun p q => (p < q < N)%nat ∧
                    ((p < t)%nat ∨ (p = t ∧ q < (t + 1) + (N - (t + 1)))%nat))).
    { intros p q. lia. }
    apply (foldl_seq_invariant
      (fun u acc => Inv (fun p q => (p < q < N)%nat ∧
                           ((p < t)%nat ∨ (p = t ∧ q < u)%nat)) acc)).
    { revert Hacc. apply Hweak. intros p q. lia. }
    intros u [[i j] m] Hu (Hnan & Habs & Hmax & Hwhere). simpl in *.
    unfold getAij_step. fold (mag t u). rewrite Habs.
    destruct (m <? mag t u) eqn:Hlt.
    - split; [|split; [|split]]; simpl.
      + by apply (ltb_true_not_nan m).
      + apply abs_idem.
      + intros p q [Hpq [Hp|[-> Hq]]].
        * destruct (mag t u <? mag p q) eqn:E; [|done].
          assert ((m <? mag p q) = true) as Hm by (by eapply ltb_trans).
          rewrite Hmax in Hm; [done|]. lia.
        * destruct (decide (q = u)) as [->|]; [apply ltb_irrefl|].
          destruct (mag t u <? mag t q) eqn:E; [|done].
          assert ((m <? mag t q) = true) as Hm by (by eapply ltb_trans).
          rewrite Hmax in Hm; [done|]. lia.
      + right. split; [lia|done].
    - split; [done|]. split; [done|]. split; [|done]. simpl.
      intros p q [Hpq [Hp|[-> Hq]]]; [apply Hmax; lia|].
      destruct (decide (q = u)) as [->|]; [done|]. apply Hmax. lia. }
  destruct (getAij Mij) as [[i j] m]. destruct Hinv as (Hnan & Habs & Hmax & Hwhere).
  simpl in *. exists i, j, m. split; [done|]. split; [done|]. split; [done|].
  split; [intros p q Hpq; apply Hmax; lia|].
  split; [destruct Hwhere as [[= -> -> ->]|[? ?]]; [by left|by right]|].
  split.
  - intros HN. destruct Hwhere as [[= -> -> ->]|[? ?]]; lia.
  - intros HN. destruct Hwhere as [[= -> -> ->]|[? ?]]; [done|lia].
Qed.

(** X6.  For every matrix, whatever its entries and whatever the operator [<]
    makes of them: [getAijBig] returns the initial pair [(0, 1)] with the
    native number [0], or a position above the diagonal with [abs] of the
    entry there.  From two rows on the pair is a position above the diagonal
    in every case. *)
Theorem getAijBig_returns_an_entry_above_the_diagonal (Mij : matrix) :
  let N := length Mij in
  ∃ i j m, getAijBig Mij = ((i, j), m) ∧
    ((i = 0%nat ∧ j = 1%nat ∧ m = VNum 0) ∨
     ((i < j < N)%nat ∧ m = abs (entry Mij i j))) ∧
    ((2 ≤ N)%nat → (i < j < N)%nat) ∧
    ((N < 2)%nat → i = 0%nat ∧ j = 1%nat ∧ m = VNum 0).
Proof.
  intros N.
  pose (Inv := fun (acc : nat * nat * val) =>
    acc = ((0%nat, 1%nat), VNum 0) ∨
    ((fst (fst acc) < snd (fst acc) < N)%nat ∧
     snd acc = abs (entry Mij (fst (fst acc)) (snd (fst acc))))).
  assert (Inv (getAijBig Mij)) as Hinv.
  { unfold getAijBig. fold N.
    apply (foldl_seq_invariant (fun _ acc => Inv acc) _ 0 N); [by left|].
    intros t acc Ht Hacc.
    apply (foldl_seq_invariant (fun _ acc => Inv acc) _ (t + 1) (N - (t + 1)));
      [done|].
    intros u [[i j] m] Hu Hacc'. unfold getAijBig_step.
    destruct (js_lt _ _); [|done]. right. simpl. split; [lia|done]. }
  destruct (getAijBig Mij) as [[i j] m]. exists i, j, m. split; [done|].
  destruct Hinv as [[= -> -> ->]|[Hij Hm]]; simpl in *.
  - split; [by left|]. split; [lia|done].
  - split; [by right|]. split; [done|lia].
Qed.

End PivotExtras.

(** ** Sorting, whatever the values *)

Section SortingLemmas.
Context {Big Frac : Type} `{!Runtime Big Frac}.
#[local] Abbreviation val := (value Big Frac).
#[local] Abbreviation matrix := (list (list (value Big Frac))).

(** Once a round of a loop has thrown, the loop has. *)
Lemma for_range_thrown {St : Type} (body : nat → St → result St) s k n e :
  for_range k body s = Throw e → (k ≤ n)%nat → for_range n body s = Throw e.
Proof.
  intros Hk Hle. induction n as [|n IH].
  - by replace k with 0%nat in Hk by lia.
  - destruct (decide (k = S n)) as [->|]; [done|].
    rewrite for_range_S, IH by lia. done.
Qed.

(** The index that the inner loop of [sorting] leaves is one of the array. *)
Lemma sorting_min_lt (E : list val) : E ≠ [] → (sorting_min E < length E)%nat.
Proof.
  intros Hne. assert (0 < length E)%nat as Hlen by (destruct E; [done|simpl; lia]).
  unfold sorting_min.
  apply (foldl_seq_invariant (fun _ (acc : nat * val) => (fst acc < length E)%nat));
    [done|].
  intros j [m v] Hj Hm. destruct (js_lt _ _); simpl in *; lia.
Qed.

(** It is the first one when no element is below the first. *)
Lemma sorting_min_first (E : list val) :
  (∀ j, (0 < j < length E)%nat → js_lt (arr_get E j) (arr_get E 0) = false) →
  sorting_min E = 0%nat.
Proof.
  intros Hsorted. unfold sorting_min.
  assert (foldl (fun '(minID, minE) j =>
                   if js_lt (arr_get E j) minE then (j, arr_get E j)
                   else (minID, minE))
                (0%nat, arr_get E 0) (seq 0 (length E)) = (0%nat, arr_get E 0)) as ->;
    [|done].
  apply (foldl_seq_invariant (fun _ (acc : nat * val) => acc = (0%nat, arr_get E 0)));
    [done|].
  intros j acc Hj ->. destruct j as [|j]; [by destruct (js_lt _ _)|].
  rewrite Hsorted by lia. done.
Qed.

(** One round of [sorting] moves one position from those that remain to
    those taken, whatever the values are. *)
Lemma sorting_round_moves (E0 : list val) (S0 : matrix) i (pi idx : list nat) :
  let N := length E0 in
  length S0 = N → (i < N)%nat → length pi = i → pi ++ idx ≡ₚ seq 0 N →
  ∃ pi' idx', length pi' = S i ∧ pi' ++ idx' ≡ₚ seq 0 N ∧
    sorting_round N i
      (pick E0 idx, (fun r => pick r idx) <$> S0,
       pick E0 pi ++ replicate (N - i) VUndef,
       (fun r => pick r pi ++ replicate (N - i) VUndef) <$> S0)
    = Ok (pick E0 idx', (fun r => pick r idx') <$> S0,
          pick E0 pi' ++ replicate (N - S i) VUndef,
          (fun r => pick r pi' ++ replicate (N - S i) VUndef) <$> S0).
Proof.
  intros N HS Hi Hlen Hperm.
  assert (length idx = (N - i)%nat) as Hidx.
  { apply Permutation_length in Hperm. rewrite length_app, length_seq in Hperm. lia. }
  set (E := pick E0 idx).
  assert (length E = length idx) as HlenE by (unfold E, pick; by rewrite length_fmap).
  assert (E ≠ []) as Hne.
  { intros HE. rewrite HE in HlenE. simpl in HlenE. lia. }
  pose proof (sorting_min_lt E Hne) as Hm.
  set (m := sorting_min E) in *.
  destruct (lookup_lt_is_Some_2 idx m) as [p Ep]; [lia|].
  exists (pi ++ [p]), (delete m idx).
  split; [rewrite length_app; simpl; lia|]. split.
  { rewrite <- Hperm, <- app_assoc. apply Permutation_app_head. simpl.
    symmetry. by apply delete_Permutation. }
  unfold sorting_round. fold E. fold m. rewrite <- HS at 1.
  rewrite (sorting_rows S0 (fun r => pick r idx)
             (fun r => pick r pi ++ replicate (N - i) VUndef) m i).
  rewrite bind_Ok. f_equal. f_equal; [f_equal; [f_equal|]|].
  - unfold E, pick. by rewrite fmap_delete.
  - apply list_fmap_ext. intros _ r _. unfold pick. by rewrite fmap_delete.
  - replace (N - i)%nat with (S (N - S i)) by lia.
    rewrite arr_set_next by (unfold pick; by rewrite length_fmap).
    unfold E. rewrite (arr_get_pick E0 idx m p Ep).
    unfold pick. rewrite fmap_app. done.
  - apply list_fmap_ext. intros _ r _.
    replace (N - i)%nat with (S (N - S i)) by lia.
    rewrite arr_set_next by (unfold pick; by rewrite length_fmap).
    rewrite (arr_get_pick r idx m p Ep).
    unfold pick. rewrite fmap_app. done.
Qed.

(** [sorting] rearranges by a permutation of the positions, whatever the
    values are. *)
Lemma sorting_rearranges (E : list val) (Sv : matrix) :
  square (length E) Sv →
  ∃ pi, pi ≡ₚ seq 0 (length E) ∧
        sorting E Sv = Ok (pick E pi, (fun r => pick r pi) <$> Sv).
Proof.
  intros [Hlen Hrows]. unfold sorting. set (N := length E) in *.
  destruct (for_range_invariant
    (fun i st => ∃ pi idx : list nat,
       length pi = i ∧ pi ++ idx ≡ₚ seq 0 N ∧
       st = (pick E idx, (fun r => pick r idx) <$> Sv,
             pick E pi ++ replicate (N - i) VUndef,
             (fun r => pick r pi ++ replicate (N - i) VUndef) <$> Sv))
    N (sorting_round N)
    (E, Sv, replicate N VUndef, replicate N (replicate N VUndef)))
    as (st & -> & pi & idx & Hpi & Hperm & ->).
  - destruct (sorting_inv_init E Sv) as (pi & idx & Hpi & Hperm & _ & E0 & _); [done|].
    by exists pi, idx.
  - intros i st Hi (pi & idx & Hpi & Hperm & ->).
    destruct (sorting_round_moves E Sv i pi idx) as (pi' & idx' & Hpi' & Hperm' & E');
      [done..|].
    eexists. split; [exact E'|]. by exists pi', idx'.
  - assert (idx = []) as ->.
    { apply Permutation_length in Hperm. rewrite length_app, length_seq in Hperm.
      apply length_zero_iff_nil. lia. }
    rewrite app_nil_r in Hperm. exists pi. split; [done|].
    rewrite bind_Ok, Nat.sub_diag. simpl. rewrite app_nil_r. do 2 f_equal.
    apply list_fmap_ext. intros. by rewrite app_nil_r.
Qed.

Lemma pick_Permutation (a : list val) (pi : list nat) :
  pi ≡ₚ seq 0 (length a) → pick a pi ≡ₚ a.
Proof.
  intros Hperm. rewrite <- (pick_seq a) at 2. unfold pick. by rewrite Hperm.
Qed.

End SortingLemmas.

Section SortingExtras.
Context {Big Frac : Type} `{!Runtime Big Frac}.
#[local] Abbreviation val := (value Big Frac).
#[local] Abbreviation matrix := (list (list (value Big Frac))).

(** X7.  Whatever the values are (NaN, strings, values that [<] does not put in
    order), [sorting] on [N] values and a transform of [N] rows and columns
    does not throw; it returns the values rearranged by a permutation of the
    positions and the columns of the transform rearranged by the same
    permutation.  No value is lost or repeated, and the result has [N] values
    and [N] rows and columns. *)
Theorem sorting_rearranges_any_values (E : list val) (Sv : matrix) :
  square (length E) Sv →
  ∃ (pi : list nat) (Ef : list val) (Sf : matrix),
    sorting E Sv = Ok (Ef, Sf) ∧
    pi ≡ₚ seq 0 (length E) ∧
    Ef = pick E pi ∧ Ef ≡ₚ E ∧
    Sf = (fun r => pick r pi) <$> Sv ∧
    length Ef = length E ∧ square (length E) Sf ∧
    (∀ k i p, pi !! i = Some p → entry Sf k i = entry Sv k p).
Proof.
  intros Hsq. destruct (sorting_rearranges E Sv Hsq) as (pi & Hperm & Es).
  exists pi, (pick E pi), ((fun r => pick r pi) <$> Sv).
  assert (length pi = length E) as Hpi.
  { apply Permutation_length in Hperm. by rewrite length_seq in Hperm. }
  split; [done|]. split; [done|]. split; [done|].
  split; [by apply pick_Permutation|]. split; [done|].
  split; [unfold pick; by rewrite length_fmap|]. split.
  - destruct Hsq as [Hlen Hrows]. split; [by rewrite length_fmap|].
    apply Forall_fmap, Forall_forall. intros r _. simpl. unfold pick.
    by rewrite length_fmap.
  - intros k i p Hp. unfold entry. rewrite list_lookup_fmap.
    destruct (Sv !! k) as [r|]; simpl; [|done]. by apply arr_get_pick.
Qed.

(** X8.  When no value is below an earlier one, [sorting] returns the values and
    the transform as they were. *)
Theorem sorting_keeps_sorted_input (E : list val) (Sv : matrix) :
  square (length E) Sv →
  (∀ a b, (a < b < length E)%nat → js_lt (arr_get E b) (arr_get E a) = false) →
  sorting E Sv = Ok (E, Sv).
Proof.
  intros [Hlen Hrows] Hsorted. unfold sorting. set (N := length E) in *.
  destruct (for_range_invariant
    (fun i st =>
       st = (drop i E, drop i <$> Sv,
             take i E ++ replicate (N - i) VUndef,
             (fun r => take i r ++ replicate (N - i) VUndef) <$> Sv))
    N (sorting_round N)
    (E, Sv, replicate N VUndef, replicate N (replicate N VUndef)))
    as (st & -> & ->).
  - assert (drop 0 <$> Sv = Sv) as ->.
    { rewrite <- (list_fmap_id Sv) at 2. apply list_fmap_ext. intros. by rewrite drop_0. }
    assert ((fun r : list val => take 0 r ++ replicate (N - 0) VUndef) <$> Sv
            = replicate N (replicate N VUndef)) as ->.
    { transitivity (replicate (length Sv) (replicate N (VUndef : val)));
        [|by rewrite Hlen].
      apply const_fmap. intros r. simpl. by rewrite Nat.sub_0_r. }
    by rewrite drop_0, take_0, Nat.sub_0_r.
  - intros i st Hi ->. eexists. split; [|reflexivity].
    assert (∀ (r : list val), length r = N →
              arr_set (take i r ++ replicate (N - i) VUndef) i (arr_get (drop i r) 0)
              = take (S i) r ++ replicate (N - S i) VUndef) as Hset.
    { intros r Hr. destruct (lookup_lt_is_Some_2 r i) as [v Ev]; [lia|].
      replace (N - i)%nat with (S (N - S i)) by lia.
      rewrite arr_set_next by (rewrite length_take; lia).
      rewrite (take_S_r _ _ _ Ev). unfold arr_get.
      by rewrite lookup_drop, Nat.add_0_r, Ev. }
    assert (∀ (r : list val), delete 0%nat (drop i r) = drop (S i) r) as Hdel.
    { intros r. replace (S i) with (i + 1)%nat by lia. rewrite <- drop_drop.
      by destruct (drop i r). }
    assert (sorting_min (drop i E) = 0%nat) as Hmin.
    { apply sorting_min_first. intros j Hj. rewrite length_drop in Hj.
      unfold arr_get. rewrite !lookup_drop.
      apply (Hsorted (i + 0)%nat (i + j)%nat). fold N. lia. }
    unfold sorting_round. rewrite Hmin. rewrite <- Hlen at 1.
    rewrite (sorting_rows Sv (drop i)
               (fun r => take i r ++ replicate (N - i) VUndef) 0 i).
    rewrite bind_Ok. f_equal. f_equal; [f_equal; [f_equal|]|].
    + apply Hdel.
    + apply list_fmap_ext. intros _ r _. apply Hdel.
    + by apply Hset.
    + apply list_fmap_ext. intros k r Hr. apply Hset.
      by apply (Forall_lookup_1 _ _ _ _ Hrows Hr).
  - rewrite bind_Ok, Nat.sub_diag. simpl. f_equal. f_equal.
    + rewrite app_nil_r. by apply take_ge.
    + rewrite <- (list_fmap_id Sv) at 2. apply list_fmap_ext. intros k r Hr. simpl.
      rewrite app_nil_r. apply take_ge.
      by rewrite (Forall_lookup_1 _ _ _ _ Hrows Hr).
Qed.

(** X9.  When the transform has fewer rows than there are values, [sorting]
    throws the [TypeError] of reading an element of [undefined]. *)
Theorem sorting_needs_a_row_per_value (E : list val) (Sv : matrix) :
  (length Sv < length E)%nat → sorting E Sv = Throw undefined_read.
Proof.
  intros Hshort. unfold sorting. set (N := length E) in *.
  set (Ef := replicate N (VUndef : val)).
  set (Sf := replicate N (replicate N (VUndef : val))).
  set (m := sorting_min E).
  set (rows := fun (k : nat) '((Sv, Sf) : matrix * matrix) =>
    v ← mat_get Sv k m; Sf ← mat_set Sf k 0 v; Sv ← mat_splice Sv k m;
    Ok (Sv, Sf)).
  assert (∀ k, for_range k rows (Sv, Sf) = Throw undefined_read ∨
               ∃ Sv' Sf', for_range k rows (Sv, Sf) = Ok (Sv', Sf') ∧
                          length Sv' = length Sv) as Hrows.
  { induction k as [|k IH]; [right; by exists Sv, Sf|].
    rewrite for_range_S. destruct IH as [->|(Sv' & Sf' & -> & Hl)]; [by left|].
    rewrite bind_Ok. unfold rows, mat_get, mat_set, mat_splice.
    destruct (Sv' !! k) as [r|]; [|by left]. rewrite bind_Ok.
    destruct (Sf' !! k) as [r'|]; [|by left]. rewrite !bind_Ok.
    right. do 2 eexists. split; [done|]. by rewrite length_insert. }
  assert (for_range N rows (Sv, Sf) = Throw undefined_read) as Hthrow.
  { apply (for_range_thrown rows (Sv, Sf) (S (length Sv))); [|lia].
    rewrite for_range_S.
    destruct (Hrows (length Sv)) as [->|(Sv' & Sf' & -> & Hl)]; [done|].
    rewrite bind_Ok. unfold rows, mat_get.
    by rewrite (lookup_ge_None_2 Sv') by lia. }
  rewrite (for_range_thrown (sorting_round N) (E, Sv, Ef, Sf) 1 N undefined_read);
    [done| |lia].
  rewrite for_range_S, for_range_0, bind_Ok. unfold sorting_round.
  fold m. fold rows. by rewrite Hthrow.
Qed.

End SortingExtras.

(** Values that [<] does not put in order: a NaN among numbers. *)
Lemma sorting_rearranges_any_values_witness :
  let E : list Reference.val := [VNum 3; VNum nan; VNum 1] in
  let Sv : list (list Reference.val) :=
    [[VNum 0; VNum 1; VNum 2]; [VNum 10; VNum 11; VNum 12];
     [VNum 20; VNum 21; VNum 22]] in
  ∃ (pi : list nat) (Ef : list Reference.val) (Sf : list (list Reference.val)),
    sorting E Sv = Ok (Ef, Sf) ∧
    pi ≡ₚ seq 0 (length E) ∧
    Ef = pick E pi ∧ Ef ≡ₚ E ∧
    Sf = (fun r => pick r pi) <$> Sv ∧
    length Ef = length E ∧ square (length E) Sf ∧
    (∀ k i p, pi !! i = Some p → entry Sf k i = entry Sv k p).
Proof.
  intros E Sv. apply (sorting_rearranges_any_values E Sv).
  split; [reflexivity|]. repeat constructor.
Defined.

Lemma sorting_keeps_sorted_input_witness :
  sorting [VNum 1; VNum 2; VNum 2 : Reference.val]
    [[VNum 0; VNum 1; VNum 2]; [VNum 10; VNum 11; VNum 12];
     [VNum 20; VNum 21; VNum 22]]
  = Ok ([VNum 1; VNum 2; VNum 2],
        [[VNum 0; VNum 1; VNum 2]; [VNum 10; VNum 11; VNum 12];
         [VNum 20; VNum 21; VNum 22]]).
Proof.
  apply (sorting_keeps_sorted_input [VNum 1; VNum 2; VNum 2 : Reference.val]).
  - split; [reflexivity|]. repeat constructor.
  - intros a b Hab. simpl in Hab.
    destruct a as [|[|a]]; destruct b as [|[|[|b]]]; try lia; reflexivity.
Defined.

Lemma sorting_needs_a_row_per_value_witness :
  sorting [VNum 2; VNum 1 : Reference.val] [[VNum 1; VNum 0]]
  = Throw undefined_read.
Proof.
  apply (sorting_needs_a_row_per_value [VNum 2; VNum 1 : Reference.val]).
  simpl. lia.
Defined.

(** ** What [diag] and [diagBig] return *)

Section RoundsLemmas.
Context {Big Frac : Type} `{!Runtime Big Frac} `{!MathJS Big Frac}.
#[local] Abbreviation val := (value Big Frac).
#[local] Abbreviation matrix := (list (list (value Big Frac))).


(** One round of [diag] leaves numbers in the transform. *)
Lemma diag_body_numbers N (x Sij : matrix) :
  (2 ≤ N)%nat → square N x → square N Sij → all_numbers N Sij →
  ∃ x' Sij', diag_body (x, Sij, getAij x) = Ok (x', Sij', getAij x') ∧
             square N x' ∧ square N Sij' ∧ all_numbers N Sij'.
Proof.
  intros HN Hx HS Hnum. unfold diag_body.
  destruct (pivot_in_range N (fst (getAij x)) HN) as (Hi & Hj & Hne).
  { replace N with (length x) by (by destruct Hx). apply getAij_range. }
  set (i := fst (fst (getAij x))) in *. set (j := snd (fst (getAij x))) in *.
  rewrite !(mat_get_entry N), !bind_Ok by done.
  destruct (x1_spec N x (getTheta (entry x i i) (entry x j j) (entry x i j)) i j)
    as (Aii & Ajj & Aki & Akj & x' & -> & Hx' & Ex'); [done..|].
  rewrite bind_Ok. unfold Sij1.
  replace (length Sij) with N by (by destruct HS).
  edestruct (Sij1_write_spec N Sij) as (S' & -> & HS' & ES'); [done..|].
  rewrite bind_Ok. exists x', S'. split; [done|]. split; [done|]. split; [done|].
  intros r c Hr Hc. rewrite ES'.
  repeat case_decide; [rewrite arr_get_build by done; eauto..|by apply Hnum].
Qed.

Lemma diag_rounds_numbers N n (x Sij : matrix) :
  (2 ≤ N)%nat → square N x → square N Sij → all_numbers N Sij →
  ∃ x' Sij', iterate diag_body n (x, Sij, getAij x) = Ok (x', Sij', getAij x') ∧
             square N x' ∧ square N Sij' ∧ all_numbers N Sij'.
Proof.
  intros HN. revert x Sij. induction n as [|n IH]; intros x Sij Hx HS Hnum.
  - by exists x, Sij.
  - destruct (diag_body_numbers N x Sij) as (x1 & S1 & E1 & Hx1 & HS1 & Hn1); [done..|].
    destruct (IH x1 S1) as (x2 & S2 & E2 & Hx2 & HS2 & Hn2); [done..|].
    exists x2, S2. by rewrite iterate_S, E1, bind_Ok.
Qed.

(** What a loop can come to when no round throws from the states it goes
    through. *)
Lemma while_loop_outcome {St : Type} (cond : St → bool) (body : St → result St)
    (P : St → Prop) fuel s :
  P s → (∀ s, P s → ∃ s', body s = Ok s' ∧ P s') →
  while_loop fuel cond body s = None ∨
  ∃ n s', while_loop fuel cond body s = Some (Ok s') ∧
          iterate body n s = Ok s' ∧ P s' ∧ cond s' = false.
Proof.
  intros Hs Hstep. revert s Hs. induction fuel as [|fuel IH]; intros s Hs; simpl.
  - by left.
  - destruct (cond s) eqn:Hc.
    + destruct (Hstep s Hs) as (s1 & E1 & H1). rewrite E1.
      destruct (IH s1 H1) as [->|(n & s' & -> & Hit & H' & Hc')]; [by left|].
      right. exists (S n), s'. split; [done|]. by rewrite iterate_S, E1, bind_Ok.
    + right. by exists 0%nat, s.
Qed.

End RoundsLemmas.

Section LoopExtras.
Context {Big Frac : Type} `{!Runtime Big Frac} `{!MathJS Big Frac}.
#[local] Abbreviation val := (value Big Frac).
#[local] Abbreviation matrix := (list (list (value Big Frac))).


(** X11.  On a matrix of one row, with the default precision, [diag] returns the
    first element of the row as the only value and [[1]] as the transform,
    without a round, whatever that element is; on the empty matrix it returns
    no value and no vector, whatever the precision. *)
Theorem diag_on_one_row_and_on_none (fuel : nat) :
  (∀ r : list val,
     diag (S fuel) [r] default_precision = Some (Ok ([arr_get r 0], [[VNum 1]]))) ∧
  (∀ precision, diag (S fuel) ([] : matrix) precision = Some (Ok ([], []))).
Proof.
  assert (∀ (e0 : float) (st : diag_state), diag_cond e0 st = false →
            while_loop (S fuel) (diag_cond e0) diag_body st = Some (Ok st)) as Hout.
  { intros e0 st Hc. simpl. by rewrite Hc. }
  split.
  - intros r. unfold diag. rewrite Hout by reflexivity.
    change (getAij [r]) with ((0%nat, 1%nat), 0).
    change (identity (length [r])) with [[VNum 1 : val]].
    change (diagonal (length [r]) [r]) with [arr_get r 0].
    unfold sorting, for_range, sorting_round, sorting_min. simpl.
    by destruct (js_lt _ _).
  - intros precision. unfold diag. rewrite Hout; [done|].
    unfold diag_cond. simpl.
    rewrite FloatAxioms.leb_spec, !FloatAxioms.abs_spec, FloatAxioms.div_spec.
    change (Prim2SF (length_number 0)) with (S754_zero false).
    change (Prim2SF 0) with (S754_zero false).
    by destruct (Prim2SF precision) as [[]|[]| |[] m e].
Qed.

End LoopExtras.


(** ** The earlier file and the later *)

Section EarlierExtras.
Context {Big Frac : Type} `{!Runtime Big Frac} `{!MathJS Big Frac}.
#[local] Abbreviation val := (value Big Frac).
#[local] Abbreviation matrix := (list (list (value Big Frac))).

(** X23.  The later [eigs.js] against the earlier one.  [Sij1] computes the
    same with the cosine and the sine taken from [Rot] as with those taken
    from [Math.cos] and [Math.sin]; the rounds of the two [diag] are the same,
    so that the later [diag] is [sorting] on what the earlier one returns.  On
    a matrix of [N >= 2] rows and columns the later result is therefore the
    earlier one under one permutation of the positions, applied to the values
    and to the columns of the vectors. *)
Theorem later_diag_sorts_the_earlier (fuel : nat) (x : matrix)
    (precision : float) :
  (∀ Sij theta i j, Earlier.Sij1 Sij theta i j = Sij1 Sij theta i j) ∧
  diag fuel x precision
    = match Earlier.diag fuel x precision with
      | None => None
      | Some (Throw e) => Some (Throw e)
      | Some (Ok (Ei, Sij)) => Some (sorting Ei Sij)
      end ∧
  ((2 ≤ length x)%nat → square (length x) x → ∀ Ei Sij,
     Earlier.diag fuel x precision = Some (Ok (Ei, Sij)) →
     ∃ pi, pi ≡ₚ seq 0 (length x) ∧
           diag fuel x precision
           = Some (Ok (pick Ei pi, (fun r => pick r pi) <$> Sij))).
Proof.
  assert (Earlier.diag_body (Big := Big) (Frac := Frac) = diag_body) as Hbody
    by reflexivity.
  assert (diag fuel x precision
          = match Earlier.diag fuel x precision with
            | None => None
            | Some (Throw e) => Some (Throw e)
            | Some (Ok (Ei, Sij)) => Some (sorting Ei Sij)
            end) as Hsame.
  { unfold diag, Earlier.diag. rewrite Hbody.
    by destruct (while_loop _ _ _ _) as [[[[x' Sij'] Vab']|e]|]. }
  split; [done|]. split; [done|].
  intros HN Hx Ei Sij Hearlier. rewrite Hsame, Hearlier.
  unfold Earlier.diag in Hearlier. rewrite Hbody in Hearlier.
  destruct (while_loop_outcome
    (diag_cond (PrimFloat.abs (precision / length_number (length x)))) diag_body
    (fun st => ∃ x' Sij', st = (x', Sij', getAij x') ∧ square (length x) x' ∧
                          square (length x) Sij')
    fuel (x, identity (length x), getAij x))
    as [Hnone|(n & st & Hsome & _ & (x' & Sij' & -> & Hx' & HS') & _)].
  - exists x, (identity (length x)). split; [done|]. split; [done|].
    apply identity_square.
  - intros st (x1 & S1 & -> & Hx1 & HS1).
    destruct (diag_body_ok (length x) x1 S1) as (x2 & S2 & E2 & Hx2 & HS2 & _);
      [done..|].
    eexists. split; [exact E2|]. by exists x2, S2.
  - by rewrite Hnone in Hearlier.
  - rewrite Hsome in Hearlier. injection Hearlier as <- <-.
    assert (length (diagonal (length x) x') = length x) as Hlen.
    { unfold diagonal, build. by rewrite length_fmap, length_seq. }
    destruct (sorting_rearranges (diagonal (length x) x') Sij') as (pi & Hperm & Es).
    { by rewrite Hlen. }
    rewrite Hlen in Hperm. exists pi. split; [done|]. by rewrite Es.
Qed.

End EarlierExtras.

(** A diagonal matrix whose diagonal is not in order: the earlier [diag]
    returns it as it is, the later one in order, the columns along. *)
Example earlier_diag_run :
  Earlier.diag 1 [[VNum 2; VNum 0]; [VNum 0; VNum 1 : Reference.val]]
    default_precision
  = Some (Ok ([VNum 2; VNum 1], [[VNum 1; VNum 0]; [VNum 0; VNum 1]])) ∧
  diag 1 [[VNum 2; VNum 0]; [VNum 0; VNum 1 : Reference.val]] default_precision
  = Some (Ok ([VNum 1; VNum 2], [[VNum 0; VNum 1]; [VNum 1; VNum 0]])).
Proof. split; vm_compute; reflexivity. Qed.

(** ** [eigs] and [checkAndSubmit] *)

Section ValidatorLemmas.
Context {Big Frac Arr : Type} `{!Runtime Big Frac} `{!MathJS Big Frac}
        `{!Collaborators Big Frac Arr}.
#[local] Abbreviation val := (value Big Frac).
#[local] Abbreviation matrix := (list (list (value Big Frac))).
#[local] Abbreviation heap := (store Big Frac).

(** [eigs] is [checkAndSubmit] on a matrix whose size is that of a square. *)
Lemma eigs_Matrix_square fuel (x : Matrix) (h : heap) n :
  m_size x = [n; n] →
  eigs_Matrix fuel x h
  = (answer AsMatrix (fst (checkAndSubmit fuel x n h)), snd (checkAndSubmit fuel x n h)).
Proof.
  intros Hsize. unfold eigs_Matrix. rewrite Hsize. simpl. rewrite Nat.eqb_refl. simpl.
  by destruct (checkAndSubmit fuel x n h) as [[[ans|e]|] h'].
Qed.

Lemma eigs_Array_square fuel (arr : Arr) (h h' : heap) (x : Matrix) n :
  matrix_of_array arr h = Ok (x, h') → m_size x = [n; n] →
  eigs_Array fuel arr h
  = (answer AsArray (fst (checkAndSubmit fuel x n h')), snd (checkAndSubmit fuel x n h')).
Proof.
  intros Hmat Hsize. unfold eigs_Array. rewrite Hmat, Hsize. simpl.
  rewrite Nat.eqb_refl. simpl.
  by destruct (checkAndSubmit fuel x n h') as [[[ans|e]|] h''].
Qed.

(** The first copy that [checkAndSubmit] takes holds the elements of the
    matrix. *)
Lemma toArray_snapshot (x : Matrix) (h : heap) :
  (∀ l, l ∈ m_data x → is_Some (h !! l)) →
  snapshot (snd (toArray x h)) (fst (toArray x h)) = snapshot h (m_data x).
Proof.
  intros Hin. destruct (toArray x h) as [a h1] eqn:E1.
  destruct (toArray_spec x h a h1) as (_ & _ & Hcopy); [|done|].
  { intros l Hl. apply elem_of_dom. by apply Hin. }
  by apply copy_snapshot.
Qed.

Lemma toArray_keeps (x : Matrix) (h : heap) :
  (∀ l, l ∈ m_data x → is_Some (h !! l)) →
  ∀ l, l ∈ m_data x → is_Some (snd (toArray x h) !! l).
Proof.
  intros Hin l Hl. destruct (toArray x h) as [a h1] eqn:E1.
  destruct (toArray_spec x h a h1) as (Hkeep & _ & _); [|done|].
  { intros l' Hl'. apply elem_of_dom. by apply Hin. }
  simpl. rewrite Hkeep; [by apply Hin|]. apply elem_of_dom. by apply Hin.
Qed.

Lemma toArray_twice (x : Matrix) (h : heap) :
  (∀ l, l ∈ m_data x → is_Some (h !! l)) →
  snapshot (snd (toArray x (snd (toArray x h)))) (fst (toArray x (snd (toArray x h))))
  = snapshot h (m_data x).
Proof.
  intros Hin. rewrite toArray_snapshot by (by apply toArray_keeps).
  destruct (toArray x h) as [a h1] eqn:E1.
  destruct (toArray_spec x h a h1) as (Hkeep & _ & _); [|done|].
  { intros l' Hl'. apply elem_of_dom. by apply Hin. }
  simpl. apply snapshot_agree. intros l Hl. apply Hkeep. apply elem_of_dom. by apply Hin.
Qed.

End ValidatorLemmas.

Section ValidatorExtras.
Context {Big Frac Arr : Type} `{!Runtime Big Frac} `{!MathJS Big Frac}
        `{!Collaborators Big Frac Arr}.
#[local] Abbreviation val := (value Big Frac).
#[local] Abbreviation matrix := (list (list (value Big Frac))).
#[local] Abbreviation heap := (store Big Frac).

(** X12.  For a matrix whose size is that of a square and whose element type is
    none of ['number'], ['BigNumber'] and ['Fraction'], [eigs] throws a
    [TypeError]: 'Mixed matrix element type is not supported' for the type
    ['mixed'], 'Matrix element type not supported (t)' for any other type
    [t].  It does so in both signatures, without a look at the elements, and
    leaves the store as it was. *)
Theorem eigs_rejects_other_element_types (fuel : nat) (x : Matrix) (n : nat)
    (h : heap) :
  m_size x = [n; n] →
  element_type x ≠ "number" → element_type x ≠ "BigNumber" →
  element_type x ≠ "Fraction" →
  let refusal :=
    TypeError (if String.eqb (element_type x) "mixed"
               then "Mixed matrix element type is not supported"
               else "Matrix element type not supported (" ++ element_type x ++ ")") in
  eigs_Matrix fuel x h = (Some (Throw refusal), h) ∧
  ∀ (arr : Arr) h0, matrix_of_array arr h0 = Ok (x, h) →
    eigs_Array fuel arr h0 = (Some (Throw refusal), h).
Proof.
  intros Hsize Hn Hb Hf refusal.
  assert (checkAndSubmit fuel x n h = (Some (Throw refusal), h)) as Hcheck.
  { unfold checkAndSubmit. fold (element_type x).
    apply String.eqb_neq in Hn, Hb, Hf. rewrite Hn, Hb, Hf. simpl.
    unfold refusal. by destruct (String.eqb (element_type x) "mixed"). }
  split.
  - by rewrite (eigs_Matrix_square fuel x h n Hsize), Hcheck.
  - intros arr h0 Hmat. by rewrite (eigs_Array_square fuel arr h0 h x n Hmat Hsize), Hcheck.
Qed.

(** X13.  For a matrix of a supported type whose rows are in the store, [n]
    rows of [n] elements, and in which [equal(x[i][j], x[j][i])] is false for
    some [i <= j], [eigs] throws the [TypeError] 'Input matrix is not
    symmetric', in both signatures and whatever the fuel: no round of the
    iteration is made. *)
Theorem eigs_rejects_asymmetric_before_iterating (fuel : nat) (x : Matrix)
    (n i j : nat) (h : heap) :
  m_size x = [n; n] →
  element_type x = "number" ∨ element_type x = "BigNumber" ∨
    element_type x = "Fraction" →
  (∀ l, l ∈ m_data x → is_Some (h !! l)) →
  square n (snapshot h (m_data x)) →
  (i ≤ j < n)%nat →
  equal (entry (snapshot h (m_data x)) i j) (entry (snapshot h (m_data x)) j i)
    = false →
  fst (eigs_Matrix fuel x h)
    = Some (Throw (TypeError "Input matrix is not symmetric")) ∧
  ∀ (arr : Arr) h0, matrix_of_array arr h0 = Ok (x, h) →
    fst (eigs_Array fuel arr h0)
      = Some (Throw (TypeError "Input matrix is not symmetric")).
Proof.
  intros Hsize Htype Hin Hsq Hij Hneq.
  assert (isSymmetric (snapshot h (m_data x)) n
          = Throw (TypeError "Input matrix is not symmetric")) as Hsym.
  { unfold isSymmetric.
    destruct (isSymmetric_scan_spec n (snapshot h (m_data x)) (symmetric_pairs n))
      as (r & -> & Hr); [done| |].
    { intros [p q] Hp%elem_of_symmetric_pairs. simpl. lia. }
    destruct r as [p|]; [done|]. rewrite bind_Ok.
    specialize (Hr (i, j)). simpl in Hr. rewrite Hr in Hneq; [done|].
    by apply elem_of_symmetric_pairs. }
  assert (fst (checkAndSubmit fuel x n h)
          = Some (Throw (TypeError "Input matrix is not symmetric"))) as Hcheck.
  { unfold checkAndSubmit. fold (element_type x).
    assert (negb (String.eqb (element_type x) "number")
            && negb (String.eqb (element_type x) "BigNumber")
            && negb (String.eqb (element_type x) "Fraction") = false) as ->.
    { destruct Htype as [->|[->| ->]]; reflexivity. }
    pose proof (toArray_snapshot x h Hin) as Hsnap.
    destruct (toArray x h) as [a h1]. simpl in Hsnap. by rewrite Hsnap, Hsym. }
  split.
  - by rewrite (eigs_Matrix_square fuel x h n Hsize), Hcheck.
  - intros arr h0 Hmat. by rewrite (eigs_Array_square fuel arr h0 h x n Hmat Hsize), Hcheck.
Qed.

(** X14.  For a matrix whose size is that of a square, whose rows are in the
    store and which passes [isSymmetric]: when the type is ['number'], [eigs]
    answers with [diag] on the elements with the precision [1e-12]; when it is
    ['BigNumber'], with [diagBig].  The values are [ans[0]]; the vectors are
    [ans[1]], under [matrix] in the signature [Matrix] and as they are in the
    signature [Array]. *)
Theorem eigs_decomposes_the_elements (fuel : nat) (x : Matrix) (n : nat) (h : heap) :
  m_size x = [n; n] →
  (∀ l, l ∈ m_data x → is_Some (h !! l)) →
  isSymmetric (snapshot h (m_data x)) n = Ok tt →
  let X := snapshot h (m_data x) in
  (element_type x = "number" →
   fst (eigs_Matrix fuel x h) = answer AsMatrix (diag fuel X default_precision) ∧
   ∀ (arr : Arr) h0, matrix_of_array arr h0 = Ok (x, h) →
     fst (eigs_Array fuel arr h0) = answer AsArray (diag fuel X default_precision)) ∧
  (element_type x = "BigNumber" →
   fst (eigs_Matrix fuel x h) = answer AsMatrix (diagBig fuel X default_precision) ∧
   ∀ (arr : Arr) h0, matrix_of_array arr h0 = Ok (x, h) →
     fst (eigs_Array fuel arr h0) = answer AsArray (diagBig fuel X default_precision)).
Proof.
  intros Hsize Hin Hsym X.
  pose proof (toArray_snapshot x h Hin) as Hsnap.
  pose proof (toArray_twice x h Hin) as Hsnap2.
  split; intros Htype.
  - assert (fst (checkAndSubmit fuel x n h) = diag fuel X default_precision) as Hcheck.
    { unfold checkAndSubmit. fold (element_type x). rewrite Htype. simpl.
      destruct (toArray x h) as [a h1]. simpl in Hsnap, Hsnap2.
      rewrite Hsnap, Hsym.
      destruct (toArray x h1) as [a2 h2]. simpl in Hsnap2. by rewrite Hsnap2. }
    split.
    + by rewrite (eigs_Matrix_square fuel x h n Hsize), Hcheck.
    + intros arr h0 Hmat.
      by rewrite (eigs_Array_square fuel arr h0 h x n Hmat Hsize), Hcheck.
  - assert (fst (checkAndSubmit fuel x n h) = diagBig fuel X default_precision) as Hcheck.
    { unfold checkAndSubmit. fold (element_type x). rewrite Htype. simpl.
      destruct (toArray x h) as [a h1]. simpl in Hsnap, Hsnap2.
      rewrite Hsnap, Hsym.
      destruct (toArray x h1) as [a2 h2]. simpl in Hsnap2. by rewrite Hsnap2. }
    split.
    + by rewrite (eigs_Matrix_square fuel x h n Hsize), Hcheck.
    + intros arr h0 Hmat.
      by rewrite (eigs_Array_square fuel arr h0 h x n Hmat Hsize), Hcheck.
Qed.

End ValidatorExtras.

(** A matrix whose type is ['Complex']. *)
Lemma eigs_rejects_other_element_types_witness :
  eigs_Matrix (Big := Reference.Big) (Frac := Reference.Frac)
    (Arr := list (list Reference.val)) 1
    {| m_data := []; m_size := [2%nat; 2%nat];
       m_datatype := None; m_getDataType := "Complex"%string |} ∅
  = (Some (Throw (TypeError "Matrix element type not supported (Complex)")), ∅).
Proof.
  apply (eigs_rejects_other_element_types (Arr := list (list Reference.val)) 1
           {| m_data := []; m_size := [2%nat; 2%nat];
              m_datatype := None; m_getDataType := "Complex"%string |} 2 ∅);
    [reflexivity|discriminate..].
Defined.

(** The matrix [[1, 2], [3, 4]], its rows at the places 0 and 1 of the
    store. *)
Lemma eigs_rejects_asymmetric_before_iterating_witness :
  let h : store Reference.Big Reference.Frac :=
    <[0%nat := [VNum 1; VNum 2]]> (<[1%nat := [VNum 3; VNum 4]]> ∅) in
  let x := {| m_data := [0%nat; 1%nat]; m_size := [2%nat; 2%nat];
              m_datatype := Some "number"%string;
              m_getDataType := "number"%string |} in
  fst (eigs_Matrix (Arr := list (list Reference.val)) 0 x h)
    = Some (Throw (TypeError "Input matrix is not symmetric")).
Proof.
  intros h x.
  apply (eigs_rejects_asymmetric_before_iterating
           (Arr := list (list Reference.val)) 0 x 2 0 1 h).
  - reflexivity.
  - by left.
  - intros l Hl.
    apply elem_of_cons in Hl as [->|Hl]; [|apply elem_of_cons in Hl as [->|Hl]].
    + by eexists.
    + by eexists.
    + by apply elem_of_nil in Hl.
  - split; [reflexivity|]. repeat constructor.
  - lia.
  - reflexivity.
Defined.

(** The matrix [[2, 1], [1, 2]], of numbers and of BigNumbers. *)
Lemma eigs_decomposes_the_elements_witness :
  let h : store Reference.Big Reference.Frac :=
    <[0%nat := [VNum 2; VNum 1]]> (<[1%nat := [VNum 1; VNum 2]]> ∅) in
  let x := {| m_data := [0%nat; 1%nat]; m_size := [2%nat; 2%nat];
              m_datatype := Some "number"%string;
              m_getDataType := "number"%string |} in
  fst (eigs_Matrix (Arr := list (list Reference.val)) 3 x h)
    = answer AsMatrix (diag 3 (snapshot h (m_data x)) default_precision).
Proof.
  intros h x.
  destruct (eigs_decomposes_the_elements
              (Arr := list (list Reference.val)) 3 x 2 h) as [Hn _].
  - reflexivity.
  - intros l Hl.
    apply elem_of_cons in Hl as [->|Hl]; [|apply elem_of_cons in Hl as [->|Hl]].
    + by eexists.
    + by eexists.
    + by apply elem_of_nil in Hl.
  - vm_compute. reflexivity.
  - apply Hn. reflexivity.
Defined.

(** The same matrix, run: the values 1 and 3, as near as the arithmetic of the
    provider gets. *)
Example eigs_decomposes_the_elements_run :
  let h : store Reference.Big Reference.Frac :=
    <[0%nat := [VNum 2; VNum 1]]> (<[1%nat := [VNum 1; VNum 2]]> ∅) in
  let x := {| m_data := [0%nat; 1%nat]; m_size := [2%nat; 2%nat];
              m_datatype := Some "number"%string;
              m_getDataType := "number"%string |} in
  match fst (eigs_Matrix (Arr := list (list Reference.val)) 3 x h) with
  | Some (Ok d) => values d = [VNum 0.99999999999999978; VNum 2.9999999999999991]
  | _ => False
  end.
Proof. vm_compute. reflexivity. Qed.

(** ** The loop that converts the fractions *)

Section StoreLemmas.
Context {Big Frac : Type} `{!Runtime Big Frac}.
#[local] Abbreviation val := (value Big Frac).
#[local] Abbreviation matrix := (list (list (value Big Frac))).
#[local] Abbreviation heap := (store Big Frac).

Lemma snapshot_lookup (h : heap) (a : list loc) i l r :
  a !! i = Some l → h !! l = Some r → snapshot h a !! i = Some r.
Proof. intros Ea Er. unfold snapshot. by rewrite list_lookup_fmap, Ea; simpl; rewrite Er. Qed.

(** Reading an element of an array in the store. *)
Lemma h_get_entry n (a : list loc) (h : heap) i j :
  rows_defined n a h → (i < n)%nat →
  h_get h a i j = Ok (entry (snapshot h a) i j).
Proof.
  intros [Hlen Hrows] Hi.
  destruct (lookup_lt_is_Some_2 a i) as [l El]; [lia|].
  destruct (Hrows l) as (r & Er & _); [by eapply list_elem_of_lookup_2|].
  unfold h_get, entry. rewrite El. simpl. rewrite Er.
  by rewrite (snapshot_lookup h a i l r).
Qed.

(** Writing one: the other elements, of this row and of the others, stay. *)
Lemma h_set_entry n (a : list loc) (h : heap) i j v :
  rows_defined n a h → NoDup a → (i < n)%nat → (j < n)%nat → v ≠ VUndef →
  ∃ h', h_set h a i j v = Ok h' ∧ rows_defined n a h' ∧
    ∀ p q, entry (snapshot h' a) p q =
           if decide (p = i ∧ q = j) then v else entry (snapshot h a) p q.
Proof.
  intros Hrows Hnd Hi Hj Hv.
  destruct (rows_defined_set n a h i j v) as (h' & E & Hrows'); [done..|].
  exists h'. split; [done|]. split; [done|]. intros p q.
  destruct Hrows as [Hlen Hrows].
  destruct (lookup_lt_is_Some_2 a i) as [l El]; [lia|].
  destruct (Hrows l) as (r & Er & _); [by eapply list_elem_of_lookup_2|].
  unfold h_set in E. rewrite El, Er in E. injection E as <-.
  unfold entry, snapshot. rewrite !list_lookup_fmap.
  destruct (a !! p) as [l'|] eqn:El'; simpl;
    [|by rewrite decide_False by (intros [-> _]; congruence)].
  destruct (decide (p = i)) as [->|Hp].
  - assert (l' = l) as -> by congruence.
    rewrite lookup_insert_eq, Er. simpl. rewrite arr_get_set.
    destruct (decide (q = j)); [by rewrite decide_True|].
    by rewrite decide_False by (intros [_ ?]; done).
  - rewrite lookup_insert_ne.
    + by rewrite decide_False by (intros [? _]; done).
    + intros <-. apply Hp. by eapply (NoDup_lookup a).
Qed.

End StoreLemmas.

Section StoreExtras.
Context {Big Frac : Type} `{!Runtime Big Frac}.
#[local] Abbreviation val := (value Big Frac).
#[local] Abbreviation matrix := (list (list (value Big Frac))).
#[local] Abbreviation heap := (store Big Frac).

(** X15.  The loop of [checkAndSubmit] under [// convert fraction to numbers],
    on an array of [n] different rows of [n] defined elements: it does not
    throw, and for every [p <= q] it leaves [valueOf] of the element that was
    at [(p, q)] both at [(p, q)] and at [(q, p)].  What was below the diagonal
    is overwritten without being read. *)
Theorem fraction_loop_mirrors_the_upper_triangle (xArr : list loc) (n : nat)
    (h : heap) :
  rows_defined n xArr h → NoDup xArr →
  ∃ h', convert_fractions xArr n h = Ok h' ∧
    ∀ p q, (p ≤ q < n)%nat →
      ∃ v, h_get h xArr p q = Ok v ∧
           h_get h' xArr p q = Ok (ToPrimitive v) ∧
           h_get h' xArr q p = Ok (ToPrimitive v).
Proof.
  intros Hrows Hnd.
  set (O := entry (snapshot h xArr)).
  pose (expected := fun (i j p q : nat) =>
    if decide (p `min` q < i ∨ (p `min` q = i ∧ p `max` q < j))%nat
    then ToPrimitive (O (p `min` q) (p `max` q)) else O p q).
  pose (Inv := fun (i j : nat) (h1 : heap) =>
    rows_defined n xArr h1 ∧
    ∀ p q, (p < n)%nat → (q < n)%nat →
      entry (snapshot h1 xArr) p q = expected i j p q).
  destruct (for_range_invariant (fun i h1 => Inv i i h1) n
    (fun i h => for_from i n (fun j h =>
       v ← h_get h xArr i j; v ← valueOf v; h ← h_set h xArr i j v;
       w ← h_get h xArr i j; h_set h xArr j i w) h) h) as (h' & E & H' & Hfinal).
  - split; [done|]. intros p q Hp Hq. unfold expected.
    by rewrite decide_False by lia.
  - intros i h1 Hi [H1 E1].
    destruct (for_from_invariant (fun j h2 => Inv i j h2) i n
      (fun j h => v ← h_get h xArr i j; v ← valueOf v; h ← h_set h xArr i j v;
                  w ← h_get h xArr i j; h_set h xArr j i w) h1)
      as (h2 & E2 & H2 & Hrow); [lia|by split| |].
    + intros j h2 Hj [H2 E2].
      rewrite (h_get_entry n) by (done || lia). rewrite bind_Ok.
      destruct (rows_defined_get n xArr h2 i j) as (v & Ev & Hv); [done|lia..|].
      rewrite (h_get_entry n) in Ev by (done || lia). injection Ev as Ev.
      rewrite Ev. destruct (valueOf_defined v Hv) as (v' & Ev' & Hv').
      rewrite Ev', bind_Ok.
      assert (v' = ToPrimitive v) as Hprim.
      { destruct v; simpl in *; congruence. }
      destruct (h_set_entry n xArr h2 i j v') as (h3 & -> & H3 & E3);
        [done|done|lia|lia|done|].
      rewrite bind_Ok, (h_get_entry n) by (done || lia). rewrite bind_Ok.
      assert (entry (snapshot h3 xArr) i j = v') as ->.
      { rewrite E3. by rewrite decide_True. }
      destruct (h_set_entry n xArr h3 j i v') as (h4 & -> & H4 & E4);
        [done|done|lia|lia|done|].
      exists h4. split; [done|]. split; [done|].
      intros p q Hp Hq. rewrite E4, E3, E2 by done.
      assert (v = O i j) as Hv0.
      { rewrite <- Ev, E2 by lia. unfold expected.
        rewrite decide_False by lia. done. }
      unfold expected. rewrite Hprim, Hv0.
      destruct (decide (p = j ∧ q = i)) as [[-> ->]|Hji].
      { rewrite decide_True by lia.
        by replace (j `min` i)%nat with i by lia;
           replace (j `max` i)%nat with j by lia. }
      destruct (decide (p = i ∧ q = j)) as [[-> ->]|Hij].
      { rewrite decide_True by lia.
        by replace (i `min` j)%nat with i by lia;
           replace (i `max` j)%nat with j by lia. }
      destruct (decide (_ ∨ _)) as [Hd|Hd].
      * by rewrite decide_True by lia.
      * by rewrite decide_False by lia.
    + exists h2. split; [done|]. split; [done|].
      intros p q Hp Hq. rewrite Hrow by done. unfold expected.
      destruct (decide (_ ∨ _)) as [Hd|Hd].
      * by rewrite decide_True by lia.
      * by rewrite decide_False by lia.
  - exists h'. split; [done|]. intros p q Hpq. exists (O p q).
    rewrite !(h_get_entry n) by (done || lia).
    split; [done|]. rewrite !Hfinal by lia. unfold expected.
    rewrite !decide_True by lia.
    replace (p `min` q)%nat with p by lia. replace (p `max` q)%nat with q by lia.
    replace (q `min` p)%nat with p by lia. replace (q `max` p)%nat with q by lia.
    done.
Qed.

End StoreExtras.

(** The rows [[1/2, 1], [5, 1/3]] at the places 0 and 1 of the store: the
    element 5 below the diagonal is lost. *)
Lemma fraction_loop_mirrors_the_upper_triangle_witness :
  let h : store Reference.Big Reference.Frac :=
    <[0%nat := [VFrac (1, 2)%Z; VFrac (1, 1)%Z]]>
      (<[1%nat := [VFrac (5, 1)%Z; VFrac (1, 3)%Z]]> ∅) in
  ∃ h', convert_fractions [0%nat; 1%nat] 2 h = Ok h' ∧
    ∀ p q, (p ≤ q < 2)%nat →
      ∃ v, h_get h [0%nat; 1%nat] p q = Ok v ∧
           h_get h' [0%nat; 1%nat] p q = Ok (ToPrimitive v) ∧
           h_get h' [0%nat; 1%nat] q p = Ok (ToPrimitive v).
Proof.
  intros h. apply (fraction_loop_mirrors_the_upper_triangle [0%nat; 1%nat] 2 h).
  - split; [reflexivity|]. intros l Hl.
    apply elem_of_cons in Hl as [->|Hl]; [|apply elem_of_cons in Hl as [->|Hl]].
    + eexists. split; [reflexivity|]. split; [reflexivity|].
      repeat constructor; discriminate.
    + eexists. split; [reflexivity|]. split; [reflexivity|].
      repeat constructor; discriminate.
    + by apply elem_of_nil in Hl.
  - apply NoDup_cons. split; [|apply NoDup_singleton].
    intros Hin. apply list_elem_of_singleton in Hin. discriminate.
Defined.

Example fraction_loop_run :
  let h : store Reference.Big Reference.Frac :=
    <[0%nat := [VFrac (1, 2)%Z; VFrac (1, 1)%Z]]>
      (<[1%nat := [VFrac (5, 1)%Z; VFrac (1, 3)%Z]]> ∅) in
  match convert_fractions [0%nat; 1%nat] 2 h with
  | Ok h' => snapshot h' [0%nat; 1%nat]
             = [[VNum 0.5; VNum 1]; [VNum 1; VNum 0.33333333333333331]]
  | Throw _ => False
  end.
Proof. vm_compute. reflexivity. Qed.

(** ** Nested arrays: [size], [validate] and [flatten] *)

Section ArrayLemmas.
Import ArrayJS.
Context {Big Frac : Type}.
#[local] Abbreviation data := (nested Big Frac).

Lemma nested_induction (P : data → Prop) :
  (∀ v, P (Leaf v)) → (∀ l, Forall P l → P (Arr l)) → ∀ x, P x.
Proof.
  intros Hleaf Harr. fix IH 1. intros [v|l]; [apply Hleaf|].
  apply Harr. induction l as [|y l IHl]; constructor; [apply IH|apply IHl].
Qed.

Lemma _validate_Arr (l : list data) size dim :
  _validate (Arr l) size dim =
  if decide (Some (length l) ≠ size !! dim)
  then Raise (DimensionError (Some (length l)) (size !! dim) None)
  else if decide (dim < length size - 1)%nat then validate_children size dim l
  else if existsb isArray l
       then Raise (DimensionError (Some (length size + 1)%nat)
                     (Some (length size)) (Some ">"%string))
       else Done tt.
Proof. reflexivity. Qed.

Lemma bind_Done {A B : Type} (a : A) (f : A → outcome B) : Done a ≫= f = f a.
Proof. done. Qed.

Lemma validate_children_cons (m l : list data) size dim :
  validate_children size dim (Arr m :: l)
  = _validate (Arr m) size (dim + 1) ≫= fun _ => validate_children size dim l.
Proof. reflexivity. Qed.

Lemma existsb_isArray (l : list data) :
  existsb isArray l = false ↔ Forall (fun c => isArray c = false) l.
Proof.
  induction l as [|y l IH]; simpl; [by split|].
  rewrite orb_false_iff, IH, Forall_cons. done.
Qed.

Lemma shaped_Arr n s (l : list data) :
  shaped (n :: s) (Arr l) ↔ length l = n ∧ Forall (shaped s) l.
Proof.
  simpl. split; [by intros (l' & [= <-] & ? & ?)|]. intros [? ?]. by exists l.
Qed.

(** [_validate] accepts an array exactly when it has the shape that [size]
    gives from [dim] on. *)
Lemma _validate_shaped (x : data) : ∀ size dim,
  isArray x = true → (dim < length size)%nat →
  _validate x size dim = Done tt ↔ shaped (drop dim size) x.
Proof.
  induction x as [v|l IH] using nested_induction; intros size dim Hx Hdim; [done|].
  destruct (lookup_lt_is_Some_2 size dim Hdim) as [n En].
  rewrite _validate_Arr, En, (drop_S _ _ _ En), shaped_Arr.
  destruct (decide (Some (length l) ≠ Some n)) as [Hne|Heq].
  { split; [done|]. intros [Hlen _]. congruence. }
  assert (length l = n) as Hlen.
  { destruct (decide (length l = n)) as [|Hn]; [done|]. exfalso. apply Heq. congruence. }
  transitivity (Forall (shaped (drop (S dim) size)) l); [|tauto].
  destruct (decide (dim < length size - 1)%nat) as [Hlt|Hlast].
  - clear Hlen Heq Hx. induction l as [|y l IHl]; simpl; [by split|].
    apply Forall_cons in IH as [IHy IHl'].
    destruct (lookup_lt_is_Some_2 size (S dim)) as [n' En']; [lia|].
    destruct y as [v|ly].
    + split; [done|]. intros [Hy _]%Forall_cons.
      rewrite (drop_S _ _ _ En') in Hy. by destruct Hy as (l' & ? & _).
    + assert (S dim < length size)%nat as HS by lia.
      pose proof (IHy size (S dim) eq_refl HS) as IHy'. specialize (IHl IHl').
      rewrite Forall_cons, <- IHl, <- IHy'.
      replace (dim + 1)%nat with (S dim) by lia.
      destruct (_validate (Arr ly) size (S dim)) as [[]|e]; simpl; [tauto|].
      split; [done|]. by intros [? _].
  - rewrite drop_ge by lia. simpl. rewrite <- existsb_isArray.
    by destruct (existsb isArray l).
Qed.

Lemma _size_shaped (size : list nat) : ∀ x : data,
  shaped size x → Forall (fun n => 0 < n)%nat (removelast size) → _size x = size.
Proof.
  induction size as [|n s IH]; intros x Hx Hpos.
  - by destruct x.
  - destruct Hx as (l & -> & Hlen & Hl). simpl. f_equal; [done|].
    destruct s as [|n' s'].
    + destruct l as [|y l]; [done|]. apply Forall_cons in Hl as [Hy _].
      by destruct y.
    + simpl in Hpos. apply List.Forall_cons_iff in Hpos as [Hn Hpos].
      destruct l as [|y l]; [simpl in Hlen; lia|].
      apply Forall_cons in Hl as [Hy _]. by apply IH.
Qed.

(** [size] of a value that has a shape without a zero before the end. *)
Lemma size_of_shaped (x : data) (s : list nat) :
  shaped s x → Forall (fun n => 0 < n)%nat (removelast s) → size x = Done s.
Proof.
  intros Hs Hpos. unfold size. rewrite (_size_shaped s x Hs Hpos).
  destruct s as [|n s]; [by destruct x|].
  destruct Hs as (l & -> & Hlen & Hl). unfold validate.
  assert (_validate (Arr l) (n :: s) 0 = Done tt) as ->; [|done].
  apply _validate_shaped; [done|simpl; lia|]. by exists l.
Qed.

End ArrayLemmas.

Section FlattenLemmas.
Import ArrayJS.
Context {Big Frac : Type}.
#[local] Abbreviation data := (nested Big Frac).

Lemma spread_leaves (e : data) : spread e ≫= leaves = leaves e.
Proof. by destruct e. Qed.

Lemma leaves_of_leaves (l : list data) :
  Forall (level 0) l → l ≫= leaves = l.
Proof.
  induction 1 as [|y l Hy _ IH]; [done|]. rewrite bind_cons, IH.
  by destruct y.
Qed.

(** One pass over arrays takes away two levels of arrays, or the one that is
    left. *)
Lemma flatten_pass_arrays (l next : list data) :
  Forall (fun e => isArray e = true) l →
  flatten_pass next l = Done (next ++ (l ≫= fun e => elements e ≫= spread)).
Proof.
  intros Hl. revert next. induction Hl as [|e l He _ IH]; intros next; simpl.
  - by rewrite app_nil_r.
  - destruct e as [v|m]; [done|]. simpl. rewrite IH, <- app_assoc. done.
Qed.

Lemma flatten_pass_leaves (l : list data) :
  Forall (fun e => isArray e = true) l →
  (l ≫= fun e => elements e ≫= spread) ≫= leaves = l ≫= leaves.
Proof.
  induction 1 as [|e l He _ IH]; [done|].
  rewrite !bind_cons, bind_app, IH. f_equal.
  destruct e as [v|m]; [done|]. simpl.
  induction m as [|y m IHm]; [done|].
  by rewrite !bind_cons, bind_app, IHm, spread_leaves.
Qed.

Lemma flatten_pass_level d (l : list data) :
  Forall (level (S d)) l →
  Forall (level (pred d)) (l ≫= fun e => elements e ≫= spread).
Proof.
  induction 1 as [|e l (m & -> & Hm) _ IH]; [constructor|].
  rewrite bind_cons. apply Forall_app. split; [|done]. simpl.
  induction Hm as [|y m Hy _ IHm]; [constructor|].
  rewrite bind_cons. apply Forall_app. split; [|done].
  destruct d as [|d]; simpl in *.
  - destruct y; [by repeat constructor|done].
  - by destruct Hy as (k & -> & Hk).
Qed.

Lemma level_isArray d (l : list data) :
  Forall (level (S d)) l → Forall (fun e => isArray e = true) l.
Proof. intros H. eapply Forall_impl; [exact H|]. by intros e (m & -> & _). Qed.

Lemma flatten_level d : ∀ (x : data) fuel,
  level (S d) x → (S d ≤ fuel)%nat → flatten fuel x = Some (Done (Arr (leaves x))).
Proof.
  induction d as [d IH] using lt_wf_ind. intros x fuel (l & -> & Hl) Hfuel.
  destruct fuel as [|fuel]; [lia|]. destruct d as [|d].
  - simpl. rewrite (leaves_of_leaves l Hl).
    destruct l as [|[v|m] l]; try done.
    apply Forall_cons in Hl as [Hm _]. done.
  - destruct l as [|e l]; [done|].
    pose proof (level_isArray d _ Hl) as Harr.
    assert (flatten (S fuel) (Arr (e :: l))
            = match flatten_pass [] (e :: l) with
              | Done next => flatten fuel (Arr next)
              | Raise err => Some (Raise err)
              end) as ->.
    { apply Forall_cons in Harr as [He _].
      destruct e as [v|m]; [simpl in He; discriminate|reflexivity]. }
    rewrite (flatten_pass_arrays (e :: l) [] Harr), app_nil_l.
    rewrite (IH (pred d)); [|lia| |lia].
    + do 3 f_equal. exact (flatten_pass_leaves (e :: l) Harr).
    + eexists. split; [done|]. by apply flatten_pass_level.
Qed.

Lemma shaped_level (size : list nat) : ∀ x : data,
  shaped size x → level (length size) x.
Proof.
  induction size as [|n s IH]; intros x Hx; [done|].
  destruct Hx as (l & -> & _ & Hl). exists l. split; [done|].
  eapply Forall_impl; [exact Hl|exact IH].
Qed.

End FlattenLemmas.

Section SqueezeLemmas.
Import ArrayJS.
Context {Big Frac : Type}.
#[local] Abbreviation data := (nested Big Frac).

Lemma _squeeze_Arr (l : list data) dims dim :
  _squeeze (Arr l) dims dim =
  if decide (dim < dims)%nat
  then l' ← squeeze_each dims dim l; Done (Arr l')
  else Done (innermost (Arr l)).
Proof. reflexivity. Qed.

Lemma squeeze_each_cons (c : data) (l : list data) dims dim :
  squeeze_each dims dim (c :: l)
  = c' ← _squeeze c dims (dim + 1); l' ← squeeze_each dims dim l; Done (c' :: l').
Proof. reflexivity. Qed.

(** Inside arrays of one element each lies one value. *)
Lemma innermost_ones k : ∀ x : data,
  shaped (replicate k 1%nat) x →
  isArray (innermost x) = false ∧ leaves x = [innermost x].
Proof.
  induction k as [|k IH]; intros x Hx.
  - destruct x; [done|done].
  - destruct Hx as (l & -> & Hlen & Hl).
    destruct l as [|y [|z l]]; try done.
    apply Forall_cons in Hl as [Hy _]. destruct (IH y Hy) as [Ha Hb].
    split; [done|]. simpl. by rewrite Hb.
Qed.

(** [_squeeze] takes the dimensions of length 1 at the end away. *)
Lemma _squeeze_shaped k (s : list nat) : ∀ (x : data) dim,
  shaped (s ++ replicate k 1%nat) x →
  ∃ x', _squeeze x (dim + length s) dim = Done x' ∧ shaped s x' ∧
        leaves x' = leaves x.
Proof.
  induction s as [|n s IH]; intros x dim Hx.
  - cbn [length app] in *.
    assert (_squeeze x (dim + 0) dim = Done (innermost x)) as ->.
    { destruct x as [v|l]; [|rewrite _squeeze_Arr]; simpl;
        by rewrite decide_False by lia. }
    destruct (innermost_ones k x Hx) as [Ha Hb]. exists (innermost x).
    split; [done|]. split; [done|]. by rewrite Hb; destruct (innermost x).
  - destruct Hx as (l & -> & Hlen & Hl). rewrite _squeeze_Arr.
    rewrite decide_True by (simpl; lia).
    assert (∃ l', squeeze_each (dim + length (n :: s)) dim l = Done l' ∧
                  length l' = length l ∧ Forall (shaped s) l' ∧
                  l' ≫= leaves = l ≫= leaves) as (l' & -> & Hlen' & Hl' & Hleaves).
    { clear Hlen. induction Hl as [|y l Hy _ IHl]; [by exists []|].
      destruct (IH y (dim + 1)%nat Hy) as (y' & Ey & Hy' & Hly).
      destruct IHl as (l' & El & Hlen' & Hl' & Hll).
      exists (y' :: l'). split; [|split; [|split]].
      + rewrite squeeze_each_cons, El.
        replace (dim + length (n :: s))%nat with (dim + 1 + length s)%nat
          by (simpl; lia).
        by rewrite Ey.
      + simpl. by rewrite Hlen'.
      + by constructor.
      + by rewrite !bind_cons, Hly, Hll. }
    rewrite bind_Done. exists (Arr l'). split; [done|]. split; [|done].
    exists l'. split; [done|]. split; [lia|done].
Qed.

(** The first loop of [squeeze] takes the dimensions of length 1 at the
    front away. *)
Lemma squeeze_outer_shaped (s : list nat) : ∀ x : data,
  shaped s x →
  ∃ a s2 x2, squeeze_outer x s = (x2, s2) ∧ s = replicate a 1%nat ++ s2 ∧
             shaped s2 x2 ∧ leaves x2 = leaves x ∧ head s2 ≠ Some 1%nat.
Proof.
  induction s as [|n s IH]; intros x Hx.
  - exists 0%nat, [], x. by destruct x.
  - destruct Hx as (l & -> & Hlen & Hl).
    destruct (decide (n = 1%nat)) as [->|Hn].
    + destruct l as [|y [|z l]]; try done.
      apply Forall_cons in Hl as [Hy _].
      destruct (IH y Hy) as (a & s2 & x2 & E & -> & Hs2 & Hleaves & Hhead).
      exists (S a), s2, x2. simpl. rewrite E. split; [done|]. split; [done|].
      split; [done|]. split; [by rewrite app_nil_r|done].
    + exists 0%nat, (n :: s), (Arr l).
      split; [by destruct l as [|y [|z l]]|].
      split; [done|]. split; [by exists l|]. split; [done|].
      simpl. congruence.
Qed.

(** The second loop finds the dimensions of length 1 at the end. *)
Lemma squeeze_dims_spec (s : list nat) : ∀ dims, (dims ≤ length s)%nat →
  (∀ k, (dims ≤ k < length s)%nat → s !! k = Some 1%nat) →
  let d := squeeze_dims s dims in
  (d ≤ length s)%nat ∧ s = take d s ++ replicate (length s - d) 1%nat ∧
  last (take d s) ≠ Some 1%nat.
Proof.
  induction dims as [|dims IH]; intros Hle Hones; simpl.
  - split; [lia|]. rewrite ?take_0, Nat.sub_0_r. split; [|done]. simpl.
    apply list_eq. intros k. destruct (decide (k < length s)%nat).
    + rewrite Hones by lia. by rewrite lookup_replicate_2.
    + rewrite !lookup_ge_None_2; [done|rewrite length_replicate; lia|lia].
  - destruct (decide (s !! dims = Some 1%nat)) as [E|E].
    + apply IH; [lia|]. intros k Hk.
      destruct (decide (k = dims)) as [->|]; [done|]. apply Hones. lia.
    + split; [done|]. split.
      * apply list_eq. intros k. destruct (decide (k < S dims)%nat).
        -- rewrite lookup_app_l by (rewrite length_take; lia).
           by rewrite lookup_take_lt.
        -- rewrite lookup_app_r by (rewrite length_take; lia).
           rewrite length_take. replace (S dims `min` length s)%nat with (S dims) by lia.
           destruct (decide (k < length s)%nat).
           ++ rewrite Hones by lia. by rewrite lookup_replicate_2 by lia.
           ++ rewrite !lookup_ge_None_2; [done|rewrite length_replicate; lia|lia].
      * rewrite last_lookup, length_take.
        replace (S dims `min` length s)%nat with (S dims) by lia. simpl.
        by rewrite lookup_take_lt by lia.
Qed.

(** [squeeze] on a value and its shape. *)
Lemma squeeze_shaped (s : list nat) (x : data) :
  shaped s x →
  ∃ a b s' x',
    squeeze x (Some s) = Done (x', s') ∧
    s = replicate a 1%nat ++ s' ++ replicate b 1%nat ∧
    head s' ≠ Some 1%nat ∧ last s' ≠ Some 1%nat ∧
    shaped s' x' ∧ leaves x' = leaves x.
Proof.
  intros Hx. unfold squeeze. rewrite bind_Done.
  destruct (squeeze_outer_shaped s x Hx) as (a & s2 & x2 & -> & -> & Hs2 & Hl2 & Hhead).
  destruct (squeeze_dims_spec s2 (length s2)) as (Hd & Hs2' & Hlast); [lia|lia|].
  set (d := squeeze_dims s2 (length s2)) in *.
  assert (head (take d s2) ≠ Some 1%nat) as Hhead'.
  { destruct s2 as [|n s2]; [by rewrite take_nil|].
    destruct d as [|d]; [done|]. done. }
  destruct (decide (d < length s2)%nat) as [Hlt|Hge].
  - rewrite Hs2' in Hs2.
    destruct (_squeeze_shaped (length s2 - d) (take d s2) x2 0 Hs2)
      as (x' & E & Hs' & Hl').
    rewrite length_take in E. replace (d `min` length s2)%nat with d in E by lia.
    simpl in E. rewrite E, bind_Done.
    exists a, (length s2 - d)%nat, (take d s2), x'.
    split; [done|]. split; [by rewrite <- Hs2'|]. split; [done|]. split; [done|].
    split; [done|]. by rewrite Hl', Hl2.
  - assert (d = length s2) as Hd' by lia.
    rewrite Hd', take_ge in Hlast, Hhead' by lia.
    exists a, 0%nat, s2, x2. split; [done|]. split; [by rewrite app_nil_r|].
    done.
Qed.

End SqueezeLemmas.

Section UnsqueezeLemmas.
Import ArrayJS.
Context {Big Frac : Type}.
#[local] Abbreviation data := (nested Big Frac).

Lemma wrapped_shaped k : ∀ (s : list nat) (x : data),
  shaped s x → shaped (replicate k 1%nat ++ s) (wrapped k x) ∧
               leaves (wrapped k x) = leaves x.
Proof.
  induction k as [|k IH]; intros s x Hx; [by split|].
  destruct (IH (1%nat :: s) (Arr [x])) as [Hs Hl].
  { exists [x]. split; [done|]. split; [done|]. by repeat constructor. }
  cbn [wrapped]. rewrite replicate_S_end, <- app_assoc. cbn [app].
  split; [done|]. rewrite Hl. simpl. by rewrite app_nil_r.
Qed.

(** [_unsqueeze] adds what is missing at the end. *)
Lemma _unsqueeze_shaped b (s : list nat) : ∀ (x : data) dim,
  shaped s x →
  shaped (s ++ replicate b 1%nat) (_unsqueeze x (dim + length s + b) dim) ∧
  leaves (_unsqueeze x (dim + length s + b) dim) = leaves x.
Proof.
  induction s as [|n s IH]; intros x dim Hx.
  - destruct x as [v|l]; [|done]. simpl.
    replace (dim + 0 + b - dim)%nat with b by lia.
    destruct (wrapped_shaped b [] (Leaf v)) as [Hs Hl]; [done|].
    by rewrite app_nil_r in Hs.
  - destruct Hx as (l & -> & Hlen & Hl). simpl.
    assert (∀ y : data, shaped s y →
              shaped (s ++ replicate b 1%nat)
                (_unsqueeze y (dim + S (length s) + b) (dim + 1)) ∧
              leaves (_unsqueeze y (dim + S (length s) + b) (dim + 1)) = leaves y)
      as Hstep.
    { intros y Hy.
      replace (dim + S (length s) + b)%nat with (dim + 1 + length s + b)%nat by lia.
      by apply IH. }
    split.
    + eexists. split; [done|]. split; [by rewrite length_fmap|].
      apply Forall_fmap. eapply Forall_impl; [exact Hl|].
      intros y Hy. by apply Hstep.
    + clear Hlen. induction Hl as [|y l Hy _ IHl]; [done|].
      rewrite fmap_cons, !bind_cons, IHl. f_equal. by apply Hstep.
Qed.

(** The first loop of [unsqueeze] adds what is missing at the front: around
    a value that is no array, every dimension that is asked for; *)
Lemma unsqueeze_outer_ones : ∀ m c (y : data),
  shaped (replicate c 1%nat) y →
  ∃ y', unsqueeze_outer (replicate m 1%nat) (c + m) y (replicate c 1%nat) c
        = (y', replicate (c + m) 1%nat) ∧
        shaped (replicate (c + m) 1%nat) y' ∧ leaves y' = leaves y.
Proof.
  induction m as [|m IH]; intros c y Hy.
  - exists y. simpl. by rewrite Nat.add_0_r.
  - simpl. rewrite decide_True by (rewrite length_replicate; lia).
    rewrite decide_True.
    2:{ rewrite lookup_replicate. intros [? ?]. lia. }
    destruct (IH (S c) (Arr [y])) as (y' & E & Hs' & Hl').
    { exists [y]. split; [done|]. split; [done|]. by repeat constructor. }
    exists y'. replace (c + 1)%nat with (S c) by lia.
    replace (c + S m)%nat with (S c + m)%nat by lia.
    split; [exact E|]. split; [done|]. rewrite Hl'. simpl. by rewrite app_nil_r.
Qed.

(** around an array whose first dimension is not 1, the dimensions up to the
    first that is not 1. *)
Lemma unsqueeze_outer_front (s : list nat) (b : nat) :
  s ≠ [] → head s ≠ Some 1%nat → ∀ m k (x : data),
  shaped (replicate k 1%nat ++ s) x →
  ∃ x', unsqueeze_outer (replicate m 1%nat ++ s ++ replicate b 1%nat)
          (k + m + length s + b) x (replicate k 1%nat ++ s) k
        = (x', replicate (k + m) 1%nat ++ s) ∧
        shaped (replicate (k + m) 1%nat ++ s) x' ∧ leaves x' = leaves x.
Proof.
  intros Hne Hhead. induction m as [|m IH]; intros k x Hx.
  - exists x. rewrite Nat.add_0_r. split; [|done].
    destruct s as [|n s]; [done|]. simpl.
    rewrite decide_False; [done|]. intros [-> _]. by apply Hhead.
  - simpl. rewrite decide_True.
    2:{ split; [done|]. rewrite length_app, length_replicate. lia. }
    rewrite decide_True.
    2:{ rewrite lookup_app_r; rewrite length_replicate; [|lia].
        rewrite Nat.sub_diag. destruct s; [done|]. simpl in *. congruence. }
    destruct (IH (S k) (Arr [x])) as (x' & E & Hs' & Hl').
    { exists [x]. split; [done|]. split; [done|]. by repeat constructor. }
    exists x'. replace (k + 1)%nat with (S k) by lia.
    replace (k + S m)%nat with (S k + m)%nat by lia.
    split; [exact E|]. split; [done|]. rewrite Hl'. simpl. by rewrite app_nil_r.
Qed.

(** [unsqueeze] on a value and its shape. *)
Lemma unsqueeze_shaped (s : list nat) (a b : nat)
    (x : data) :
  shaped s x → head s ≠ Some 1%nat →
  let desired := replicate a 1%nat ++ s ++ replicate b 1%nat in
  ∃ x', unsqueeze x desired (Some s) = Done (x', desired) ∧
        shaped desired x' ∧ leaves x' = leaves x.
Proof.
  intros Hx Hhead desired. unfold unsqueeze. rewrite bind_Done.
  assert (length desired = (a + length s + b)%nat) as Hlen.
  { unfold desired. rewrite !length_app, !length_replicate. lia. }
  destruct (decide (s = [])) as [->|Hne].
  - assert (desired = replicate (a + b) 1%nat) as Hd.
    { unfold desired. by rewrite app_nil_l, replicate_add. }
    destruct (unsqueeze_outer_ones (a + b) 0 x Hx) as (x1 & E & Hs1 & Hl1).
    rewrite Hlen, Hd. simpl in *. rewrite Nat.add_0_r, E.
    destruct (_unsqueeze_shaped 0 (replicate (a + b) 1%nat) x1 0 Hs1) as [Hs2 Hl2].
    rewrite length_replicate, app_nil_r in *. simpl in *.
    rewrite Nat.add_0_r in *. rewrite Nat.sub_diag. simpl. rewrite app_nil_r.
    eexists. split; [done|]. split; [done|]. by rewrite Hl2.
  - destruct (unsqueeze_outer_front s b Hne Hhead a 0 x Hx) as (x1 & E & Hs1 & Hl1).
    rewrite Hlen. unfold desired. simpl in *. rewrite E.
    destruct (_unsqueeze_shaped b (replicate a 1%nat ++ s) x1 0 Hs1) as [Hs2 Hl2].
    rewrite length_app, length_replicate in *. simpl in *.
    replace (a + length s + b - (a + length s))%nat with b by lia.
    rewrite <- !app_assoc in *.
    eexists. split; [done|]. split; [done|]. by rewrite Hl2.
Qed.

(** A list splits in one way into 1s and a rest that does not begin with
    1. *)
Lemma ones_then_rest (s s' : list nat) : ∀ a a',
  replicate a 1%nat ++ s = replicate a' 1%nat ++ s' →
  head s ≠ Some 1%nat → head s' ≠ Some 1%nat → a = a' ∧ s = s'.
Proof.
  induction a as [|a IH]; intros [|a'] E Hs Hs'; simpl in *.
  - done.
  - subst s. simpl in Hs. done.
  - subst s'. simpl in Hs'. done.
  - injection E as E. destruct (IH a' E Hs Hs') as [-> ->]. done.
Qed.

Lemma ones_around (s s' : list nat) a b a' b' :
  replicate a 1%nat ++ s ++ replicate b 1%nat
    = replicate a' 1%nat ++ s' ++ replicate b' 1%nat →
  head s ≠ Some 1%nat → last s ≠ Some 1%nat →
  head s' ≠ Some 1%nat → last s' ≠ Some 1%nat →
  s = s'.
Proof.
  intros E Hh Hl Hh' Hl'.
  assert (∀ (t : list nat) c, t ≠ [] → head t ≠ Some 1%nat →
            head (t ++ replicate c 1%nat) ≠ Some 1%nat) as Hfront.
  { intros [|n t] c Hne Ht; [done|done]. }
  assert (∀ (t : list nat) c d e, t ≠ [] → head t ≠ Some 1%nat →
            replicate c 1%nat ++ t ++ replicate d 1%nat ≠ replicate e 1%nat)
    as Hones.
  { intros [|n t] c d e Hne Ht Heq; [done|].
    assert (n ∈ replicate e 1%nat) as Hin by (rewrite <- Heq; set_solver).
    apply elem_of_replicate in Hin as [-> _]. done. }
  destruct (decide (s = [])) as [->|Hne]; destruct (decide (s' = [])) as [->|Hne'].
  - done.
  - exfalso. simpl in E. rewrite <- replicate_add in E. symmetry in E.
    by apply Hones in E.
  - exfalso. simpl in E. rewrite <- replicate_add in E. by apply Hones in E.
  - apply ones_then_rest in E as [_ E]; [|by apply Hfront..].
    apply (f_equal reverse) in E. rewrite !reverse_app, !reverse_replicate in E.
    apply ones_then_rest in E as [_ E].
    + by apply (inj reverse).
    + by rewrite head_reverse.
    + by rewrite head_reverse.
Qed.

(** The number of the values in a value of a shape. *)
Lemma leaves_length (s : list nat) : ∀ x : data,
  shaped s x → length (leaves x) = foldr Nat.mul 1%nat s.
Proof.
  induction s as [|n s IH]; intros x Hx; [by destruct x|].
  destruct Hx as (l & -> & <- & Hl). simpl.
  induction Hl as [|y l Hy _ IHl]; [done|].
  rewrite bind_cons, length_app, IHl, (IH y Hy). simpl. lia.
Qed.

(** A shape and the values in it make the value. *)
Lemma shaped_leaves_inj (s : list nat) : ∀ x y : data,
  shaped s x → shaped s y → leaves x = leaves y → x = y.
Proof.
  induction s as [|n s IH]; intros x y Hx Hy E.
  - destruct x, y; try done. simpl in E. congruence.
  - destruct Hx as (l & -> & Hlen & Hl). destruct Hy as (l' & -> & Hlen' & Hl').
    f_equal. simpl in E. rewrite <- Hlen' in Hlen. clear Hlen'.
    revert l' Hl' Hlen E. induction Hl as [|c l Hc _ IHl]; intros l' Hl' Hlen E.
    + by destruct l'.
    + destruct Hl' as [|c' l' Hc' Hl']; [done|].
      rewrite !bind_cons in E.
      apply app_inj_1 in E as [Ec El];
        [|by rewrite (leaves_length s c Hc), (leaves_length s c' Hc')].
      f_equal; [by apply IH|]. apply IHl; [done|simpl in Hlen; lia|done].
Qed.

End UnsqueezeLemmas.

Section ArrayExtras.
Import ArrayJS.
Context {Big Frac : Type}.
#[local] Abbreviation data := (nested Big Frac).

(** X16.  [validate] accepts an array for a size exactly when the array has the
    shape of the size: as many elements as the first dimension says, each of
    them an array of the shape of the other dimensions, and at the bottom no
    arrays.  For the empty size it accepts exactly the values that are no
    arrays. *)
Theorem validate_accepts_the_shape (x : data) (size : list nat) :
  isArray x = true ∨ size = [] →
  validate x size = Done tt ↔ shaped size x.
Proof.
  intros Hx. destruct size as [|n s].
  - simpl. by destruct x.
  - destruct Hx as [Hx|]; [|done]. unfold validate.
    rewrite (_validate_shaped x (n :: s) 0 Hx); [done|simpl; lia].
Qed.

(** X17.  [size] returns [s] exactly when [s] is what [_size] reads along the
    first elements and the value has the shape [s].  It returns the shape of
    every value that has one in which no dimension but the last is zero. *)
Theorem size_answers_for_rectangular_arrays (x : data) (s : list nat) :
  (size x = Done s ↔ s = _size x ∧ shaped s x) ∧
  (shaped s x → Forall (fun n => 0 < n)%nat (removelast s) → size x = Done s).
Proof.
  assert (validate x (_size x) = Done tt ↔ shaped (_size x) x) as Hv.
  { destruct x as [v|l]; [done|]. unfold validate. simpl _size.
    rewrite (_validate_shaped (Arr l) _ 0); [done|done|simpl; lia]. }
  assert (size x = Done s ↔ s = _size x ∧ shaped s x) as Hsize.
  { unfold size. split.
    - destruct (validate x (_size x)) as [[]|e] eqn:E; [|done].
      intros [= <-]. split; [done|]. by apply Hv.
    - intros [-> Hs]. apply Hv in Hs. by rewrite Hs. }
  split; [done|]. apply size_of_shaped.
Qed.

(** X18.  On an array of rows, the first of [c] elements none of which is an
    array, [size] throws [DimensionError(len, c)] at the first row whose
    length [len] is not [c], the rows before it having [c] elements that are
    no arrays: the error of [eigs([[1, 2], [4, 5, 6]])]. *)
Theorem size_reports_the_first_ragged_row (r0 : list data) (pre post : list data)
    (r : list data) :
  Forall (fun c => isArray c = false) r0 →
  Forall (fun row => ∃ m, row = Arr m ∧ length m = length r0 ∧
                          Forall (fun c => isArray c = false) m) pre →
  length r ≠ length r0 →
  size (Arr (Arr r0 :: pre ++ Arr r :: post))
  = Raise (DimensionError (Some (length r)) (Some (length r0)) None).
Proof.
  intros Hr0 Hpre Hr. unfold size.
  assert (_size (Arr (Arr r0 :: pre ++ Arr r :: post))
          = [length (Arr r0 :: pre ++ Arr r :: post); length r0]) as ->.
  { simpl. do 2 f_equal. destruct r0 as [|y r0]; [done|].
    apply Forall_cons in Hr0 as [Hy _]. by destruct y. }
  remember (length (Arr r0 :: pre ++ Arr r :: post)) as N eqn:HN.
  unfold validate. rewrite _validate_Arr, <- HN.
  change ([N; length r0] !! 0%nat) with (Some N).
  rewrite decide_False by (intros H; by apply H).
  rewrite decide_True by (simpl; lia).
  assert (∀ m : list data, length m = length r0 →
            Forall (fun c => isArray c = false) m →
            _validate (Arr m) [N; length r0] (0 + 1) = Done tt) as Hrow.
  { intros m Hm Hleaf. rewrite _validate_Arr, Hm.
    change ([N; length r0] !! (0 + 1)%nat) with (Some (length r0)).
    rewrite decide_False by (intros H; by apply H).
    rewrite decide_False by (simpl; lia).
    apply existsb_isArray in Hleaf. by rewrite Hleaf. }
  rewrite validate_children_cons, (Hrow r0), bind_Done by done.
  clear HN. induction Hpre as [|row pre (m & -> & Hm & Hleaf) _ IH].
  - rewrite app_nil_l, validate_children_cons, _validate_Arr.
    change ([N; length r0] !! (0 + 1)%nat) with (Some (length r0)).
    rewrite decide_True by congruence. done.
  - rewrite <- app_comm_cons, validate_children_cons, (Hrow m), bind_Done by done.
    apply IH.
Qed.

End ArrayExtras.

Section FlattenExtras.
Import ArrayJS.
Context {Big Frac : Type}.
#[local] Abbreviation data := (nested Big Frac).

(** X19.  On an array all of whose values lie at the same depth [d >= 1], rows
    of different lengths allowed, [flatten] returns the array of these values
    from left to right, none of them an array, within [d] tests of the
    condition of its loop. *)
Theorem flatten_lists_the_leaves (d : nat) (x : data) (fuel : nat) :
  level (S d) x → (S d ≤ fuel)%nat →
  flatten fuel x = Some (Done (Arr (leaves x))) ∧
  Forall (fun e => isArray e = false) (leaves x).
Proof.
  intros Hx Hfuel. split; [by apply (flatten_level d)|].
  clear Hfuel fuel. revert x Hx. generalize (S d) as k. clear d.
  induction k as [|k IH]; intros x Hx.
  - destruct x; [by repeat constructor|done].
  - destruct Hx as (l & -> & Hl). simpl.
    induction Hl as [|y l Hy _ IHl]; [constructor|].
    rewrite bind_cons. apply Forall_app. split; [by apply IH|done].
Qed.

End FlattenExtras.

Section SqueezeExtras.
Import ArrayJS.
Context {Big Frac : Type}.
#[local] Abbreviation data := (nested Big Frac).

(** X20.  On a value and its shape, [squeeze] takes away the dimensions of
    length 1 at the front and at the end, and no other: the shape splits into
    1s, the shape [s'] that is left in [s], and 1s, [s'] neither beginning nor
    ending with 1; the value returned has the shape [s'] and holds the same
    values in the same order.  Without the second argument the result is the
    same, [size] finding the shape, when no dimension but the last is
    zero. *)
Theorem squeeze_takes_the_ends_of_length_one_away (s : list nat) (x : data) :
  shaped s x →
  ∃ a b s' x',
    squeeze x (Some s) = Done (x', s') ∧
    (Forall (fun n => 0 < n)%nat (removelast s) →
     squeeze x None = Done (x', s')) ∧
    s = replicate a 1%nat ++ s' ++ replicate b 1%nat ∧
    head s' ≠ Some 1%nat ∧ last s' ≠ Some 1%nat ∧
    shaped s' x' ∧ leaves x' = leaves x.
Proof.
  intros Hx.
  destruct (squeeze_shaped s x Hx) as (a & b & s' & x' & E & Hs & Hh & Hl & Hs' & Hlv).
  exists a, b, s', x'. split; [done|]. split; [|done].
  intros Hpos. unfold squeeze in *. by rewrite (size_of_shaped x s Hx Hpos).
Qed.

End SqueezeExtras.

Section UnsqueezeExtras.
Import ArrayJS.
Context {Big Frac : Type}.
#[local] Abbreviation data := (nested Big Frac).

(** X21.  On a value of a shape [s] that does not begin with 1, and for a size
    asked for that is [s] with 1s before and after it, [unsqueeze] returns a
    value of the shape asked for that holds the same values in the same
    order, and leaves that shape in [s].  Without the third argument the
    result is the same when no dimension of [s] but the last is zero. *)
Theorem unsqueeze_adds_the_ends_of_length_one (s : list nat) (a b : nat)
    (x : data) :
  shaped s x → head s ≠ Some 1%nat →
  let desired := replicate a 1%nat ++ s ++ replicate b 1%nat in
  ∃ x', unsqueeze x desired (Some s) = Done (x', desired) ∧
        (Forall (fun n => 0 < n)%nat (removelast s) →
         unsqueeze x desired None = Done (x', desired)) ∧
        shaped desired x' ∧ leaves x' = leaves x.
Proof.
  intros Hx Hhead desired.
  destruct (unsqueeze_shaped s a b x Hx Hhead) as (x' & E & Hs' & Hl').
  exists x'. split; [done|]. split; [|done].
  intros Hpos. unfold unsqueeze in *. by rewrite (size_of_shaped x s Hx Hpos).
Qed.

(** X22.  [squeeze] undoes [unsqueeze]: for a value of a shape [s] that neither
    begins nor ends with 1, [unsqueeze] to [s] with 1s before and after it and
    then [squeeze] give the value and [s] back. *)
Theorem squeeze_undoes_unsqueeze (s : list nat) (a b : nat) (x : data) :
  shaped s x → head s ≠ Some 1%nat → last s ≠ Some 1%nat →
  let desired := replicate a 1%nat ++ s ++ replicate b 1%nat in
  ∃ x', unsqueeze x desired (Some s) = Done (x', desired) ∧
        squeeze x' (Some desired) = Done (x, s).
Proof.
  intros Hx Hhead Hlast desired.
  destruct (unsqueeze_shaped s a b x Hx Hhead) as (x' & E & Hs' & Hl').
  exists x'. split; [done|].
  destruct (squeeze_shaped desired x' Hs')
    as (a' & b' & s'' & x'' & E' & Hd & Hh'' & Hl'' & Hs'' & Hlv).
  assert (s = s'') as <- by (by eapply ones_around).
  rewrite E'. do 2 f_equal.
  apply (shaped_leaves_inj s); [done|done|]. by rewrite Hlv, Hl'.
Qed.

End UnsqueezeExtras.

Section ArrayRuns.
Import ArrayJS.
#[local] Abbreviation data := (nested Reference.Big Reference.Frac).

(** The array [[1, 2], [3, 4]] and the size [[2, 2]]. *)
Lemma validate_accepts_the_shape_witness :
  validate (Arr [Arr [Leaf (VNum 1); Leaf (VNum 2)];
                 Arr [Leaf (VNum 3); Leaf (VNum 4)]] : data) [2%nat; 2%nat]
    = Done tt
  ↔ shaped [2%nat; 2%nat]
      (Arr [Arr [Leaf (VNum 1); Leaf (VNum 2)];
            Arr [Leaf (VNum 3); Leaf (VNum 4)]] : data).
Proof.
  apply (validate_accepts_the_shape
           (Arr [Arr [Leaf (VNum 1); Leaf (VNum 2)];
                 Arr [Leaf (VNum 3); Leaf (VNum 4)]] : data) [2%nat; 2%nat]).
  by left.
Defined.

(** [[1, 2], [4, 5, 6]]. *)
Lemma size_reports_the_first_ragged_row_witness :
  size (Arr [Arr [Leaf (VNum 1); Leaf (VNum 2)];
             Arr [Leaf (VNum 4); Leaf (VNum 5); Leaf (VNum 6)]] : data)
  = Raise (DimensionError (Some 3%nat) (Some 2%nat) None).
Proof.
  apply (size_reports_the_first_ragged_row
           [Leaf (VNum 1); Leaf (VNum 2) : data] [] []
           [Leaf (VNum 4); Leaf (VNum 5); Leaf (VNum 6)]).
  - repeat constructor.
  - constructor.
  - simpl. lia.
Defined.

(** [[[1], [2, 3]], [[4]]]: three arrays deep, the rows of different
    lengths. *)
Lemma flatten_lists_the_leaves_witness :
  let x : data :=
    Arr [Arr [Arr [Leaf (VNum 1)]; Arr [Leaf (VNum 2); Leaf (VNum 3)]];
         Arr [Arr [Leaf (VNum 4)]]] in
  flatten 3 x = Some (Done (Arr (leaves x))) ∧
  Forall (fun e => isArray e = false) (leaves x).
Proof.
  intros x. apply (flatten_lists_the_leaves 2 x 3); [|lia].
  repeat first [ reflexivity | apply Forall_nil_2 | apply Forall_cons_2
               | eexists; split; [reflexivity|] ].
Defined.

(** [[[1], [2]]], of the shape [[1, 2, 1]]. *)
Lemma squeeze_takes_the_ends_of_length_one_away_witness :
  let x : data := Arr [Arr [Arr [Leaf (VNum 1)]; Arr [Leaf (VNum 2)]]] in
  ∃ a b s' x',
    squeeze x (Some [1; 2; 1]%nat) = Done (x', s') ∧
    (Forall (fun n => 0 < n)%nat (removelast [1; 2; 1]%nat) →
     squeeze x None = Done (x', s')) ∧
    [1; 2; 1]%nat = replicate a 1%nat ++ s' ++ replicate b 1%nat ∧
    head s' ≠ Some 1%nat ∧ last s' ≠ Some 1%nat ∧
    shaped s' x' ∧ leaves x' = leaves x.
Proof.
  intros x. apply (squeeze_takes_the_ends_of_length_one_away [1; 2; 1]%nat x).
  repeat first [ reflexivity | apply Forall_nil_2 | apply Forall_cons_2
               | eexists; split; [reflexivity|]; split; [reflexivity|] ].
Defined.

(** [[1, 2]], of the shape [[2]], to the size [[1, 2, 1]]. *)
Lemma unsqueeze_adds_the_ends_of_length_one_witness :
  let x : data := Arr [Leaf (VNum 1); Leaf (VNum 2)] in
  ∃ x', unsqueeze x [1; 2; 1]%nat (Some [2%nat]) = Done (x', [1; 2; 1]%nat) ∧
        (Forall (fun n => 0 < n)%nat (removelast [2%nat]) →
         unsqueeze x [1; 2; 1]%nat None = Done (x', [1; 2; 1]%nat)) ∧
        shaped [1; 2; 1]%nat x' ∧ leaves x' = leaves x.
Proof.
  intros x. apply (unsqueeze_adds_the_ends_of_length_one [2%nat] 1 1 x).
  - exists [Leaf (VNum 1); Leaf (VNum 2)]. split; [reflexivity|].
    split; [reflexivity|]. by repeat constructor.
  - simpl. congruence.
Defined.

Lemma squeeze_undoes_unsqueeze_witness :
  let x : data := Arr [Leaf (VNum 1); Leaf (VNum 2)] in
  ∃ x', unsqueeze x [1; 2; 1]%nat (Some [2%nat]) = Done (x', [1; 2; 1]%nat) ∧
        squeeze x' (Some [1; 2; 1]%nat) = Done (x, [2%nat]).
Proof.
  intros x. apply (squeeze_undoes_unsqueeze [2%nat] 1 1 x).
  - exists [Leaf (VNum 1); Leaf (VNum 2)]. split; [reflexivity|].
    split; [reflexivity|]. by repeat constructor.
  - simpl. congruence.
  - simpl. congruence.
Defined.

(** The runs: the sizes of [[1, 2], [3, 4]] and of the vector [4, 5, 6], which
    [eigs] refuses as not square; an array whose first element is no array is
    returned by [flatten] as it is. *)
Example size_run :
  size (Arr [Arr [Leaf (VNum 1); Leaf (VNum 2)];
             Arr [Leaf (VNum 3); Leaf (VNum 4)]] : data) = Done [2%nat; 2%nat] ∧
  size (Arr [Leaf (VNum 4); Leaf (VNum 5); Leaf (VNum 6)] : data) = Done [3%nat] ∧
  size (Leaf (VNum 1) : data) = Done [] ∧
  flatten 3 (Arr [Arr [Arr [Leaf (VNum 1)]; Arr [Leaf (VNum 2); Leaf (VNum 3)]];
                  Arr [Arr [Leaf (VNum 4)]]] : data)
    = Some (Done (Arr [Leaf (VNum 1); Leaf (VNum 2); Leaf (VNum 3); Leaf (VNum 4)])) ∧
  flatten 1 (Arr [Leaf (VNum 1); Arr [Leaf (VNum 2)]] : data)
    = Some (Done (Arr [Leaf (VNum 1); Arr [Leaf (VNum 2)]])).
Proof. repeat split; vm_compute; reflexivity. Qed.

(** A dimension of length 1 in the middle stays; [unsqueeze] of [[1, 2]] to
    the size [[1, 2, 1]]; [squeeze] throws on strings where the size given
    has it look for arrays. *)
Example squeeze_run :
  squeeze (Arr [Arr [Arr [Leaf (VNum 1); Leaf (VNum 2)]];
                Arr [Arr [Leaf (VNum 3); Leaf (VNum 4)]]] : data) None
    = Done (Arr [Arr [Arr [Leaf (VNum 1); Leaf (VNum 2)]];
                 Arr [Arr [Leaf (VNum 3); Leaf (VNum 4)]]], [2; 1; 2]%nat) ∧
  unsqueeze (Arr [Leaf (VNum 1); Leaf (VNum 2)] : data) [1; 2; 1]%nat None
    = Done (Arr [Arr [Arr [Leaf (VNum 1)]; Arr [Leaf (VNum 2)]]], [1; 2; 1]%nat) ∧
  squeeze (Arr [Leaf (VStr "ab"); Leaf (VStr "cd")] : data) (Some [2; 2; 1]%nat)
    = Raise ElementOfString.
Proof. repeat split; vm_compute; reflexivity. Qed.

End ArrayRuns.
